(** * i-PI ensembles and driver: a shallow embedding

    The integrators of [ipi/engine/ensembles.py] and the driver loop of
    [ipi/engine/simulation.py], embedded as functions on explicit state.

    Numbers.  The Python code computes on float64 arrays.  The embedding
    computes on canonical rationals [Qc], so the statements below are
    statements in exact arithmetic; rounding is outside the model, apart from
    float64 examples on the order of two kicks and on the removal of the
    centre-of-mass momentum.

    Arrays.  [beads.q], [beads.p] are [nbeads] rows of [3*natoms] numbers;
    they are lists of rows here, with strided slices and fancy indexing
    written out. *)

From Stdlib Require Import ZArith QArith Qcanon Lia.
From Stdlib Require PrimFloat.
From stdpp Require Import base list.

Local Open Scope Qc_scope.

(** ** Numbers and arrays *)

Definition array := list (list Qc).

Definition Z2Qc (z : Z) : Qc := Q2Qc (inject_Z z).
Definition N2Qc (n : nat) : Qc := Z2Qc (Z.of_nat n).

Definition two : Qc := Z2Qc 2.
Definition half : Qc := Q2Qc (1 # 2).

(** [l[i]] for an index that the shape invariants keep in range. *)
Definition at0 (l : list Qc) (i : nat) : Qc := default 0 (l !! i).

(** [numpy.sum] and [numpy.dot] on one-dimensional data. *)
Definition sumQc (l : list Qc) : Qc := foldr Qcplus 0 l.
Definition dotQc (a b : list Qc) : Qc := sumQc (zip_with Qcmult a b).

(** Elementwise [a/b]. *)
Definition vdiv (a b : list Qc) : list Qc := zip_with Qcdiv a b.

(** [row[i:na3:3]] with [na3 = 3*na]: the [i]-th Cartesian component of
    every atom. *)
Definition stride3 (i na : nat) (row : list Qc) : list Qc :=
  map (fun a => at0 row (3 * a + i)) (seq 0 na).

(** [arr[:, i:na3:3].sum()]. *)
Definition sum_stride3 (i na : nat) (arr : array) : Qc :=
  sumQc (map (fun row => sumQc (stride3 i na row)) arr).

(** [row[i:na3:3] -= mrow * c] on one row. *)
Definition sub_stride3_row (i na : nat) (mrow : list Qc) (c : Qc)
    (row : list Qc) : list Qc :=
  imap (fun j x =>
          if decide ((j mod 3 = i)%nat ∧ (j < 3 * na)%nat)
          then x - at0 mrow (j / 3) * c else x) row.

(** [arr[:, i:na3:3] -= m * c] with [m] two-dimensional. *)
Definition sub_stride3 (i na : nat) (m2 : array) (c : Qc) (arr : array) : array :=
  zip_with (fun mrow row => sub_stride3_row i na mrow c row) m2 arr.

(** Fancy indexing [l[idx]] and the assignment [l[idx] = 0.0]. *)
Definition gather (idx : list nat) (l : list Qc) : list Qc := map (at0 l) idx.
Definition scatter0 (idx : list nat) (l : list Qc) : list Qc :=
  fold_left (fun acc j => <[j := 0]> acc) idx l.

(** [arr += f * c], elementwise on two-dimensional data. *)
Definition axpy (c : Qc) (f arr : array) : array :=
  zip_with (zip_with (fun x y => x + y * c)) arr f.

(** ** The shared simulation objects

    [q], [p], [m] are [beads.q], [beads.p], [beads.m]; [h] is [cell.h].
    [ethermo], [ebaro] are the heat accumulators of the thermostat and the
    barostat; [priv] is whatever else those two objects keep (barostat
    momentum, random stream). *)

Record Sys := mkSys {
  q : array;
  p : array;
  m : list Qc;
  h : array;
  ethermo : Qc;
  ebaro : Qc;
  priv : list Qc
}.

Definition set_q (x : array) (s : Sys) : Sys :=
  mkSys x (p s) (m s) (h s) (ethermo s) (ebaro s) (priv s).
Definition set_p (x : array) (s : Sys) : Sys :=
  mkSys (q s) x (m s) (h s) (ethermo s) (ebaro s) (priv s).
Definition set_h (x : array) (s : Sys) : Sys :=
  mkSys (q s) (p s) (m s) x (ethermo s) (ebaro s) (priv s).

(** Modelled from the spec: the [Beads] class is not among the sources.
    The replica set is P replicas of N atoms with one per-atom mass vector;
    [nbeads] and [natoms] are its counts, [m3] repeats every mass once per
    Cartesian component and per replica, and [M] (read as [beads[0].M]) is
    the total mass of one replica. *)
Definition beads_nbeads (s : Sys) : nat := length (p s).
Definition beads_natoms (s : Sys) : nat := length (m s).
Definition beads_m3 (s : Sys) : array :=
  replicate (beads_nbeads s) (m s ≫= fun x => [x; x; x]).
Definition beads_M (s : Sys) : Qc := sumQc (m s).

(** Shape invariant of the replica set. *)
Definition wf_shape (s : Sys) : Prop :=
  Forall (fun row => length row = (3 * beads_natoms s)%nat) (p s).

(** ** Calls made by a step, in order *)

Inductive Call :=
| CThermostatStep
| CBaroThermostatStep
| CPconstraints
| CForceKick
| CBiasKick
| CMtsKick (level : nat) (alpha : Qc)
| CQcstep (tau : Qc)
| CFreeQstep (tau : Qc)
| CBaroPstep
| CBaroQcstep.

(** ** The ensemble object

    One record for the attributes of [Ensemble] and its subclasses: the
    static configuration, the ledger [eens], the objects it is bound to
    ([sys]; [nm_dt] is the step size held by the normal-mode object), and the
    list of calls its steps have made. *)

Record Ensemble := mkEns {
  dt : Qc;
  temp : Qc;
  fixcom : bool;
  fixatoms : list nat;
  eens : Qc;
  mtsintegfactors : list Z;
  pext : Qc;
  stressext : array;
  nm_dt : Qc;
  sys : Sys;
  calls : list Call
}.

Definition set_sys (s : Sys) (e : Ensemble) : Ensemble :=
  mkEns (dt e) (temp e) (fixcom e) (fixatoms e) (eens e)
        (mtsintegfactors e) (pext e) (stressext e) (nm_dt e) s (calls e).
Definition set_eens (x : Qc) (e : Ensemble) : Ensemble :=
  mkEns (dt e) (temp e) (fixcom e) (fixatoms e) x
        (mtsintegfactors e) (pext e) (stressext e) (nm_dt e) (sys e) (calls e).
Definition set_nm_dt (x : Qc) (e : Ensemble) : Ensemble :=
  mkEns (dt e) (temp e) (fixcom e) (fixatoms e) (eens e)
        (mtsintegfactors e) (pext e) (stressext e) x (sys e) (calls e).
Definition called (c : Call) (e : Ensemble) : Ensemble :=
  mkEns (dt e) (temp e) (fixcom e) (fixatoms e) (eens e)
        (mtsintegfactors e) (pext e) (stressext e) (nm_dt e) (sys e) (calls e ++ [c]).

(** ** Momentum constraints *)

(** [Ensemble.pconstraints]: [pass]. *)
Definition Ensemble_pconstraints (e : Ensemble) : Ensemble := e.

(** The centre-of-mass branch of [NVEEnsemble.pconstraints]. *)
Definition pcom_of (s : Sys) : list Qc :=
  map (fun i => sum_stride3 i (beads_natoms s) (p s)) [0; 1; 2]%nat.

Definition com_energy (s : Sys) : Qc :=
  dotQc (pcom_of s) (pcom_of s) / (two * beads_M s * N2Qc (beads_nbeads s)).

Definition com_remove (s : Sys) : array :=
  let na := beads_natoms s in
  let nb := beads_nbeads s in
  let mm := map (stride3 0 na) (beads_m3 s) in
  let M := beads_M s in
  let pcom := map (fun x => x * (1 / (N2Qc nb * M))) (pcom_of s) in
  fold_left (fun arr i => sub_stride3 i na mm (at0 pcom i) arr) [0; 1; 2]%nat (p s).

(** The fixed-atoms branch, one replica [bp] at a time. *)
Definition fix_idx (k : nat) (fix_ : list nat) : list nat :=
  map (fun a => (a * 3 + k)%nat) fix_.

Definition fix_energy_k (k : nat) (fix_ : list nat) (mass bp : list Qc) : Qc :=
  half * dotQc (gather (fix_idx k fix_) bp)
               (vdiv (gather (fix_idx k fix_) bp) (gather fix_ mass)).

Definition fix_zero (fix_ : list nat) (bp : list Qc) : list Qc :=
  scatter0 (fix_idx 2 fix_) (scatter0 (fix_idx 1 fix_) (scatter0 (fix_idx 0 fix_) bp)).

Definition fix_energy (fix_ : list nat) (mass : list Qc) (e0 : Qc) (arr : array) : Qc :=
  fold_left (fun e bp => e + fix_energy_k 0 fix_ mass bp
                           + fix_energy_k 1 fix_ mass bp
                           + fix_energy_k 2 fix_ mass bp) arr e0.

(** [NVEEnsemble.pconstraints], on the data. *)
Definition com_stage (e : Ensemble) : Ensemble :=
  if fixcom e
  then set_sys (set_p (com_remove (sys e)) (sys e))
               (set_eens (eens e + com_energy (sys e)) e)
  else e.

Definition fix_stage (e : Ensemble) : Ensemble :=
  if decide (0 < length (fixatoms e))%nat
  then set_sys (set_p (map (fix_zero (fixatoms e)) (p (sys e))) (sys e))
               (set_eens (fix_energy (fixatoms e) (m (sys e)) (eens e) (p (sys e))) e)
  else e.

Definition NVE_constrain (e : Ensemble) : Ensemble := fix_stage (com_stage e).

(** [NVEEnsemble.pconstraints], as called from a step. *)
Definition NVEEnsemble_pconstraints (e : Ensemble) : Ensemble :=
  called CPconstraints (NVE_constrain e).


(** ** Collaborators

    The force evaluator, the bias, the normal-mode object, the thermostat and
    the barostat are not part of the ensemble module.  They enter as one
    record of functions.  Forces and potentials are functions of the
    positions and the cell; the thermostat and the barostat act on the shared
    objects and are told what [bind] piped into them. *)

Inductive Target :=
| TargetPext (x : Qc)
| TargetStressext (s : array).

Record ThermoWiring := mkThermoWiring {
  tw_temp : Qc;
  tw_dt : Qc;
  tw_fixdof : nat
}.

Record BaroWiring := mkBaroWiring {
  bw_temp : Qc;
  bw_dt : Qc;
  bw_target : Target;
  bw_bias : bool;
  bw_fixdof : option nat
}.

Record Collaborators := mkCollab {
  forces_f : array → array → array;
  forces_mts : nat → array → array → array;
  forces_nmtslevels : Z;
  forces_pot : array → array → Qc;
  bias_f : array → array → array;
  bias_pot : array → array → Qc;
  beads_vpath : array → Qc;
  nm_omegan2 : Qc;
  nm_kin : Sys → Qc;
  nm_transform : array → array;
  nm_inverse : array → array;
  nm_free_qstep : Qc → Sys → Sys;
  thermostat_step : ThermoWiring → Sys → Sys;
  barostat_thermostat_step : BaroWiring → Sys → Sys;
  barostat_pstep : BaroWiring → Sys → Sys;
  barostat_qcstep : BaroWiring → Sys → Sys
}.

Section Ensembles.

Context (C : Collaborators).

(** *** Ensemble (base) *)

(** [get_ntemp]. *)
Definition get_ntemp (e : Ensemble) : Qc := temp e * N2Qc (beads_nbeads (sys e)).

(** [Ensemble.get_econs]. *)
Definition Ensemble_get_econs (e : Ensemble) : Qc :=
  let s := sys e in
  let eham := beads_vpath C (q s) * nm_omegan2 C + nm_kin C s + forces_pot C (q s) (h s) in
  let eham := eham + bias_pot C (q s) (h s) in
  eham + eens e.

(** [Ensemble.bind]: keeps the objects and applies the momentum constraints
    of the class it is called on to the initial configuration.
    Modelled from the spec: [NormalModes.bind] is not among the sources; the
    normal-mode step size follows the ensemble's [dt]. *)
Definition Ensemble_bind (self_pconstraints : Ensemble → Ensemble)
    (s : Sys) (e : Ensemble) : Ensemble :=
  self_pconstraints (set_nm_dt (dt e) (set_sys s e)).

(** [Ensemble.step]: [pass]. *)
Definition Ensemble_step (e : Ensemble) : Ensemble := e.

(** *** Calls into the collaborators, recorded *)

Definition kick (c : Qc) (f : array → array → array) (e : Ensemble) : Ensemble :=
  let s := sys e in
  set_sys (set_p (axpy c (f (q s) (h s)) (p s)) s) e.

Definition nm_free_qstep_call (e : Ensemble) : Ensemble :=
  called (CFreeQstep (nm_dt e)) (set_sys (nm_free_qstep C (nm_dt e) (sys e)) e).

(** [nm.qnm[0,:] += nm.pnm[0,:]/beads.m3[0] * ...]: [scale] is what follows
    the division. *)
Definition centroid_update (scale : Qc → Qc) (s : Sys) : Sys :=
  let qnm := nm_transform C (q s) in
  let pnm := nm_transform C (p s) in
  let m3_0 := m s ≫= fun x => [x; x; x] in
  let row := zip_with Qcplus (default [] (qnm !! 0%nat))
               (map scale (vdiv (default [] (pnm !! 0%nat)) m3_0)) in
  set_q (nm_inverse C (<[0%nat := row]> qnm)) s.

(** *** NVEEnsemble *)

Definition NVEEnsemble_pstep (e : Ensemble) : Ensemble :=
  let e := called CForceKick (kick (dt e * half) (forces_f C) e) in
  called CBiasKick (kick (dt e * half) (bias_f C) e).

Definition NVEEnsemble_qcstep (e : Ensemble) : Ensemble :=
  called (CQcstep (dt e))
    (set_sys (centroid_update (fun x => x * dt e) (sys e)) e).

Definition NVEEnsemble_step (e : Ensemble) : Ensemble :=
  let e := NVEEnsemble_pstep e in
  let e := NVEEnsemble_pconstraints e in
  let e := NVEEnsemble_qcstep e in
  let e := nm_free_qstep_call e in
  let e := NVEEnsemble_pstep e in
  NVEEnsemble_pconstraints e.

(** *** Thermostat wiring shared by NVT, NPT, NST and MTS *)

Definition thermostat_fixdof (e : Ensemble) : nat :=
  let fixdof := (length (fixatoms e) * 3 * beads_nbeads (sys e))%nat in
  if fixcom e then (fixdof + 3)%nat else fixdof.

Definition thermostat_wiring (e : Ensemble) : ThermoWiring :=
  mkThermoWiring (get_ntemp e) (dt e) (thermostat_fixdof e).

Definition thermostat_step_call (e : Ensemble) : Ensemble :=
  called CThermostatStep (set_sys (thermostat_step C (thermostat_wiring e) (sys e)) e).

(** *** MTSEnsemble *)

Definition MTS_inmts (e : Ensemble) : Z :=
  fold_left Z.mul (mtsintegfactors e) 1%Z.

(** [MTSEnsemble.bind]: the base binding, then [deltat = dt/inmts] piped
    into the normal-mode step size. *)
Definition MTSEnsemble_bind (s : Sys) (e : Ensemble) : Ensemble :=
  let e := Ensemble_bind NVEEnsemble_pconstraints s e in
  set_nm_dt (dt e / Z2Qc (MTS_inmts e)) e.

Definition MTSEnsemble_pstep (level : nat) (alpha : Qc) (e : Ensemble) : Ensemble :=
  called (CMtsKick level alpha) (kick (dt e / alpha) (forces_mts C level) e).

Definition MTSEnsemble_qcstep (alpha : Qc) (e : Ensemble) : Ensemble :=
  called (CQcstep (dt e / alpha))
    (set_sys (centroid_update (fun x => x * dt e / alpha) (sys e)) e).

(** [for i in range(n): body], where [body] may raise. *)
Fixpoint repeat_steps (n : nat) (body : Ensemble → option Ensemble)
    (e : Ensemble) : option Ensemble :=
  match n with
  | O => Some e
  | S n' => match body e with
            | Some e' => repeat_steps n' body e'
            | None => None
            end
  end.

(** [MTSEnsemble.mtsprop(index, alpha)].  [factors] is
    [mtsintegfactors[index:]]: reading [mtsintegfactors[index]] past the end
    raises, which is [None] here. *)
Fixpoint mtsprop_from (factors : list Z) (index : nat) (alpha : Qc)
    (e : Ensemble) : option Ensemble :=
  match factors with
  | [] => None
  | nmts :: rest =>
      let alpha := alpha * Z2Qc nmts in
      repeat_steps (Z.to_nat nmts)
        (fun e =>
           let e := MTSEnsemble_pstep index (two * alpha) e in
           let e := NVEEnsemble_pconstraints e in
           match (if (Z.of_nat index =? forces_nmtslevels C - 1)%Z
                  then Some (nm_free_qstep_call (MTSEnsemble_qcstep alpha e))
                  else mtsprop_from rest (S index) alpha e) with
           | Some e =>
               let e := MTSEnsemble_pstep index (two * alpha) e in
               Some (NVEEnsemble_pconstraints e)
           | None => None
           end) e
  end.

Definition MTSEnsemble_mtsprop (index : nat) (alpha : Qc) (e : Ensemble) : option Ensemble :=
  mtsprop_from (drop index (mtsintegfactors e)) index alpha e.

Definition MTSEnsemble_step (e : Ensemble) : option Ensemble :=
  let e := thermostat_step_call e in
  let e := NVEEnsemble_pconstraints e in
  let e := called CBiasKick (kick (dt e * half) (bias_f C) e) in
  match MTSEnsemble_mtsprop 0 1 e with
  | Some e =>
      let e := called CBiasKick (kick (dt e * half) (bias_f C) e) in
      let e := thermostat_step_call e in
      Some (NVEEnsemble_pconstraints e)
  | None => None
  end.

Definition MTSEnsemble_get_econs (e : Ensemble) : Qc :=
  Ensemble_get_econs e + ethermo (sys e).

(** *** NVTEnsemble *)

Definition NVTEnsemble_step (e : Ensemble) : Ensemble :=
  let e := thermostat_step_call e in
  let e := NVEEnsemble_pconstraints e in
  let e := NVEEnsemble_pstep e in
  let e := NVEEnsemble_pconstraints e in
  let e := NVEEnsemble_qcstep e in
  let e := nm_free_qstep_call e in
  let e := NVEEnsemble_pstep e in
  let e := NVEEnsemble_pconstraints e in
  let e := thermostat_step_call e in
  NVEEnsemble_pconstraints e.

(** [NVEEnsemble.get_econs] is the inherited [Ensemble.get_econs]. *)
Definition NVEEnsemble_get_econs (e : Ensemble) : Qc := Ensemble_get_econs e.

Definition NVTEnsemble_get_econs (e : Ensemble) : Qc :=
  NVEEnsemble_get_econs e + ethermo (sys e).

(** *** NPTEnsemble and NSTEnsemble *)

Definition barostat_fixdof (e : Ensemble) : option nat :=
  if fixcom e then Some 3%nat else None.

(** What [NPTEnsemble.bind] hands to the barostat: no bias, [pext]. *)
Definition NPT_wiring (e : Ensemble) : BaroWiring :=
  mkBaroWiring (get_ntemp e) (dt e) (TargetPext (pext e)) false (barostat_fixdof e).

(** What [NSTEnsemble.bind] hands to the barostat: the bias, [stressext]. *)
Definition NST_wiring (e : Ensemble) : BaroWiring :=
  mkBaroWiring (get_ntemp e) (dt e) (TargetStressext (stressext e)) true (barostat_fixdof e).

Definition barostat_call (c : Call) (op : BaroWiring → Sys → Sys)
    (w : BaroWiring) (e : Ensemble) : Ensemble :=
  called c (set_sys (op w (sys e)) e).

(** The body shared, word for word, by [NPTEnsemble.step] and
    [NSTEnsemble.step]; [w] is the wiring of the bound barostat. *)
Definition barostat_step (w : BaroWiring) (e : Ensemble) : Ensemble :=
  let e := thermostat_step_call e in
  let e := barostat_call CBaroThermostatStep (barostat_thermostat_step C) w e in
  let e := NVEEnsemble_pconstraints e in
  let e := barostat_call CBaroPstep (barostat_pstep C) w e in
  let e := NVEEnsemble_pconstraints e in
  let e := barostat_call CBaroQcstep (barostat_qcstep C) w e in
  let e := nm_free_qstep_call e in
  let e := barostat_call CBaroPstep (barostat_pstep C) w e in
  let e := NVEEnsemble_pconstraints e in
  let e := barostat_call CBaroThermostatStep (barostat_thermostat_step C) w e in
  let e := thermostat_step_call e in
  NVEEnsemble_pconstraints e.

Definition NPTEnsemble_step (e : Ensemble) : Ensemble := barostat_step (NPT_wiring e) e.
Definition NSTEnsemble_step (e : Ensemble) : Ensemble := barostat_step (NST_wiring e) e.

Definition NPTEnsemble_get_econs (e : Ensemble) : Qc :=
  NVTEnsemble_get_econs e + ebaro (sys e).

Definition NSTEnsemble_get_econs (e : Ensemble) : Qc :=
  NVTEnsemble_get_econs e + ebaro (sys e).

End Ensembles.

(** ** ReplayEnsemble

    [ReplayEnsemble] derives from [Ensemble] directly: its [pconstraints] and
    its [bind] are the inherited ones. *)

Definition ReplayEnsemble_pconstraints (e : Ensemble) : Ensemble :=
  Ensemble_pconstraints e.

Definition ReplayEnsemble_bind (s : Sys) (e : Ensemble) : Ensemble :=
  Ensemble_bind ReplayEnsemble_pconstraints s e.

Inductive TrajMode := ModeXyz | ModePdb | ModeChk | ModeOther.

(** One frame of the trajectory file: the positions of one replica and, for
    the formats that carry it, the cell. *)
Record Frame := mkFrame {
  frame_q : list Qc;
  frame_h : array
}.

(** [rfile] is what is left to read of the file; [units] is
    [unit_to_internal("length", intraj.units, 1.0)]. *)
Record Replay := mkReplay {
  base : Ensemble;
  mode : TrajMode;
  units : Qc;
  rfile : list Frame;
  rstep : Z
}.

Inductive ExitReason := ReadSingleCheckpoint | FinishedTrajectory.

(** How a call of [step] ends: it returns, it triggers the soft exit, or an
    exception other than end-of-file leaves it. *)
Inductive StepEnd :=
| Returned (r : Replay)
| SoftExit (why : ExitReason) (r : Replay)
| Raised (r : Replay).

Inductive ReadStatus := ReadOk | ReadEOF | ReadError.

(** [for b in self.beads: myatoms = read(rfile); myatoms.q *= units;
    b.q[:] = myatoms.q].
    Modelled from the spec: the readers [read_xyz] and [read_pdb] are not
    among the sources; the trajectory source is a sequential frame reader
    that raises end-of-stream.  Assigning positions of another length
    raises.  The last component is the cell of the last frame read. *)
Fixpoint read_beads (fac : Qc) (file : list Frame) (rows : array) (cell : option array)
    {struct rows} : array * list Frame * option array * ReadStatus :=
  match rows with
  | [] => ([], file, cell, ReadOk)
  | b :: rest =>
      match file with
      | [] => (b :: rest, [], cell, ReadEOF)
      | fr :: file' =>
          let myq := map (fun x => x * fac) (frame_q fr) in
          let myh := map (map (fun x => x * fac)) (frame_h fr) in
          if decide (length myq = length b)
          then match read_beads fac file' rest (Some myh) with
               | (rest', file'', cell', st) => (myq :: rest', file'', cell', st)
               end
          else (b :: rest, file', Some myh, ReadError)
      end
  end.

Definition replay_set (q_ : array) (f : list Frame) (r : Replay) : Replay :=
  mkReplay (set_sys (set_q q_ (sys (base r))) (base r)) (mode r) (units r) f (rstep r).

Definition replay_set_h (h_ : array) (r : Replay) : Replay :=
  mkReplay (set_sys (set_h h_ (sys (base r))) (base r)) (mode r) (units r) (rfile r) (rstep r).

(** The body of the [try] of [ReplayEnsemble.step], with its [except]. *)
Definition replay_read (r : Replay) : StepEnd :=
  match mode r with
  | ModeXyz =>
      match read_beads (units r) (rfile r) (q (sys (base r))) None with
      | (q', f', _, ReadOk) => Returned (replay_set q' f' r)
      | (q', f', _, ReadEOF) => SoftExit FinishedTrajectory (replay_set q' f' r)
      | (q', f', _, ReadError) => Raised (replay_set q' f' r)
      end
  | ModePdb =>
      match read_beads (units r) (rfile r) (q (sys (base r))) None with
      | (q', f', Some h', ReadOk) => Returned (replay_set_h h' (replay_set q' f' r))
      | (q', f', None, ReadOk) => Raised (replay_set q' f' r)
      | (q', f', _, ReadEOF) => SoftExit FinishedTrajectory (replay_set q' f' r)
      | (q', f', _, ReadError) => Raised (replay_set q' f' r)
      end
  | ModeChk =>
      match read_beads 1 (rfile r) (q (sys (base r))) None with
      | (q', f', Some h', ReadOk) =>
          SoftExit ReadSingleCheckpoint (replay_set_h h' (replay_set q' f' r))
      | (q', f', _, _) => Raised r
      end
  | ModeOther => Returned r
  end.

Definition bump_rstep (r : Replay) : Replay :=
  mkReplay (base r) (mode r) (units r) (rfile r) (rstep r + 1).

(** The [while True] loop: [fuel] bounds the iterations, of which there are
    at most [step - rstep + 1]. *)
Fixpoint replay_loop (fuel : nat) (step : option Z) (r : Replay) : StepEnd :=
  match replay_read (bump_rstep r) with
  | Returned r' =>
      match step with
      | None => Returned r'
      | Some n =>
          if (rstep r' >? n)%Z then Returned r'
          else match fuel with
               | O => Returned r'
               | S fuel' => replay_loop fuel' step r'
               end
      end
  | other => other
  end.

(** [ReplayEnsemble.step(step)]. *)
Definition ReplayEnsemble_step (step : option Z) (r : Replay) : StepEnd :=
  replay_loop (match step with
               | None => 0
               | Some n => Z.to_nat (n - rstep r)
               end) step r.

(** [n] calls of [step()] by the driver, which stops at the first call that
    does not return. *)
Fixpoint replay_run (n : nat) (r : Replay) : StepEnd :=
  match n with
  | O => Returned r
  | S n' =>
      match ReplayEnsemble_step None r with
      | Returned r' => replay_run n' r'
      | other => other
      end
  end.

(** ** Simulation: the driver loop

    The driver does not look inside the systems; [St] is the state of all of
    them and [advance] is one completed step of every system. *)

Section Driver.

Context {St : Type} (advance : St → St).

(** Modelled from the spec: [CheckpointOutput] is not among the sources.
    [store] snapshots the simulation (state and step counter) and
    [write(store=False)] writes the last snapshot to the restart file. *)
Record Checkpoint := mkChk {
  chk_state : St;
  chk_step : Z
}.

Record Simulation := mkSim {
  sim_state : St;
  sim_step : Z;
  sim_tsteps : Z;
  sim_rollback : bool;
  sim_chk : Checkpoint;
  sim_restart : option Checkpoint
}.

Definition set_state (s : St) (x : Simulation) : Simulation :=
  mkSim s (sim_step x) (sim_tsteps x) (sim_rollback x) (sim_chk x) (sim_restart x).
Definition set_step (n : Z) (x : Simulation) : Simulation :=
  mkSim (sim_state x) n (sim_tsteps x) (sim_rollback x) (sim_chk x) (sim_restart x).
Definition set_rollback (b : bool) (x : Simulation) : Simulation :=
  mkSim (sim_state x) (sim_step x) (sim_tsteps x) b (sim_chk x) (sim_restart x).

Definition chk_store (x : Simulation) : Simulation :=
  mkSim (sim_state x) (sim_step x) (sim_tsteps x) (sim_rollback x)
        (mkChk (sim_state x) (sim_step x)) (sim_restart x).
Definition chk_write (x : Simulation) : Simulation :=
  mkSim (sim_state x) (sim_step x) (sim_tsteps x) (sim_rollback x)
        (sim_chk x) (Some (sim_chk x)).

(** [Simulation.softexit]. *)
Definition Simulation_softexit (x : Simulation) : Simulation :=
  let x := if (sim_step x <? sim_tsteps x)%Z then set_step (sim_step x + 1) x else x in
  let x := if negb (sim_rollback x) then chk_store x else x in
  chk_write x.

(** What happens in one pass of the loop, as far as the driver can tell: all
    systems complete their step (and then the [EXIT] file may exist, the
    wall-clock budget may be spent), or the soft exit is triggered from
    inside a step, or an exception leaves a step; in the last two cases the
    systems are left in some state [partial]. *)
Inductive Pass :=
| PassDone (exit_file wall_clock : bool)
| PassSoftExit (partial : St)
| PassRaise (partial : St).

Inductive RunEnd :=
| Halted (x : Simulation)
| Crashed (x : Simulation).

(** [range(a, b)]. *)
Definition zrange (a b : Z) : list Z :=
  map (fun i => (a + Z.of_nat i)%Z) (seq 0 (Z.to_nat (b - a))).

(** The main loop of [Simulation.run]; [i] counts the passes. *)
Fixpoint run_loop (world : nat → Pass) (i : nat) (todo : list Z) (x : Simulation) : RunEnd :=
  match todo with
  | [] => Halted (Simulation_softexit (set_rollback false x))
  | n :: rest =>
      let x := chk_store (set_step n x) in
      match world i with
      | PassRaise partial => Crashed (set_state partial x)
      | PassSoftExit partial => Halted (Simulation_softexit (set_state partial x))
      | PassDone exit_file wall_clock =>
          let x := set_state (advance (sim_state x)) x in
          if exit_file then Halted (Simulation_softexit (set_rollback false x))
          else if wall_clock then Halted (Simulation_softexit (set_rollback false x))
          else run_loop world (S i) rest x
      end
  end.

Definition Simulation_run (world : nat → Pass) (x : Simulation) : RunEnd :=
  run_loop world 0 (zrange (sim_step x) (sim_tsteps x)) x.

(** A checkpoint at a step boundary: the state after [k] completed steps,
    with the step counter that goes with it. *)
Definition at_boundary (s0 : St) (step0 : Z) (c : Checkpoint) : Prop :=
  ∃ k : nat, chk_state c = Nat.iter k advance s0 ∧ chk_step c = (step0 + Z.of_nat k)%Z.

End Driver.
(** ** Quantities the properties speak of *)

(** The three strided updates of the centre-of-mass branch, on one row. *)
Definition com_row (na : nat) (mr : list Qc) (c0 c1 c2 : Qc) (row : list Qc) : list Qc :=
  sub_stride3_row 2 na mr c2 (sub_stride3_row 1 na mr c1 (sub_stride3_row 0 na mr c0 row)).

(** Total momentum along dimension [k], over all replicas and atoms. *)
Definition total_momentum (k : nat) (s : Sys) : Qc :=
  sum_stride3 k (beads_natoms s) (p s).

(** [|p_com|^2 / (2 M_total nbeads)]. *)
Definition com_kinetic (s : Sys) : Qc :=
  (total_momentum 0 s * total_momentum 0 s
   + total_momentum 1 s * total_momentum 1 s
   + total_momentum 2 s * total_momentum 2 s)
  / (two * beads_M s * N2Qc (beads_nbeads s)).

(** [p^2/(2m)] of component [k] of atom [a] in replica [bp]. *)
Definition component_kinetic (mass bp : list Qc) (a k : nat) : Qc :=
  at0 bp (a * 3 + k) * at0 bp (a * 3 + k) / (two * at0 mass a).

(** The kinetic energy of all components of the atoms [fix_] in all replicas. *)
Definition fixed_kinetic (fix_ : list nat) (mass : list Qc) (arr : array) : Qc :=
  sumQc (map (fun bp =>
           sumQc (map (fun a => component_kinetic mass bp a 0
                               + component_kinetic mass bp a 1
                               + component_kinetic mass bp a 2) fix_)) arr).

(** *** The order of calls

    [mtsprop_calls] is the schedule of calls that [mtsprop] makes, as a list. *)

Fixpoint mtsprop_calls (nlevels : Z) (dt_ nmdt : Qc) (factors : list Z)
    (index : nat) (alpha : Qc) : option (list Call) :=
  match factors with
  | [] => None
  | nmts :: rest =>
      let alpha := alpha * Z2Qc nmts in
      match Z.to_nat nmts with
      | O => Some []
      | S _ =>
          match (if (Z.of_nat index =? nlevels - 1)%Z
                 then Some [CQcstep (dt_ / alpha); CFreeQstep nmdt]
                 else mtsprop_calls nlevels dt_ nmdt rest (S index) alpha) with
          | Some inner =>
              Some (concat (replicate (Z.to_nat nmts)
                      ([CMtsKick index (two * alpha); CPconstraints] ++ inner
                       ++ [CMtsKick index (two * alpha); CPconstraints])))
          | None => None
          end
      end
  end.

(** The schedule of one [MTSEnsemble.step]. *)
Definition mts_step_calls (nlevels : Z) (dt_ nmdt : Qc) (factors : list Z)
    : option (list Call) :=
  match mtsprop_calls nlevels dt_ nmdt factors 0 1 with
  | Some mid =>
      Some ([CThermostatStep; CPconstraints; CBiasKick] ++ mid
            ++ [CBiasKick; CThermostatStep; CPconstraints])
  | None => None
  end.

(** The step sizes of the centroid position updates among the calls. *)
Definition qc_steps (l : list Call) : list Qc :=
  omap (fun c => match c with CQcstep tau => Some tau | _ => None end) l.







(** The part of an ensemble that no step changes. *)
Definition cfg (e : Ensemble) :=
  (dt e, temp e, fixcom e, fixatoms e, mtsintegfactors e, pext e, stressext e, nm_dt e).

(** [e'] is [e] after some calls [tr]: same configuration, [tr] appended. *)
Definition extends (e e' : Ensemble) (tr : list Call) : Prop :=
  cfg e' = cfg e ∧ calls e' = calls e ++ tr.

(** The calls made between [e] and [e']. *)
Definition calls_since (e e' : Ensemble) : list Call :=
  drop (length (calls e)) (calls e').

(** Collaborators that do nothing, for one replica of two atoms: zero forces
    on [nlevels] levels, identity transforms, a thermostat and a barostat
    whose steps change nothing. *)
Definition zero_force (q_ h_ : array) : array := [[0; 0; 0; 0; 0; 0]].

Definition idle (nlevels : Z) : Collaborators :=
  mkCollab zero_force (fun _ => zero_force) nlevels (fun _ _ => 0)
           zero_force (fun _ _ => 0) (fun _ => 0) 0 (fun _ => 0)
           (fun a => a) (fun a => a) (fun _ s => s)
           (fun _ s => s) (fun _ s => s) (fun _ s => s) (fun _ s => s).

(** The positions a frame set holds, in internal units. *)
Definition frame_positions (fac : Qc) (set : list Frame) : array :=
  map (fun fr => map (fun x => x * fac) (frame_q fr)) set.

(** *** The steps on the shared objects alone

    What the calls do to [sys], with the ledger and the record of calls left
    out. *)

Definition kick_sys (c : Qc) (f : array → array → array) (s : Sys) : Sys :=
  set_p (axpy c (f (q s) (h s)) (p s)) s.

Definition constrained (fc : bool) (fa : list nat) (s : Sys) : Sys :=
  let s1 := if fc then set_p (com_remove s) s else s in
  if decide (0 < length fa)%nat then set_p (map (fix_zero fa) (p s1)) s1 else s1.

(** Centroid step of size [tau], then the free ring-polymer propagation. *)
Definition qf_sys (C : Collaborators) (tau nmdt : Qc) (s : Sys) : Sys :=
  nm_free_qstep C nmdt (centroid_update C (fun x => x * tau) s).

(** Sum of two force arrays, and of two force fields. *)
Definition aadd (f g : array) : array := zip_with (zip_with Qcplus) f g.
Definition fadd (f g : array → array → array) : array → array → array :=
  fun q_ h_ => aadd (f q_ h_) (g q_ h_).

(** The force of levels [l], [l+1], ..., [l+n] together. *)
Fixpoint levels_total (C : Collaborators) (l n : nat) : array → array → array :=
  match n with
  | O => forces_mts C l
  | S n' => fadd (forces_mts C l) (levels_total C (S l) n')
  end.

(** [mtsprop] from level [l] down to level [l+n], every factor being 1. *)
Fixpoint mts_sys (C : Collaborators) (P : Sys → Sys) (c tau nmdt : Qc) (l n : nat)
    (s : Sys) : Sys :=
  let s := P (kick_sys c (forces_mts C l) s) in
  let s := match n with
           | O => qf_sys C tau nmdt s
           | S n' => mts_sys C P c tau nmdt (S l) n' s
           end in
  P (kick_sys c (forces_mts C l) s).

(** *** What the centre-of-mass constraint asks of the collaborators

    Arrays of [nb] rows of [3*na] numbers; a state whose momenta have that
    shape over the masses [m0]; and collaborators that keep to it. *)

Definition shaped (nb na : nat) (a : array) : Prop :=
  length a = nb ∧ Forall (fun r => length r = (3 * na)%nat) a.

Definition good_sys (nb : nat) (m0 : list Qc) (s : Sys) : Prop :=
  shaped nb (length m0) (p s) ∧ m s = m0.

Definition shaped_field (nb na : nat) (f : array → array → array) : Prop :=
  ∀ q_ h_, shaped nb na (f q_ h_).

Definition com_contract (C : Collaborators) (nb : nat) (m0 : list Qc) : Prop :=
  (0 < nb)%nat ∧ sumQc m0 ≠ 0 ∧
  (∀ l, shaped_field nb (length m0) (forces_mts C l)) ∧
  shaped_field nb (length m0) (bias_f C) ∧
  (∀ tau s, good_sys nb m0 s → good_sys nb m0 (nm_free_qstep C tau s)).

(** ** Small concrete configurations *)

(** Two atoms of unit mass, one replica, momenta 1 and 3 along x. *)
Definition sys_two_atoms : Sys :=
  mkSys [[0; 0; 0; 1; 0; 0]] [[1; 0; 0; Z2Qc 3; 0; 0]] [1; 1] [] 0 0 [].

Definition ens_two_atoms (fc : bool) (fa : list nat) : Ensemble :=
  mkEns 1 1 fc fa 0 [1%Z] 0 [] 1 sys_two_atoms [].

(** Collaborators as in [idle 1], but with a thermostat whose step halves
    every momentum. *)
Definition halving : Collaborators :=
  mkCollab zero_force (fun _ => zero_force) 1 (fun _ _ => 0)
           zero_force (fun _ _ => 0) (fun _ => 0) 0 (fun _ => 0)
           (fun a => a) (fun a => a) (fun _ s => s)
           (fun _ s => set_p (map (map (fun x => x * half)) (p s)) s)
           (fun _ s => s) (fun _ s => s) (fun _ s => s).

(** A trajectory of two frame sets for one replica of two atoms. *)
Definition frame_a : Frame := mkFrame [1; 1; 1; two; two; two] [].
Definition frame_b : Frame := mkFrame [two; two; two; 1; 1; 1] [].

Definition replay_two_frames : Replay :=
  mkReplay (ens_two_atoms true [0%nat]) ModeXyz two [frame_a; frame_b] 0.

(** A run of at most ten steps in which the soft exit is triggered from
    inside the third step; the state is a counter of completed steps and 99
    marks a half-applied step. *)
Definition world_soft_exit_in_third (i : nat) : @Pass nat :=
  if (i =? 2)%nat then PassSoftExit 99%nat else PassDone false false.

Definition world_exit_file_after_third (i : nat) : @Pass nat :=
  if (i =? 2)%nat then PassDone true false else PassDone false false.

Definition sim_fresh : @Simulation nat :=
  mkSim 0%nat 0%Z 10%Z true (mkChk 0%nat 0%Z) None.

(** Collaborators that show what the thermostat is handed: a bias force of 1
    on the first component of atom 0, no other force, and a thermostat whose
    step only notes that component of the momentum in [priv]. *)
Definition probing : Collaborators :=
  mkCollab zero_force (fun _ => zero_force) 1 (fun _ _ => 0)
           (fun _ _ => [[1; 0; 0; 0; 0; 0]]) (fun _ _ => 0) (fun _ => 0) 0 (fun _ => 0)
           (fun a => a) (fun a => a) (fun _ s => s)
           (fun _ s => mkSys (q s) (p s) (m s) (h s) (ethermo s) (ebaro s)
                         (priv s ++ [at0 (default [] (p s !! 0%nat)) 0]))
           (fun _ s => s) (fun _ s => s) (fun _ s => s).

(** Two atoms at rest, atom 0 fixed. *)
Definition ens_fixed_at_rest : Ensemble :=
  mkEns 1 1 false [0%nat] 0 [1%Z] 0 [] 1
        (mkSys [[0; 0; 0; 1; 0; 0]] [[0; 0; 0; 0; 0; 0]] [1; 1] [] 0 0 []) [].

(** ** One momentum component in float64

    The first half-step on one component, without constraints or thermostat.
    [NVEEnsemble.pstep] adds the force kick and then the bias kick, both with
    [dt*0.5].  [MTSEnsemble.step] with one level of factor 1 adds the bias
    kick with [dt*0.5] and then, in [pstep(0, 2.0*alpha)] with
    [alpha = 1.0*1], the force kick with [dt/alpha]. *)

Module Float64.
Import PrimFloat.
Local Open Scope float_scope.

Definition nve_half_kick (p_ f_ b_ dt_ : float) : float :=
  (p_ + f_ * (dt_ * 0.5)) + b_ * (dt_ * 0.5).

Definition mts_half_kick (p_ f_ b_ dt_ : float) : float :=
  (p_ + b_ * (dt_ * 0.5)) + f_ * (dt_ / (2.0 * (1.0 * 1.0))).

(** Momentum 1, force 2^-52, bias 2^-51, time step 1. *)
Definition p_one : float := 1.0.
Definition f_small : float := 0x1p-52.
Definition b_small : float := 0x1p-51.
Definition dt_one : float := 1.0.

End Float64.
(** ** Kinetic energy of the replica set

    The sum of [p^2/(2m)] over all replicas, atoms and components: the part
    of the conserved quantity that [pconstraints] takes from, and that the
    ledger [eens] is there to account for. *)
Definition kinetic (s : Sys) : Qc :=
  fixed_kinetic (seq 0 (beads_natoms s)) (m s) (p s).

(** ** What one multiple-time-step step adds up to *)

(** The step sizes of the free ring-polymer propagations among the calls. *)
Definition free_steps (l : list Call) : list Qc :=
  omap (fun c => match c with CFreeQstep tau => Some tau | _ => None end) l.

(** The time over which the force of [level] is applied by each of its kicks
    among the calls: [pstep(level, alpha)] adds [f * (dt/alpha)]. *)
Definition kick_times (dt_ : Qc) (level : nat) (l : list Call) : list Qc :=
  omap (fun c => match c with
                 | CMtsKick l' a => if decide (l' = level) then Some (dt_ / a) else None
                 | _ => None
                 end) l.

(** The product of a list of factors, accumulated as [MTSEnsemble.bind]
    accumulates [inmts]. *)
Definition factor_product (l : list Z) : Z := fold_left Z.mul l 1%Z.

(** ** A replay system under the driver

    A simulation whose only system replays a trajectory, run without an
    [EXIT] file and without a wall-clock limit: one pass of the main loop
    is one call of [ReplayEnsemble.step()], and what the driver sees of the
    pass is how that call ends. *)
Definition replay_advance (r : Replay) : Replay :=
  match ReplayEnsemble_step None r with
  | Returned r' | SoftExit _ r' | Raised r' => r'
  end.

Definition replay_world (r0 : Replay) (i : nat) : @Pass Replay :=
  match ReplayEnsemble_step None (Nat.iter i replay_advance r0) with
  | Returned _ => PassDone false false
  | SoftExit _ r' => PassSoftExit r'
  | Raised r' => PassRaise r'
  end.

(** [arr[b, j]], for indices that the shape invariants keep in range. *)
Definition entry (arr : array) (b j : nat) : Qc := at0 (default [] (arr !! b)) j.

(** The state with every momentum reversed. *)
Definition flip_momenta (s : Sys) : Sys := set_p (map (map Qcopp) (p s)) s.

(** The ensemble with another time step. *)
Definition set_dt (x : Qc) (e : Ensemble) : Ensemble :=
  mkEns x (temp e) (fixcom e) (fixatoms e) (eens e)
        (mtsintegfactors e) (pext e) (stressext e) (nm_dt e) (sys e) (calls e).

(** One velocity-Verlet step on the shared objects: kick, constrain, move,
    kick, constrain. *)
Definition vv_sys (C : Collaborators) (P : Sys → Sys) (c tau nmdt : Qc)
    (f : array → array → array) (s : Sys) : Sys :=
  P (kick_sys c f (qf_sys C tau nmdt (P (kick_sys c f s)))).

(** Collaborators as in [idle 1], but with the kinetic energy of the replica
    set as the normal-mode kinetic energy. *)
Definition classical : Collaborators :=
  mkCollab zero_force (fun _ => zero_force) 1 (fun _ _ => 0)
           zero_force (fun _ _ => 0) (fun _ => 0) 0 kinetic
           (fun a => a) (fun a => a) (fun _ s => s)
           (fun _ s => s) (fun _ s => s) (fun _ s => s) (fun _ s => s).

(** *** What each recorded call does

    The effect on the shared objects of one call of the record, for an
    ensemble configured as [e0]: the kicks add [force * step] to the momenta,
    [CQcstep tau] is the centroid update
    [qnm[0,:] += pnm[0,:]/m3[0] * tau], [CFreeQstep tau] the free
    propagation over [tau].  The barostat calls depend on the barostat bound
    by the subclass; they are not made by the NVE, NVT and MTS steps and are
    left out here. *)
Definition call_effect (C : Collaborators) (e0 : Ensemble) (c : Call) (s : Sys) : Sys :=
  match c with
  | CThermostatStep => thermostat_step C (thermostat_wiring (set_sys s e0)) s
  | CPconstraints => constrained (fixcom e0) (fixatoms e0) s
  | CForceKick => kick_sys (dt e0 * half) (forces_f C) s
  | CBiasKick => kick_sys (dt e0 * half) (bias_f C) s
  | CMtsKick level alpha => kick_sys (dt e0 / alpha) (forces_mts C level) s
  | CQcstep tau => centroid_update C (fun x => x * tau) s
  | CFreeQstep tau => nm_free_qstep C tau s
  | CBaroThermostatStep | CBaroPstep | CBaroQcstep => s
  end.

(** The calls of a record, one after the other. *)
Definition run_calls (C : Collaborators) (e0 : Ensemble) (tr : list Call) (s : Sys) : Sys :=
  fold_left (fun s c => call_effect C e0 c s) tr s.

(** [e] is [e0] after the calls [tr], and its shared objects are what these
    calls leave. *)
Definition follows (C : Collaborators) (e0 e : Ensemble) (tr : list Call) : Prop :=
  extends e0 e tr ∧ sys e = run_calls C e0 tr (sys e0).

(** [s'] is [s] with the centroid advanced over a time [tau]: the momenta
    are the same and every component [j] of the centroid coordinates
    [qnm[0]] has grown by [pnm[0][j]/m3[0][j] * tau]. *)
Definition centroid_advanced (C : Collaborators) (tau : Qc) (s s' : Sys) : Prop :=
  p s' = p s ∧
  ∀ j, (j < 3 * beads_natoms s)%nat →
       (j < length (default [] (nm_transform C (q s) !! 0%nat)))%nat →
       (j < length (default [] (nm_transform C (p s) !! 0%nat)))%nat →
    entry (nm_transform C (q s')) 0 j
    = entry (nm_transform C (q s)) 0 j
      + entry (nm_transform C (p s)) 0 j / at0 (m s) (j / 3) * tau.

(** [s'] is [s] with the momenta kicked by the force [f] over a time [c]:
    the positions are the same and every momentum component has grown by
    the force on it times [c]. *)
Definition momenta_kicked (f : array) (c : Qc) (s s' : Sys) : Prop :=
  q s' = q s ∧
  ∀ b j, (j < length (default [] (p s !! b)))%nat →
         (j < length (default [] (f !! b)))%nat →
    entry (p s') b j = entry (p s) b j + entry f b j * c.

(** Collaborators as in [idle 2], but with a force of 1 on every component at
    level 0 and of 2 at level 1. *)
Definition pushing : Collaborators :=
  mkCollab zero_force
           (fun l _ _ => if decide (l = 0%nat) then [[1; 1; 1; 1; 1; 1]]
                         else [[two; two; two; two; two; two]])
           2 (fun _ _ => 0)
           zero_force (fun _ _ => 0) (fun _ => 0) 0 (fun _ => 0)
           (fun a => a) (fun a => a) (fun _ s => s)
           (fun _ s => s) (fun _ s => s) (fun _ s => s) (fun _ s => s).

(** A run of at most ten steps in which an exception leaves the third step. *)
Definition world_raise_in_third (i : nat) : @Pass nat :=
  if (i =? 2)%nat then PassRaise 99%nat else PassDone false false.

(** *** The centre-of-mass branch in float64

    The centre-of-mass branch of [NVEEnsemble.pconstraints] on one Cartesian
    component of one replica ([nb = 1]) of two atoms of masses [m0], [m1]:
    [pcom = p0 + p1], [pcom *= 1.0/(nb*M)], [p -= m*pcom]. *)

Module Float64Com.
Import PrimFloat.
Local Open Scope float_scope.

Definition com_pass (m0 m1 : float) (pp : float * float) : float * float :=
  let pcom := fst pp + snd pp in
  let pcom := pcom * (1.0 / (1.0 * (m0 + m1))) in
  (fst pp - m0 * pcom, snd pp - m1 * pcom).

Definition total (pp : float * float) : float := fst pp + snd pp.

(** Masses 1 and 2, momenta 1 and 0. *)
Definition m_light : float := 1.0.
Definition m_heavy : float := 2.0.
Definition p_start : float * float := (1.0, 0.0).
Definition ulp_half : float := 0x1p-53.

End Float64Com.

(** * Properties *)

(** ** Arithmetic and list helpers *)

Lemma N2Qc_pos_neq0 (n : nat) : (0 < n)%nat → N2Qc n ≠ 0.
Proof.
  intros Hn E. unfold N2Qc, Z2Qc in E.
  change 0 with (Q2Qc (inject_Z 0)) in E.
  apply Q2Qc_eq_iff in E. unfold Qeq in E. simpl in E. lia.
Qed.

Lemma two_neq0 : two ≠ 0.
Proof. intros E. apply (f_equal this) in E. discriminate E. Qed.

Lemma sumQc_app (a b : list Qc) : sumQc (a ++ b) = sumQc a + sumQc b.
Proof. induction a as [|x a IH]; simpl; [ring | rewrite IH; ring]. Qed.

Lemma sumQc_map_sub {A} (f g : A → Qc) (c : Qc) (l : list A) :
  sumQc (map (fun a => f a - g a * c) l) = sumQc (map f l) - c * sumQc (map g l).
Proof. induction l as [|x l IH]; simpl; [ring | rewrite IH; ring]. Qed.

Lemma sumQc_map_ext {A} (f g : A → Qc) (l : list A) :
  (∀ a, a ∈ l → f a = g a) → sumQc (map f l) = sumQc (map g l).
Proof.
  induction l as [|x l IH]; simpl; intros H; [done|].
  rewrite H by constructor. rewrite IH; [done|]. intros a Ha. apply H. by constructor.
Qed.

Lemma N2Qc_0 : N2Qc 0 = 0.
Proof. apply Qc_is_canon. reflexivity. Qed.

Lemma N2Qc_S (n : nat) : N2Qc (S n) = 1 + N2Qc n.
Proof.
  unfold N2Qc, Z2Qc. apply Qc_is_canon. simpl this.
  rewrite !Qred_correct. rewrite Nat2Z.inj_succ. unfold Z.succ.
  rewrite inject_Z_plus. simpl. ring.
Qed.

Lemma sumQc_map_const {A} (c : Qc) (l : list A) :
  sumQc (map (fun _ => c) l) = N2Qc (length l) * c.
Proof.
  induction l as [|x l IH]; simpl.
  - rewrite N2Qc_0. ring.
  - rewrite IH, N2Qc_S. ring.
Qed.

Lemma at0_imap (f : nat → Qc → Qc) (row : list Qc) (j : nat) :
  at0 (imap f row) j = match row !! j with Some x => f j x | None => 0 end.
Proof. unfold at0. rewrite list_lookup_imap. by destruct (row !! j). Qed.

Lemma at0_lookup (l : list Qc) (j : nat) (x : Qc) : l !! j = Some x → at0 l j = x.
Proof. unfold at0. by intros ->. Qed.

Lemma at0_map_seq (l : list Qc) : map (at0 l) (seq 0 (length l)) = l.
Proof.
  apply list_eq. intros i. rewrite list_lookup_fmap.
  destruct (decide (i < length l)%nat) as [Hi|Hi].
  - rewrite lookup_seq_lt by done. simpl.
    destruct (lookup_lt_is_Some_2 l i Hi) as [x Hx]. by rewrite (at0_lookup _ _ _ Hx), Hx.
  - rewrite lookup_seq_ge by lia. simpl. symmetry. apply lookup_ge_None. lia.
Qed.

Lemma at0_stride3 (i na : nat) (row : list Qc) (a : nat) :
  (a < na)%nat → at0 (stride3 i na row) a = at0 row (3 * a + i).
Proof.
  intros Ha. unfold stride3. apply at0_lookup.
  rewrite list_lookup_fmap, lookup_seq_lt by done. done.
Qed.

Lemma at0_triple (l : list Qc) (a k : nat) :
  (k < 3)%nat → at0 (l ≫= fun x => [x; x; x]) (3 * a + k) = at0 l a.
Proof.
  intros Hk. revert a. induction l as [|x l IH]; intros a; [done|].
  destruct a as [|a].
  - destruct k as [|[|[|k]]]; try lia; reflexivity.
  - replace (3 * S a + k)%nat with (S (S (S (3 * a + k)))) by lia.
    change (at0 ((x :: l) ≫= _) (S (S (S (3 * a + k)))))
      with (at0 (l ≫= fun x => [x; x; x]) (3 * a + k)).
    by rewrite IH.
Qed.

(** The slice [m3[b, 0:na3:3]] is the mass vector. *)
Lemma stride3_m3 (l : list Qc) :
  stride3 0 (length l) (l ≫= fun x => [x; x; x]) = l.
Proof.
  unfold stride3. transitivity (map (at0 l) (seq 0 (length l))); [|apply at0_map_seq].
  apply map_ext_in. intros a _. apply at0_triple. lia.
Qed.

Lemma sub_stride3_row_length i na mrow c row :
  length (sub_stride3_row i na mrow c row) = length row.
Proof. unfold sub_stride3_row. by rewrite length_imap. Qed.

Lemma at0_sub_stride3_row i na mrow c row a k :
  length row = (3 * na)%nat → (a < na)%nat → (k < 3)%nat →
  at0 (sub_stride3_row i na mrow c row) (3 * a + k) =
  if decide (k = i) then at0 row (3 * a + k) - at0 mrow a * c else at0 row (3 * a + k).
Proof.
  intros Hlen Ha Hk. unfold sub_stride3_row. rewrite at0_imap.
  destruct (lookup_lt_is_Some_2 row (3 * a + k)) as [x Hx]; [lia|].
  rewrite Hx, (at0_lookup _ _ _ Hx).
  assert (E1 : ((3 * a + k) mod 3 = k)%nat).
  { rewrite Nat.add_comm, Nat.mul_comm, Nat.Div0.mod_add. by apply Nat.mod_small. }
  assert (E2 : ((3 * a + k) / 3 = a)%nat).
  { rewrite Nat.add_comm, Nat.mul_comm, Nat.div_add by lia.
    rewrite Nat.div_small by lia. done. }
  rewrite E1, E2. repeat case_decide; try done; exfalso; intuition lia.
Qed.

Lemma sum_stride3_row_sub i k na mrow c row :
  length row = (3 * na)%nat → (k < 3)%nat →
  sumQc (stride3 k na (sub_stride3_row i na mrow c row)) =
  if decide (k = i)
  then sumQc (stride3 k na row) - c * sumQc (map (at0 mrow) (seq 0 na))
  else sumQc (stride3 k na row).
Proof.
  intros Hlen Hk. unfold stride3. case_decide as Hki.
  - rewrite <- sumQc_map_sub. apply sumQc_map_ext. intros a Ha.
    apply elem_of_seq in Ha. rewrite at0_sub_stride3_row by lia.
    by rewrite decide_True.
  - apply sumQc_map_ext. intros a Ha.
    apply elem_of_seq in Ha. rewrite at0_sub_stride3_row by lia.
    by rewrite decide_False.
Qed.

Lemma com_remove_rows (s : Sys) :
  com_remove s =
  map (com_row (beads_natoms s) (m s)
         (sum_stride3 0 (beads_natoms s) (p s) * (1 / (N2Qc (beads_nbeads s) * beads_M s)))
         (sum_stride3 1 (beads_natoms s) (p s) * (1 / (N2Qc (beads_nbeads s) * beads_M s)))
         (sum_stride3 2 (beads_natoms s) (p s) * (1 / (N2Qc (beads_nbeads s) * beads_M s))))
      (p s).
Proof.
  unfold com_remove, beads_m3, pcom_of, sub_stride3. simpl.
  rewrite fmap_replicate.
  assert (Em : stride3 0 (beads_natoms s) (m s ≫= fun x => [x; x; x]) = m s)
    by apply stride3_m3.
  rewrite Em. generalize (1 / (N2Qc (beads_nbeads s) * beads_M s)). intros c.
  unfold beads_nbeads.
  rewrite !zip_with_replicate_l
    by (rewrite ?length_zip_with, ?length_fmap, ?length_replicate; lia).
  rewrite <- !list_fmap_compose. reflexivity.
Qed.

Lemma sum_com_row k na mr c0 c1 c2 row :
  length row = (3 * na)%nat → (k < 3)%nat →
  sumQc (stride3 k na (com_row na mr c0 c1 c2 row)) =
  sumQc (stride3 k na row) - sumQc (map (at0 mr) (seq 0 na)) * at0 [c0; c1; c2] k.
Proof.
  intros Hlen Hk. unfold com_row.
  rewrite !sum_stride3_row_sub by (rewrite ?sub_stride3_row_length; done).
  destruct k as [|[|[|k]]]; try lia; simpl; unfold at0; simpl; ring.
Qed.

Lemma sum_stride3_com_remove (s : Sys) (k : nat) :
  wf_shape s → (k < 3)%nat → (0 < beads_nbeads s)%nat → beads_M s ≠ 0 →
  sum_stride3 k (beads_natoms s) (com_remove s) = 0.
Proof.
  intros Hwf Hk Hnb HM. rewrite com_remove_rows.
  set (c := 1 / (N2Qc (beads_nbeads s) * beads_M s)).
  set (ck := at0 [sum_stride3 0 (beads_natoms s) (p s) * c;
                  sum_stride3 1 (beads_natoms s) (p s) * c;
                  sum_stride3 2 (beads_natoms s) (p s) * c] k).
  unfold sum_stride3 at 1. rewrite <- list_fmap_compose.
  transitivity (sumQc (map (fun row => sumQc (stride3 k (beads_natoms s) row)
                                       - (fun _ => beads_M s) row * ck) (p s))).
  - apply sumQc_map_ext. intros row Hrow. simpl.
    rewrite sum_com_row; [| by apply (proj1 (Forall_forall _ _) Hwf) | done].
    unfold beads_natoms at 3. rewrite at0_map_seq. reflexivity.
  - rewrite (sumQc_map_sub (fun row => sumQc (stride3 k (beads_natoms s) row))
               (fun _ => beads_M s) ck (p s)).
    rewrite sumQc_map_const.
    fold (sum_stride3 k (beads_natoms s) (p s)). fold (beads_nbeads s).
    pose proof (N2Qc_pos_neq0 _ Hnb) as Hn. subst ck c.
    destruct k as [|[|[|k]]]; try lia; unfold at0; simpl; field; done.
Qed.

Lemma com_remove_shape (s : Sys) :
  wf_shape s → wf_shape (set_p (com_remove s) s).
Proof.
  unfold wf_shape. intros H. simpl. rewrite com_remove_rows.
  apply Forall_fmap. eapply Forall_impl; [exact H|].
  intros row Hrow. simpl. unfold com_row. by rewrite !sub_stride3_row_length.
Qed.

Lemma dotQc_pcom (s : Sys) :
  dotQc (pcom_of s) (pcom_of s) =
  total_momentum 0 s * total_momentum 0 s
  + total_momentum 1 s * total_momentum 1 s
  + total_momentum 2 s * total_momentum 2 s.
Proof. unfold dotQc, pcom_of, total_momentum. simpl. ring. Qed.

(** ** Fixed atoms *)

Lemma scatter0_length idx l : length (scatter0 idx l) = length l.
Proof.
  unfold scatter0. revert l. induction idx as [|j idx IH]; intros l; simpl; [done|].
  by rewrite IH, length_insert.
Qed.

Lemma scatter0_lookup idx (l : list Qc) (j : nat) :
  scatter0 idx l !! j = if decide (j ∈ idx) then (fun _ => 0) <$> (l !! j) else l !! j.
Proof.
  unfold scatter0. revert l. induction idx as [|i idx IH]; intros l.
  - reflexivity.
  - cbn [fold_left]. rewrite IH. destruct (decide (i = j)) as [->|Hij].
    + destruct (decide (j ∈ j :: idx)) as [_|Hn]; [|exfalso; apply Hn; constructor].
      destruct (decide (j < length l)%nat) as [Hj|Hj].
      * rewrite list_lookup_insert_eq by done.
        destruct (lookup_lt_is_Some_2 l j Hj) as [x ->]. by case_decide.
      * rewrite list_insert_ge by lia.
        rewrite (proj2 (lookup_ge_None l j)) by lia. by case_decide.
    + rewrite list_lookup_insert_ne by done.
      destruct (decide (j ∈ idx)) as [Hin|Hin]; case_decide as H'; try done.
      * exfalso. apply H'. by constructor.
      * exfalso. apply elem_of_cons in H'. intuition congruence.
Qed.

Lemma fix_zero_length fix_ bp : length (fix_zero fix_ bp) = length bp.
Proof. unfold fix_zero. by rewrite !scatter0_length. Qed.

Lemma fix_zero_lookup fix_ (bp : list Qc) (a k : nat) :
  a ∈ fix_ → (k < 3)%nat → (a * 3 + k < length bp)%nat →
  fix_zero fix_ bp !! (a * 3 + k)%nat = Some 0.
Proof.
  intros Ha Hk Hlen. unfold fix_zero.
  assert (Hin : (a * 3 + k)%nat ∈ fix_idx k fix_).
  { unfold fix_idx. apply list_elem_of_fmap. by exists a. }
  assert (Hz : ∀ idx (l : list Qc) j, l !! j = Some 0 → scatter0 idx l !! j = Some 0).
  { intros idx l j Hl. rewrite scatter0_lookup, Hl. by case_decide. }
  assert (Hs : ∀ (l : list Qc), length l = length bp →
               scatter0 (fix_idx k fix_) l !! (a * 3 + k)%nat = Some 0).
  { intros l Hl. rewrite scatter0_lookup, decide_True by done.
    destruct (lookup_lt_is_Some_2 l (a * 3 + k)) as [x ->]; [lia | done]. }
  destruct k as [|[|[|k]]]; try lia.
  - apply Hz, Hz, Hs. done.
  - apply Hz, Hs. by rewrite scatter0_length.
  - apply Hs. by rewrite !scatter0_length.
Qed.

Lemma half_inv_two : half = / two.
Proof. apply Qc_is_canon. reflexivity. Qed.

Lemma fix_energy_k_sum (k : nat) (fix_ : list nat) (mass bp : list Qc) :
  fix_energy_k k fix_ mass bp = sumQc (map (fun a => component_kinetic mass bp a k) fix_).
Proof.
  unfold fix_energy_k, dotQc, vdiv, gather, fix_idx.
  induction fix_ as [|a fix_ IH]; simpl; [ring|].
  rewrite <- IH. unfold component_kinetic, Qcdiv.
  rewrite Qcinv_mult_distr, <- half_inv_two. ring.
Qed.

Lemma sumQc_map_plus {A} (f g : A → Qc) (l : list A) :
  sumQc (map (fun a => f a + g a) l) = sumQc (map f l) + sumQc (map g l).
Proof. induction l as [|x l IH]; simpl; [ring | rewrite IH; ring]. Qed.

Lemma fix_energy_sum (fix_ : list nat) (mass : list Qc) (e0 : Qc) (arr : array) :
  fix_energy fix_ mass e0 arr = e0 + fixed_kinetic fix_ mass arr.
Proof.
  unfold fix_energy, fixed_kinetic. revert e0.
  induction arr as [|bp arr IH]; intros e0; simpl; [ring|].
  rewrite IH, !fix_energy_k_sum.
  rewrite (sumQc_map_plus (fun a => component_kinetic mass bp a 0 + component_kinetic mass bp a 1)),
          (sumQc_map_plus (fun a => component_kinetic mass bp a 0)).
  ring.
Qed.

(** ** Momentum constraints: the properties *)

Ltac qc_neq := let H := fresh in intros H; apply (f_equal this) in H; vm_compute in H; discriminate H.
Ltac qc_eq := apply Qc_is_canon; vm_compute; reflexivity.

(** C2, as stated, fails: with centre-of-mass fixing enabled and atom 0 fixed
    as well, the fixed-atom branch runs after the centre-of-mass branch and
    leaves a total momentum of 1 along x. *)
Lemma C2_counterexample_fixed_atoms :
  fixcom (ens_two_atoms true [0%nat]) = true ∧
  wf_shape (sys (ens_two_atoms true [0%nat])) ∧
  beads_M (sys (ens_two_atoms true [0%nat])) ≠ 0 ∧
  total_momentum 0 (sys (NVEEnsemble_pconstraints (ens_two_atoms true [0%nat]))) = 1 ∧
  total_momentum 0 (sys (NVEEnsemble_pconstraints (ens_two_atoms true [0%nat]))) ≠ 0.
Proof.
  split; [reflexivity|]. split; [repeat constructor|].
  split; [qc_neq|]. split; [qc_eq | qc_neq].
Qed.

(** C2, amended: in exact arithmetic, with centre-of-mass fixing enabled, no
    fixed atoms, well-shaped arrays of at least one replica and a nonzero
    total mass, [pconstraints] leaves a total momentum of exactly zero in
    each dimension and adds exactly [|p_com|^2/(2 M nbeads)] to [eens].  (In
    float64 the total is zero up to rounding only.) *)
Theorem C2_com_fixing (e : Ensemble) :
  fixcom e = true → fixatoms e = [] →
  wf_shape (sys e) → (0 < beads_nbeads (sys e))%nat → beads_M (sys e) ≠ 0 →
  (∀ k, (k < 3)%nat → total_momentum k (sys (NVEEnsemble_pconstraints e)) = 0) ∧
  eens (NVEEnsemble_pconstraints e) = eens e + com_kinetic (sys e).
Proof.
  intros Hfc Hfa Hwf Hnb HM.
  unfold NVEEnsemble_pconstraints, NVE_constrain, fix_stage, com_stage.
  rewrite Hfc. simpl. rewrite Hfa. simpl. split.
  - intros k Hk. unfold total_momentum. simpl.
    change (beads_natoms (set_p (com_remove (sys e)) (sys e))) with (beads_natoms (sys e)).
    by apply sum_stride3_com_remove.
  - unfold com_energy, com_kinetic. by rewrite dotQc_pcom.
Qed.

Lemma C2_com_fixing_witness :
  (∀ k, (k < 3)%nat →
     total_momentum k (sys (NVEEnsemble_pconstraints (ens_two_atoms true []))) = 0) ∧
  eens (NVEEnsemble_pconstraints (ens_two_atoms true []))
  = eens (ens_two_atoms true []) + com_kinetic (sys (ens_two_atoms true [])).
Proof.
  apply (C2_com_fixing (ens_two_atoms true [])).
  - reflexivity.
  - reflexivity.
  - repeat constructor.
  - unfold beads_nbeads. simpl. lia.
  - qc_neq.
Defined.

(** ** What each call leaves alone, and what it records *)

Lemma cfg_dt e e' : cfg e' = cfg e → dt e' = dt e.
Proof. unfold cfg. congruence. Qed.
Lemma cfg_nm_dt e e' : cfg e' = cfg e → nm_dt e' = nm_dt e.
Proof. unfold cfg. congruence. Qed.
Lemma cfg_fixcom e e' : cfg e' = cfg e → fixcom e' = fixcom e.
Proof. unfold cfg. congruence. Qed.
Lemma cfg_fixatoms e e' : cfg e' = cfg e → fixatoms e' = fixatoms e.
Proof. unfold cfg. congruence. Qed.
Lemma cfg_factors e e' : cfg e' = cfg e → mtsintegfactors e' = mtsintegfactors e.
Proof. unfold cfg. congruence. Qed.

Lemma cfg_NVE_constrain e : cfg (NVE_constrain e) = cfg e.
Proof.
  unfold NVE_constrain, fix_stage, com_stage.
  destruct (fixcom e); case_decide; reflexivity.
Qed.

Lemma calls_NVE_constrain e : calls (NVE_constrain e) = calls e.
Proof.
  unfold NVE_constrain, fix_stage, com_stage.
  destruct (fixcom e); case_decide; reflexivity.
Qed.

Lemma cfg_pconstraints e : cfg (NVEEnsemble_pconstraints e) = cfg e.
Proof. unfold NVEEnsemble_pconstraints. exact (cfg_NVE_constrain e). Qed.

Lemma calls_pconstraints e :
  calls (NVEEnsemble_pconstraints e) = calls e ++ [CPconstraints].
Proof. unfold NVEEnsemble_pconstraints. simpl. by rewrite calls_NVE_constrain. Qed.

Lemma extends_refl e : extends e e [].
Proof. split; [done | by rewrite app_nil_r]. Qed.

Lemma extends_calls_since e e' tr : extends e e' tr → calls_since e e' = tr.
Proof.
  intros [_ H]. unfold calls_since. rewrite H. by rewrite drop_app_length.
Qed.

Lemma extends_pconstraints e0 e tr :
  extends e0 e tr → extends e0 (NVEEnsemble_pconstraints e) (tr ++ [CPconstraints]).
Proof.
  intros [Hc Ht]. split.
  - by rewrite cfg_pconstraints.
  - by rewrite calls_pconstraints, Ht, app_assoc.
Qed.

Section CallOrder.

Context (C : Collaborators).

Lemma extends_called e0 e tr c s :
  extends e0 e tr → extends e0 (called c (set_sys s e)) (tr ++ [c]).
Proof.
  intros [Hc Ht]. split; [exact Hc|]. simpl. by rewrite Ht, app_assoc.
Qed.

Lemma extends_NVE_pstep e0 e tr :
  extends e0 e tr → extends e0 (NVEEnsemble_pstep C e) (tr ++ [CForceKick; CBiasKick]).
Proof.
  intros [Hc Ht]. split; [exact Hc|]. unfold NVEEnsemble_pstep. simpl.
  by rewrite Ht, <- !app_assoc.
Qed.

Lemma extends_NVE_qcstep e0 e tr :
  extends e0 e tr → extends e0 (NVEEnsemble_qcstep C e) (tr ++ [CQcstep (dt e0)]).
Proof.
  intros [Hc Ht]. split; [exact Hc|]. simpl.
  by rewrite Ht, (cfg_dt _ _ Hc), app_assoc.
Qed.

Lemma extends_free e0 e tr :
  extends e0 e tr → extends e0 (nm_free_qstep_call C e) (tr ++ [CFreeQstep (nm_dt e0)]).
Proof.
  intros [Hc Ht]. split; [exact Hc|]. simpl.
  by rewrite Ht, (cfg_nm_dt _ _ Hc), app_assoc.
Qed.

Lemma extends_thermo e0 e tr :
  extends e0 e tr → extends e0 (thermostat_step_call C e) (tr ++ [CThermostatStep]).
Proof. apply extends_called. Qed.

Lemma extends_baro c op w e0 e tr :
  extends e0 e tr → extends e0 (barostat_call c op w e) (tr ++ [c]).
Proof. apply extends_called. Qed.

Lemma extends_MTS_pstep l a e0 e tr :
  extends e0 e tr → extends e0 (MTSEnsemble_pstep C l a e) (tr ++ [CMtsKick l a]).
Proof.
  intros [Hc Ht]. split; [exact Hc|]. simpl. by rewrite Ht, app_assoc.
Qed.

Lemma extends_MTS_qcstep a e0 e tr :
  extends e0 e tr → extends e0 (MTSEnsemble_qcstep C a e) (tr ++ [CQcstep (dt e0 / a)]).
Proof.
  intros [Hc Ht]. split; [exact Hc|]. simpl.
  by rewrite Ht, (cfg_dt _ _ Hc), app_assoc.
Qed.

Lemma extends_bias_kick c e0 e tr :
  extends e0 e tr → extends e0 (called CBiasKick (kick c (bias_f C) e)) (tr ++ [CBiasKick]).
Proof. apply extends_called. Qed.

Lemma extends_NVE_step e :
  extends e (NVEEnsemble_step C e)
    [CForceKick; CBiasKick; CPconstraints; CQcstep (dt e); CFreeQstep (nm_dt e);
     CForceKick; CBiasKick; CPconstraints].
Proof.
  unfold NVEEnsemble_step.
  apply (extends_pconstraints e _ [_; _; _; _; _; _; _]),
        (extends_NVE_pstep e _ [_; _; _; _; _]),
        (extends_free e _ [_; _; _; _]), (extends_NVE_qcstep e _ [_; _; _]),
        (extends_pconstraints e _ [_; _]), (extends_NVE_pstep e _ []), extends_refl.
Qed.


Lemma extends_barostat_step w e :
  extends e (barostat_step C w e)
    [CThermostatStep; CBaroThermostatStep; CPconstraints;
     CBaroPstep; CPconstraints; CBaroQcstep; CFreeQstep (nm_dt e);
     CBaroPstep; CPconstraints;
     CBaroThermostatStep; CThermostatStep; CPconstraints].
Proof.
  unfold barostat_step.
  apply (extends_pconstraints e _ [_; _; _; _; _; _; _; _; _; _; _]),
        (extends_thermo e _ [_; _; _; _; _; _; _; _; _; _]),
        (extends_baro _ _ _ e _ [_; _; _; _; _; _; _; _; _]),
        (extends_pconstraints e _ [_; _; _; _; _; _; _; _]),
        (extends_baro _ _ _ e _ [_; _; _; _; _; _; _]),
        (extends_free e _ [_; _; _; _; _; _]),
        (extends_baro _ _ _ e _ [_; _; _; _; _]),
        (extends_pconstraints e _ [_; _; _; _]),
        (extends_baro _ _ _ e _ [_; _; _]),
        (extends_pconstraints e _ [_; _]),
        (extends_baro _ _ _ e _ [_]), (extends_thermo e _ []), extends_refl.
Qed.

Lemma repeat_steps_extends (body : Ensemble → option Ensemble) bt e0 :
  (∀ e tr, extends e0 e tr → ∃ e', body e = Some e' ∧ extends e0 e' (tr ++ bt)) →
  ∀ n e tr, extends e0 e tr →
    ∃ e', repeat_steps n body e = Some e' ∧ extends e0 e' (tr ++ concat (replicate n bt)).
Proof.
  intros Hbody n. induction n as [|n IH]; intros e tr He; simpl.
  - exists e. split; [done|]. by rewrite app_nil_r.
  - destruct (Hbody e tr He) as (e1 & -> & He1).
    destruct (IH e1 _ He1) as (e2 & -> & He2).
    exists e2. split; [done|]. by rewrite app_assoc.
Qed.

Lemma repeat_steps_fail (body : Ensemble → option Ensemble) :
  (∀ e, body e = None) → ∀ n e, repeat_steps (S n) body e = None.
Proof. intros H n e. simpl. by rewrite H. Qed.

Lemma extends_eq e0 e tr tr' : extends e0 e tr → tr = tr' → extends e0 e tr'.
Proof. by intros H <-. Qed.

(** Whether the schedule is defined depends on the factors and the number of
    levels only. *)
Lemma mtsprop_calls_none nlevels (factors : list Z) :
  ∀ index d n a d' n' a',
    mtsprop_calls nlevels d n factors index a = None →
    mtsprop_calls nlevels d' n' factors index a' = None.
Proof.
  induction factors as [|nmts rest IH]; intros index d n a d' n' a'; [done|].
  cbn [mtsprop_calls]. destruct (Z.to_nat nmts); [done|].
  destruct (Z.of_nat index =? nlevels - 1)%Z; [done|].
  destruct (mtsprop_calls nlevels d n rest (S index) (a * Z2Qc nmts)) eqn:E; [done|].
  intros _. by rewrite (IH _ _ _ _ d' n' (a' * Z2Qc nmts) E).
Qed.

(** [mtsprop] makes exactly the calls of [mtsprop_calls], and raises exactly
    when that schedule is undefined. *)
Lemma mtsprop_from_calls (factors : list Z) :
  ∀ index alpha e0 e tr, extends e0 e tr →
    match mtsprop_calls (forces_nmtslevels C) (dt e0) (nm_dt e0) factors index alpha with
    | Some t => ∃ e', mtsprop_from C factors index alpha e = Some e' ∧ extends e0 e' (tr ++ t)
    | None => mtsprop_from C factors index alpha e = None
    end.
Proof.
  induction factors as [|nmts rest IH]; intros index alpha e0 e tr He; [reflexivity|].
  cbn [mtsprop_calls mtsprop_from].
  destruct (Z.to_nat nmts) as [|n] eqn:En.
  { exists e. split; [done|]. by rewrite app_nil_r. }
  destruct (Z.of_nat index =? forces_nmtslevels C - 1)%Z eqn:Elast.
  - apply repeat_steps_extends; [|done]. intros e1 tr1 He1.
    eexists. split; [reflexivity|].
    eapply extends_eq.
    + apply extends_pconstraints, extends_MTS_pstep, extends_free, extends_MTS_qcstep,
            extends_pconstraints, extends_MTS_pstep, He1.
    + rewrite <- !app_assoc. reflexivity.
  - assert (Hpre : ∀ e1 tr1, extends e0 e1 tr1 →
              extends e0 (NVEEnsemble_pconstraints
                            (MTSEnsemble_pstep C index (two * (alpha * Z2Qc nmts)) e1))
                ((tr1 ++ [CMtsKick index (two * (alpha * Z2Qc nmts))]) ++ [CPconstraints])).
    { intros e1 tr1 He1. apply extends_pconstraints, extends_MTS_pstep, He1. }
    destruct (mtsprop_calls (forces_nmtslevels C) (dt e0) (nm_dt e0) rest (S index)
                (alpha * Z2Qc nmts)) as [inner|] eqn:Einner.
    + apply repeat_steps_extends; [|done]. intros e1 tr1 He1.
      pose proof (IH (S index) (alpha * Z2Qc nmts) e0 _ _ (Hpre e1 tr1 He1)) as Hrec.
      rewrite Einner in Hrec. destruct Hrec as (e2 & -> & He2).
      eexists. split; [reflexivity|].
      eapply extends_eq.
      * apply extends_pconstraints, extends_MTS_pstep, He2.
      * rewrite <- !app_assoc. reflexivity.
    + apply repeat_steps_fail. intros e1.
      set (e2 := NVEEnsemble_pconstraints
                   (MTSEnsemble_pstep C index (two * (alpha * Z2Qc nmts)) e1)).
      pose proof (IH (S index) (alpha * Z2Qc nmts) e2 e2 [] (extends_refl e2)) as Hrec.
      rewrite (mtsprop_calls_none _ _ _ _ _ _ (dt e2) (nm_dt e2) (alpha * Z2Qc nmts) Einner)
        in Hrec.
      by rewrite Hrec.
Qed.

Lemma MTS_step_calls e :
  match mts_step_calls (forces_nmtslevels C) (dt e) (nm_dt e) (mtsintegfactors e) with
  | Some t => ∃ e', MTSEnsemble_step C e = Some e' ∧ extends e e' t
  | None => MTSEnsemble_step C e = None
  end.
Proof.
  unfold mts_step_calls, MTSEnsemble_step, MTSEnsemble_mtsprop.
  set (e1 := called CBiasKick (kick _ (bias_f C) (NVEEnsemble_pconstraints (thermostat_step_call C e)))).
  assert (He1 : extends e e1 [CThermostatStep; CPconstraints; CBiasKick]).
  { apply (extends_bias_kick _ e _ [_; _]), (extends_pconstraints e _ [_]),
          (extends_thermo e _ []), extends_refl. }
  assert (Hf : mtsintegfactors e1 = mtsintegfactors e) by (apply cfg_factors, He1).
  rewrite drop_0, Hf.
  pose proof (mtsprop_from_calls (mtsintegfactors e) 0 1 e e1 _ He1) as Hrec.
  destruct (mtsprop_calls (forces_nmtslevels C) (dt e) (nm_dt e) (mtsintegfactors e) 0 1)
    as [mid|]; [|by rewrite Hrec].
  destruct Hrec as (e2 & -> & He2).
  eexists. split; [reflexivity|].
  eapply extends_eq.
  - apply extends_pconstraints, extends_thermo, extends_bias_kick, He2.
  - rewrite <- !app_assoc. reflexivity.
Qed.

End CallOrder.

(** ** Conserved quantities *)

(** C3: at every state, the NVT conserved quantity is the NVE one plus the
    thermostat heat [ethermo], and the NPT one is the NVT one plus the
    barostat heat [ebaro]; written out, they are the five terms of the base
    formula plus the one or two heat terms. *)
Theorem C3_econs_heat_terms (C : Collaborators) (e : Ensemble) :
  NVTEnsemble_get_econs C e = NVEEnsemble_get_econs C e + ethermo (sys e) ∧
  NPTEnsemble_get_econs C e = NVTEnsemble_get_econs C e + ebaro (sys e) ∧
  NVEEnsemble_get_econs C e
  = beads_vpath C (q (sys e)) * nm_omegan2 C + nm_kin C (sys e)
    + forces_pot C (q (sys e)) (h (sys e)) + bias_pot C (q (sys e)) (h (sys e)) + eens e ∧
  NPTEnsemble_get_econs C e
  = beads_vpath C (q (sys e)) * nm_omegan2 C + nm_kin C (sys e)
    + forces_pot C (q (sys e)) (h (sys e)) + bias_pot C (q (sys e)) (h (sys e)) + eens e
    + ethermo (sys e) + ebaro (sys e).
Proof.
  unfold NPTEnsemble_get_econs, NVTEnsemble_get_econs, NVEEnsemble_get_econs,
    Ensemble_get_econs.
  repeat split.
Qed.

(** ** The multiple-time-step schedule *)

Lemma Z2Qc_mul (a b : Z) : Z2Qc (a * b) = Z2Qc a * Z2Qc b.
Proof.
  unfold Z2Qc. apply Qc_is_canon. simpl this.
  rewrite !Qred_correct. rewrite inject_Z_mult. reflexivity.
Qed.

Lemma qc_steps_app a b : qc_steps (a ++ b) = qc_steps a ++ qc_steps b.
Proof. unfold qc_steps. apply omap_app. Qed.

Lemma qc_steps_repeat n l :
  qc_steps (concat (replicate n l)) = concat (replicate n (qc_steps l)).
Proof.
  induction n as [|n IH]; simpl; [done|]. by rewrite qc_steps_app, IH.
Qed.

Lemma concat_replicate_replicate {A} (n k : nat) (x : A) :
  concat (replicate n (replicate k x)) = replicate (n * k) x.
Proof.
  induction n as [|n IH]; simpl; [done|]. by rewrite IH, replicate_add.
Qed.

(** The step size recorded with a centroid update is the one it applies. *)
Lemma MTS_qcstep_effective (C : Collaborators) (alpha : Qc) (e : Ensemble) :
  sys (MTSEnsemble_qcstep C alpha e)
  = centroid_update C (fun x => x * (dt e / alpha)) (sys e).
Proof.
  unfold MTSEnsemble_qcstep, centroid_update. simpl. do 3 f_equal.
  f_equal. apply map_ext. intros x. unfold Qcdiv. ring.
Qed.

(** ** Constraints after momentum changes *)






(** What that order does: with atom 0 fixed and a bias force on it, the
    closing thermostat step of the MTS step is handed the momentum 1/2 that
    the bias kick gave the fixed atom; in the NVT step it is handed 0. *)
Lemma MTS_thermostat_sees_fixed_atom_moving :
  map this (priv (sys (default ens_fixed_at_rest
                         (MTSEnsemble_step probing ens_fixed_at_rest))))
  = [0%Q; (1 # 2)%Q] ∧
  map this (priv (sys (NVTEnsemble_step probing ens_fixed_at_rest))) = [0%Q; 0%Q].
Proof. split; vm_compute; reflexivity. Qed.


(** ** Replay *)

Lemma read_beads_set fac (set rest : list Frame) :
  ∀ (rows : array) (c : option array),
    map (fun fr => length (frame_q fr)) set = map length rows →
    ∃ c', read_beads fac (set ++ rest) rows c = (frame_positions fac set, rest, c', ReadOk)
          ∧ (is_Some c ∨ rows ≠ [] → is_Some c').
Proof.
  induction set as [|fr set IH]; intros rows c Hshape.
  - destruct rows; [|done]. exists c. split; [reflexivity|]. by intros [H|H].
  - destruct rows as [|b rows]; [done|]. simpl in Hshape.
    injection Hshape as Hlen Hshape. simpl.
    rewrite decide_True by (by rewrite length_map).
    destruct (IH rows (Some (map (map (fun x => x * fac)) (frame_h fr))) Hshape)
      as (c' & -> & Hc').
    exists c'. split; [reflexivity|]. intros _. apply Hc'. left. eauto.
Qed.

Lemma read_beads_end fac (rows : array) (c : option array) :
  rows ≠ [] → read_beads fac [] rows c = (rows, [], c, ReadEOF).
Proof. by destruct rows. Qed.

Lemma frame_positions_shape fac set :
  map length (frame_positions fac set) = map (fun fr => length (frame_q fr)) set.
Proof.
  unfold frame_positions. rewrite map_map. apply map_ext. intros fr. by rewrite length_map.
Qed.

Lemma replay_step_set (r : Replay) (set rest : list Frame) :
  mode r = ModeXyz ∨ mode r = ModePdb →
  q (sys (base r)) ≠ [] →
  map (fun fr => length (frame_q fr)) set = map length (q (sys (base r))) →
  rfile r = set ++ rest →
  ∃ r', ReplayEnsemble_step None r = Returned r'
        ∧ q (sys (base r')) = frame_positions (units r) set
        ∧ p (sys (base r')) = p (sys (base r))
        ∧ eens (base r') = eens (base r)
        ∧ rfile r' = rest ∧ mode r' = mode r ∧ units r' = units r.
Proof.
  intros Hmode Hne Hshape Hfile.
  unfold ReplayEnsemble_step, replay_loop, replay_read. cbn [bump_rstep mode rfile base units].
  rewrite Hfile.
  destruct (read_beads_set (units r) set rest (q (sys (base r))) None Hshape)
    as (c' & -> & Hc').
  destruct (Hc' (or_intror Hne)) as [h' ->].
  destruct Hmode as [Hm | Hm]; rewrite Hm; eexists; (split; [reflexivity|]); simpl;
    repeat split; by rewrite Hm.
Qed.

Lemma replay_step_end (r : Replay) :
  mode r = ModeXyz ∨ mode r = ModePdb →
  q (sys (base r)) ≠ [] →
  rfile r = [] →
  ∃ r', ReplayEnsemble_step None r = SoftExit FinishedTrajectory r'
        ∧ sys (base r') = sys (base r) ∧ eens (base r') = eens (base r).
Proof.
  intros Hmode Hne Hfile.
  unfold ReplayEnsemble_step, replay_loop, replay_read. cbn [bump_rstep mode rfile base units].
  rewrite Hfile, read_beads_end by done.
  destruct Hmode as [Hm | Hm]; rewrite Hm; eexists; (split; [reflexivity|]); simpl;
    split; try reflexivity; by destruct (sys (base r)).
Qed.

(** C8: with a trajectory file of [K] whole frame sets, each of the first [K]
    calls of [step()] returns after overwriting the positions with the next
    frame set (in internal units, momenta untouched), and call [K+1]
    triggers the soft exit; it does not raise. *)
Theorem C8_replay_exhausts_source (r : Replay) (sets : list (list Frame)) :
  mode r = ModeXyz ∨ mode r = ModePdb →
  q (sys (base r)) ≠ [] →
  Forall (fun set => map (fun fr => length (frame_q fr)) set
                     = map length (q (sys (base r)))) sets →
  rfile r = concat sets →
  (∀ k set, sets !! k = Some set →
     ∃ r', replay_run (S k) r = Returned r'
           ∧ q (sys (base r')) = frame_positions (units r) set
           ∧ p (sys (base r')) = p (sys (base r))) ∧
  (∃ r', replay_run (S (length sets)) r = SoftExit FinishedTrajectory r').
Proof.
  revert r. induction sets as [|set sets IH]; intros r Hmode Hne Hshape Hfile.
  - split; [intros k set Hk; by rewrite lookup_nil in Hk|].
    destruct (replay_step_end r Hmode Hne Hfile) as (r' & Hs & _).
    exists r'. simpl. by rewrite Hs.
  - apply Forall_cons in Hshape as [Hset Hsets].
    destruct (replay_step_set r set (concat sets) Hmode Hne Hset Hfile)
      as (r1 & Hs & Hq & Hp & _ & Hf & Hm & Hu).
    assert (Hshape1 : map length (q (sys (base r1))) = map length (q (sys (base r))))
      by (by rewrite Hq, frame_positions_shape).
    destruct (IH r1) as [IHa IHb].
    { by rewrite Hm. }
    { rewrite Hq. destruct set; [|done]. simpl in Hset. by destruct (q (sys (base r))). }
    { by rewrite Hshape1. }
    { done. }
    split.
    + intros [|k] set' Hk.
      * injection Hk as <-. exists r1. simpl. rewrite Hs. done.
      * destruct (IHa k set' Hk) as (r' & Hrun & Hq' & Hp').
        exists r'. change (replay_run (S (S k)) r)
          with (match ReplayEnsemble_step None r with
                | Returned r' => replay_run (S k) r' | other => other end).
        rewrite Hs, Hrun. rewrite Hq', Hp', Hu, Hp. done.
    + destruct IHb as (r' & Hrun). exists r'.
      change (replay_run (S (length (set :: sets))) r)
        with (match ReplayEnsemble_step None r with
              | Returned r' => replay_run (S (length sets)) r' | other => other end).
      by rewrite Hs.
Qed.

Lemma replay_read_keeps (r : Replay) :
  ∀ r', (replay_read r = Returned r' ∨ (∃ w, replay_read r = SoftExit w r')
         ∨ replay_read r = Raised r') →
        p (sys (base r')) = p (sys (base r)) ∧ eens (base r') = eens (base r)
        ∧ rstep r' = rstep r.
Proof.
  intros r'. unfold replay_read.
  destruct (mode r);
    try match goal with
        | |- context [read_beads ?f ?a ?b ?c] =>
            destruct (read_beads f a b c) as [[[q' f'] [h'|]] []]
        end;
    intros [H | [[w H] | H]]; try discriminate H; injection H as <-;
    try (intros; subst); repeat split.
Qed.

Definition replay_of (x : StepEnd) : Replay :=
  match x with Returned r | SoftExit _ r | Raised r => r end.

Lemma replay_loop_keeps (fuel : nat) (step : option Z) :
  ∀ r, p (sys (base (replay_of (replay_loop fuel step r)))) = p (sys (base r))
       ∧ eens (base (replay_of (replay_loop fuel step r))) = eens (base r).
Proof.
  induction fuel as [|fuel IH]; intros r; simpl;
    pose proof (replay_read_keeps (bump_rstep r)) as Hk;
    destruct (replay_read (bump_rstep r)) as [r1 | w r1 | r1] eqn:E.
  - destruct (Hk r1 (or_introl eq_refl)) as (Hp & He & _).
    destruct step as [n|]; [destruct (rstep r1 >? n)%Z|]; simpl; by rewrite Hp, He.
  - destruct (Hk r1 (or_intror (or_introl (ex_intro _ w eq_refl)))) as (Hp & He & _).
    simpl. by rewrite Hp, He.
  - destruct (Hk r1 (or_intror (or_intror eq_refl))) as (Hp & He & _).
    simpl. by rewrite Hp, He.
  - destruct (Hk r1 (or_introl eq_refl)) as (Hp & He & _).
    destruct step as [n|]; [destruct (rstep r1 >? n)%Z|]; simpl; rewrite ?Hp, ?He; try done.
    destruct (IH r1) as [Hp1 He1]. by rewrite Hp1, He1, Hp, He.
  - destruct (Hk r1 (or_intror (or_introl (ex_intro _ w eq_refl)))) as (Hp & He & _).
    simpl. by rewrite Hp, He.
  - destruct (Hk r1 (or_intror (or_intror eq_refl))) as (Hp & He & _).
    simpl. by rewrite Hp, He.
Qed.

(** C10: the [pconstraints] of the base class, which [ReplayEnsemble]
    inherits, changes nothing, whatever [fixcom] and [fixatoms] are; so
    neither the constraint pass of [bind] nor any replayed step, however it
    ends, changes the momenta or [eens]. *)
Theorem C10_replay_enforces_no_constraints
    (e : Ensemble) (s : Sys) (r : Replay) (step : option Z) :
  Ensemble_pconstraints e = e ∧
  ReplayEnsemble_pconstraints e = e ∧
  p (sys (ReplayEnsemble_bind s e)) = p s ∧
  eens (ReplayEnsemble_bind s e) = eens e ∧
  p (sys (base (replay_of (ReplayEnsemble_step step r)))) = p (sys (base r)) ∧
  eens (base (replay_of (ReplayEnsemble_step step r))) = eens (base r).
Proof.
  repeat split; try apply replay_loop_keeps.
Qed.

(** ** The driver loop *)

Section DriverProperties.

Context {St : Type} (advance : St → St).

Lemma run_loop_boundary (world : nat → Pass) (s0 : St) (step0 : Z) (n : nat) :
  ∀ (i : nat) (x : Simulation),
    sim_rollback x = true →
    sim_restart x = None →
    sim_state x = Nat.iter i advance s0 →
    (n = 0%nat ∧ i = 0%nat → sim_step x = step0 ∧ (sim_tsteps x <= step0)%Z) →
    (n ≠ 0%nat ∨ i ≠ 0%nat → sim_tsteps x = (step0 + Z.of_nat i + Z.of_nat n)%Z) →
    (i ≠ 0%nat → sim_step x = (step0 + Z.of_nat i - 1)%Z) →
    match run_loop advance world i (map (fun j => (step0 + Z.of_nat j)%Z) (seq i n)) x with
    | Halted x' => ∃ c, sim_restart x' = Some c ∧ at_boundary advance s0 step0 c
    | Crashed x' => sim_restart x' = None
    end.
Proof.
  induction n as [|n IH]; intros i x Hrb Hrs Hst H0 Hts Hstep.
  - simpl. unfold Simulation_softexit. simpl.
    eexists. split; [reflexivity|]. exists i. split.
    + by destruct (sim_step x <? sim_tsteps x)%Z.
    + destruct (decide (i = 0%nat)) as [->|Hi].
      * destruct H0 as [Hs Ht]; [done|].
        destruct (Z.ltb_spec (sim_step x) (sim_tsteps x)); simpl; lia.
      * specialize (Hts (or_intror Hi)). specialize (Hstep Hi).
        destruct (Z.ltb_spec (sim_step x) (sim_tsteps x)); simpl; lia.
  - cbn [seq map run_loop].
    assert (Hts' : sim_tsteps x = (step0 + Z.of_nat i + Z.of_nat (S n))%Z)
      by (apply Hts; left; lia).
    destruct (world i) as [exit_file wall_clock | partial | partial].
    + assert (Hend : ∃ c, sim_restart (Simulation_softexit (set_rollback false
                 (set_state (advance (sim_state (chk_store (set_step (step0 + Z.of_nat i) x))))
                    (chk_store (set_step (step0 + Z.of_nat i) x))))) = Some c
               ∧ at_boundary advance s0 step0 c).
      { unfold Simulation_softexit. simpl.
        destruct (Z.ltb_spec (step0 + Z.of_nat i) (sim_tsteps x)); [|lia]. simpl.
        eexists. split; [reflexivity|]. exists (S i). simpl. split; [by rewrite Hst | lia]. }
      destruct exit_file; [exact Hend|]. destruct wall_clock; [exact Hend|].
      apply IH; simpl; try done.
      * by rewrite Hst.
      * intros [_ H]. lia.
      * intros _. lia.
      * intros _. lia.
    + unfold Simulation_softexit. simpl.
      destruct (step0 + Z.of_nat i <? sim_tsteps x)%Z; simpl; rewrite Hrb; simpl;
        (eexists; split; [reflexivity|]); exists i; simpl; by rewrite Hst.
    + simpl. exact Hrs.
Qed.

End DriverProperties.

(** ** The multiple-time-step step against the velocity-Verlet step *)

Lemma sys_NVE_constrain e :
  sys (NVE_constrain e) = constrained (fixcom e) (fixatoms e) (sys e).
Proof.
  unfold NVE_constrain, fix_stage, com_stage, constrained.
  destruct (fixcom e); simpl; case_decide; reflexivity.
Qed.

Lemma sys_pconstraints e :
  sys (NVEEnsemble_pconstraints e) = constrained (fixcom e) (fixatoms e) (sys e).
Proof. unfold NVEEnsemble_pconstraints. simpl. apply sys_NVE_constrain. Qed.

Lemma axpy_axpy c (f g x : array) : axpy c g (axpy c f x) = axpy c (aadd f g) x.
Proof.
  unfold axpy, aadd. revert f g. induction x as [|r x IH]; intros [|fr f] [|gr g]; try done.
  simpl. f_equal; [|apply IH].
  clear. revert fr gr. induction r as [|a r IH]; intros [|b fr] [|d gr]; try done.
  simpl. f_equal; [ring | apply IH].
Qed.

Lemma aadd_comm (f g : array) : aadd f g = aadd g f.
Proof.
  unfold aadd. revert g. induction f as [|fr f IH]; intros [|gr g]; try done.
  simpl. f_equal; [|apply IH].
  clear. revert gr. induction fr as [|a fr IH]; intros [|b gr]; try done.
  simpl. f_equal; [ring | apply IH].
Qed.

Lemma kick_kick c f g s : kick_sys c g (kick_sys c f s) = kick_sys c (fadd f g) s.
Proof. unfold kick_sys, fadd. simpl. unfold set_p. simpl. by rewrite axpy_axpy. Qed.

Lemma kick_fadd_comm c f g s : kick_sys c (fadd f g) s = kick_sys c (fadd g f) s.
Proof. unfold kick_sys, fadd. by rewrite aadd_comm. Qed.

Section Absorb.

(** [P] stands for the momentum constraints, [good] for the states and [ok]
    for the force fields on which a constraint pass before a kick makes no
    difference once another pass follows the kick. *)
Context (C : Collaborators) (P : Sys → Sys) (good : Sys → Prop)
        (ok : (array → array → array) → Prop) (c tau nmdt : Qc).

Hypothesis absorb : ∀ f s, ok f → good s → P (kick_sys c f (P s)) = P (kick_sys c f s).
Hypothesis good_P : ∀ s, good s → good (P s).
Hypothesis good_kick : ∀ f s, ok f → good s → good (kick_sys c f s).
Hypothesis good_qf : ∀ s, good s → good (qf_sys C tau nmdt s).
Hypothesis ok_fadd : ∀ f g, ok f → ok g → ok (fadd f g).
Hypothesis ok_level : ∀ l, ok (forces_mts C l).

Lemma ok_total l n : ok (levels_total C l n).
Proof. revert l. induction n as [|n IH]; intros l; simpl; auto. Qed.

Lemma fuse f g s :
  ok f → ok g → good s →
  P (kick_sys c g (P (kick_sys c f s))) = P (kick_sys c (fadd f g) s).
Proof. intros Hf Hg Hs. rewrite absorb by auto. by rewrite kick_kick. Qed.

(** All levels kicked one after the other, each followed by the constraints,
    amount to one kick by their total, followed by the constraints. *)
Lemma mts_sys_total n :
  ∀ l s, good s →
    mts_sys C P c tau nmdt l n s
    = P (kick_sys c (levels_total C l n)
           (qf_sys C tau nmdt (P (kick_sys c (levels_total C l n) s))))
    ∧ good (mts_sys C P c tau nmdt l n s).
Proof.
  induction n as [|n IH]; intros l s Hs.
  - simpl. split; [reflexivity|]. auto 10.
  - cbn [mts_sys levels_total].
    destruct (IH (S l) (P (kick_sys c (forces_mts C l) s))) as [E G]; [auto|].
    rewrite E. split.
    + pose proof (ok_total (S l) n) as Ht. pose proof (ok_level l) as Hl.
      rewrite (fuse (forces_mts C l) (levels_total C (S l) n) s) by auto.
      rewrite (fuse (levels_total C (S l) n) (forces_mts C l)) by auto 10.
      by rewrite (kick_fadd_comm c (levels_total C (S l) n)).
    + rewrite <- E. auto.
Qed.

End Absorb.

Lemma Z2Qc_1 : Z2Qc 1 = 1.
Proof. apply Qc_is_canon. reflexivity. Qed.

Lemma half_step_coefficient (d alpha : Qc) :
  alpha = 1 → d / (two * (alpha * Z2Qc 1)) = d * half.
Proof.
  intros ->. rewrite Z2Qc_1. replace (two * (1 * 1)) with two by ring.
  unfold Qcdiv. by rewrite half_inv_two.
Qed.

Section MtsAgainstNve.

Context (C : Collaborators).

Lemma sys_kick_constrain l a e :
  dt e / a = dt e * half →
  sys (NVEEnsemble_pconstraints (MTSEnsemble_pstep C l a e))
  = constrained (fixcom e) (fixatoms e) (kick_sys (dt e * half) (forces_mts C l) (sys e))
  ∧ cfg (NVEEnsemble_pconstraints (MTSEnsemble_pstep C l a e)) = cfg e.
Proof.
  intros Ha. split.
  - rewrite sys_pconstraints. unfold MTSEnsemble_pstep, kick. simpl. by rewrite Ha.
  - by rewrite cfg_pconstraints.
Qed.

Lemma centroid_update_ext (f g : Qc → Qc) s :
  (∀ x, f x = g x) → centroid_update C f s = centroid_update C g s.
Proof.
  intros H. unfold centroid_update. do 4 f_equal. by apply map_ext.
Qed.

Lemma sys_qc_free alpha e :
  alpha * Z2Qc 1 = 1 →
  sys (nm_free_qstep_call C (MTSEnsemble_qcstep C (alpha * Z2Qc 1) e))
  = qf_sys C (dt e) (nm_dt e) (sys e)
  ∧ cfg (nm_free_qstep_call C (MTSEnsemble_qcstep C (alpha * Z2Qc 1) e)) = cfg e.
Proof.
  intros Ha. split; [|reflexivity]. unfold qf_sys. simpl. f_equal.
  apply centroid_update_ext. intros x. rewrite Ha. unfold Qcdiv. field.
  intros H. apply (f_equal this) in H. discriminate H.
Qed.

(** [mtsprop] with every factor 1, on the shared objects. *)
Lemma mtsprop_from_ones (n : nat) :
  ∀ (factors : list Z) (l : nat) (alpha : Qc) (e : Ensemble),
    alpha = 1 →
    Forall (eq 1%Z) factors →
    (n < length factors)%nat →
    forces_nmtslevels C = Z.of_nat (l + n + 1) →
    ∃ e', mtsprop_from C factors l alpha e = Some e'
          ∧ cfg e' = cfg e
          ∧ sys e' = mts_sys C (constrained (fixcom e) (fixatoms e))
                       (dt e * half) (dt e) (nm_dt e) l n (sys e).
Proof.
  induction n as [|n IH]; intros factors l alpha e Ha Hones Hlen HL;
    destruct factors as [|f rest]; simpl in Hlen; try lia;
    apply Forall_cons in Hones as [<- Hones];
    cbn [mtsprop_from]; change (Z.to_nat 1) with 1%nat; cbn [repeat_steps];
    assert (Ha1 : alpha * Z2Qc 1 = 1) by (rewrite Ha, Z2Qc_1; ring);
    pose proof (half_step_coefficient (dt e) alpha Ha) as Hc;
    destruct (sys_kick_constrain l (two * (alpha * Z2Qc 1)) e Hc) as [Hs1 Hc1];
    set (e1 := NVEEnsemble_pconstraints
                 (MTSEnsemble_pstep C l (two * (alpha * Z2Qc 1)) e)) in *.
  - replace (Z.of_nat l =? forces_nmtslevels C - 1)%Z with true
      by (symmetry; apply Z.eqb_eq; lia).
    destruct (sys_qc_free alpha e1 Ha1) as [Hs2 Hc2].
    set (e2 := nm_free_qstep_call C (MTSEnsemble_qcstep C (alpha * Z2Qc 1) e1)) in *.
    assert (Hc3 : dt e2 / (two * (alpha * Z2Qc 1)) = dt e2 * half)
      by apply (half_step_coefficient _ _ Ha).
    destruct (sys_kick_constrain l (two * (alpha * Z2Qc 1)) e2 Hc3) as [Hs3 Hc3'].
    eexists. split; [reflexivity|]. split; [congruence|].
    rewrite Hs3, Hs2, Hs1.
    rewrite (cfg_fixcom _ _ Hc2), (cfg_fixatoms _ _ Hc2), (cfg_dt _ _ Hc2),
            (cfg_fixcom _ _ Hc1), (cfg_fixatoms _ _ Hc1), (cfg_dt _ _ Hc1),
            (cfg_nm_dt _ _ Hc1).
    reflexivity.
  - replace (Z.of_nat l =? forces_nmtslevels C - 1)%Z with false
      by (symmetry; apply Z.eqb_neq; lia).
    destruct (IH rest (S l) (alpha * Z2Qc 1) e1 Ha1 Hones ltac:(lia) ltac:(lia))
      as (e2 & -> & Hc2 & Hs2).
    assert (Hc3 : dt e2 / (two * (alpha * Z2Qc 1)) = dt e2 * half)
      by apply (half_step_coefficient _ _ Ha).
    destruct (sys_kick_constrain l (two * (alpha * Z2Qc 1)) e2 Hc3) as [Hs3 Hc3'].
    eexists. split; [reflexivity|]. split; [congruence|].
    rewrite Hs3, Hs2, Hs1.
    rewrite (cfg_fixcom _ _ Hc2), (cfg_fixatoms _ _ Hc2), (cfg_dt _ _ Hc2),
            (cfg_fixcom _ _ Hc1), (cfg_fixatoms _ _ Hc1), (cfg_dt _ _ Hc1),
            (cfg_nm_dt _ _ Hc1).
    reflexivity.
Qed.

End MtsAgainstNve.

(** *** Fixed atoms: a constraint pass before a kick is absorbed *)

Lemma fix_zero_lookup_all fa (l : list Qc) (j : nat) :
  fix_zero fa l !! j
  = if decide (j ∈ fix_idx 0 fa ∨ j ∈ fix_idx 1 fa ∨ j ∈ fix_idx 2 fa)
    then (fun _ => 0) <$> (l !! j) else l !! j.
Proof.
  unfold fix_zero. rewrite !scatter0_lookup.
  destruct (decide (j ∈ fix_idx 0 fa)), (decide (j ∈ fix_idx 1 fa)),
    (decide (j ∈ fix_idx 2 fa)); case_decide; try tauto;
    destruct (l !! j); reflexivity.
Qed.

Lemma fix_zero_absorb_row fa c (r fr : list Qc) :
  fix_zero fa (zip_with (fun x y => x + y * c) (fix_zero fa r) fr)
  = fix_zero fa (zip_with (fun x y => x + y * c) r fr).
Proof.
  apply list_eq. intros j. rewrite !fix_zero_lookup_all, !lookup_zip_with.
  rewrite fix_zero_lookup_all. case_decide; [|done].
  destruct (r !! j), (fr !! j); reflexivity.
Qed.

Lemma fix_zero_absorb fa c (f x : array) :
  map (fix_zero fa) (axpy c f (map (fix_zero fa) x))
  = map (fix_zero fa) (axpy c f x).
Proof.
  unfold axpy. revert f. induction x as [|r x IH]; intros [|fr f]; try done.
  simpl. f_equal; [apply fix_zero_absorb_row | apply IH].
Qed.

Lemma absorb_fixed_atoms fa c f s :
  constrained false fa (kick_sys c f (constrained false fa s))
  = constrained false fa (kick_sys c f s).
Proof.
  unfold constrained. case_decide; [|reflexivity].
  unfold kick_sys, set_p. simpl. by rewrite fix_zero_absorb.
Qed.

(** *** Centre of mass: a constraint pass before a kick is absorbed *)

Lemma at0_zip c (r fr : list Qc) (j : nat) :
  (j < length r)%nat → (j < length fr)%nat →
  at0 (zip_with (fun x y => x + y * c) r fr) j = at0 r j + at0 fr j * c.
Proof.
  intros Hr Hf. unfold at0. rewrite lookup_zip_with.
  destruct (lookup_lt_is_Some_2 r j Hr) as [x ->].
  destruct (lookup_lt_is_Some_2 fr j Hf) as [y ->]. reflexivity.
Qed.

Lemma com_row_length na mr c0 c1 c2 row :
  length (com_row na mr c0 c1 c2 row) = length row.
Proof. unfold com_row. by rewrite !sub_stride3_row_length. Qed.

Lemma at0_com_row na mr c0 c1 c2 row a k :
  length row = (3 * na)%nat → (a < na)%nat → (k < 3)%nat →
  at0 (com_row na mr c0 c1 c2 row) (3 * a + k)
  = at0 row (3 * a + k) - at0 mr a * at0 [c0; c1; c2] k.
Proof.
  intros Hlen Ha Hk. unfold com_row.
  rewrite !at0_sub_stride3_row by (rewrite ?sub_stride3_row_length; done).
  destruct k as [|[|[|k]]]; try lia; simpl; unfold at0; simpl; ring.
Qed.

Lemma list_eq_at0 (l1 l2 : list Qc) :
  length l1 = length l2 →
  (∀ j, (j < length l1)%nat → at0 l1 j = at0 l2 j) →
  l1 = l2.
Proof.
  intros Hlen H. apply (list_eq_same_length _ _ (length l1)); [done | done |].
  intros j x y Hj Hx Hy. specialize (H j Hj). unfold at0 in H.
  by rewrite Hx, Hy in H.
Qed.

Lemma sum_stride3_zip c k na (r fr : list Qc) :
  length r = (3 * na)%nat → length fr = (3 * na)%nat → (k < 3)%nat →
  sumQc (stride3 k na (zip_with (fun x y => x + y * c) r fr))
  = sumQc (stride3 k na r) + c * sumQc (stride3 k na fr).
Proof.
  intros Hr Hf Hk. unfold stride3.
  transitivity (sumQc (map (fun a => at0 r (3 * a + k) - at0 fr (3 * a + k) * (- c))
                          (seq 0 na))).
  - apply sumQc_map_ext. intros a Ha. apply elem_of_seq in Ha.
    rewrite at0_zip by lia. ring.
  - rewrite sumQc_map_sub. ring.
Qed.

Lemma sum_stride3_axpy c k nb na (f y : array) :
  shaped nb na y → shaped nb na f → (k < 3)%nat →
  sum_stride3 k na (axpy c f y) = sum_stride3 k na y + c * sum_stride3 k na f.
Proof.
  intros [Hly Hy] [Hlf Hf] Hk. unfold sum_stride3, axpy.
  assert (Hl : length y = length f) by congruence. clear Hly Hlf.
  revert f Hf Hl. induction Hy as [|r y Hr Hy IH]; intros [|fr f] Hf Hl; try done.
  - simpl. ring.
  - apply Forall_cons in Hf as [Hfr Hf]. simpl.
    rewrite sum_stride3_zip by done.
    rewrite IH by (simpl in Hl; auto with lia). ring.
Qed.

Lemma shaped_axpy c nb na (f y : array) :
  shaped nb na y → shaped nb na f → shaped nb na (axpy c f y).
Proof.
  intros [Hly Hy] [Hlf Hf]. unfold axpy. split.
  - rewrite length_zip_with. lia.
  - assert (Hl : length y = length f) by congruence. clear Hly Hlf.
    revert f Hf Hl. induction Hy as [|r y Hr Hy IH]; intros [|fr f] Hf Hl; try done.
    apply Forall_cons in Hf as [Hfr Hf]. simpl. constructor.
    + rewrite length_zip_with. lia.
    + apply IH; [done | simpl in Hl; lia].
Qed.

Lemma shaped_aadd nb na (f g : array) :
  shaped nb na f → shaped nb na g → shaped nb na (aadd f g).
Proof.
  intros [Hlf Hf] [Hlg Hg]. unfold aadd. split.
  - rewrite length_zip_with. lia.
  - assert (Hl : length f = length g) by congruence. clear Hlf Hlg.
    revert g Hg Hl. induction Hf as [|r f Hr Hf IH]; intros [|gr g] Hg Hl; try done.
    apply Forall_cons in Hg as [Hgr Hg]. simpl. constructor.
    + rewrite length_zip_with. lia.
    + apply IH; [done | simpl in Hl; lia].
Qed.

Lemma com_row_absorb_row c na mr (c0 c1 c2 a0 a1 a2 b0 b1 b2 : Qc) (r fr : list Qc) :
  length mr = na → length r = (3 * na)%nat → length fr = (3 * na)%nat →
  b0 = c0 + a0 → b1 = c1 + a1 → b2 = c2 + a2 →
  com_row na mr a0 a1 a2 (zip_with (fun x y => x + y * c) (com_row na mr c0 c1 c2 r) fr)
  = com_row na mr b0 b1 b2 (zip_with (fun x y => x + y * c) r fr).
Proof.
  intros Hm Hr Hf -> -> ->. apply list_eq_at0.
  - rewrite !com_row_length, !length_zip_with, com_row_length. done.
  - intros j Hj.
    rewrite com_row_length, length_zip_with, com_row_length, Hr, Hf in Hj.
    assert (Hdm : j = (3 * (j / 3) + j mod 3)%nat) by apply Nat.div_mod_eq.
    assert (Hk : (j mod 3 < 3)%nat) by (apply Nat.mod_upper_bound; lia).
    assert (Ha : (j / 3 < na)%nat) by (apply Nat.Div0.div_lt_upper_bound; lia).
    rewrite Hdm.
    rewrite !at0_com_row
      by (rewrite ?length_zip_with, ?com_row_length; lia).
    rewrite !at0_zip by (rewrite ?com_row_length; lia).
    rewrite at0_com_row by done.
    destruct (j mod 3) as [|[|[|k]]]; try lia;
      change (at0 [c0; c1; c2] 0) with c0; change (at0 [c0; c1; c2] 1) with c1;
      change (at0 [c0; c1; c2] 2) with c2;
      change (at0 [a0; a1; a2] 0) with a0; change (at0 [a0; a1; a2] 1) with a1;
      change (at0 [a0; a1; a2] 2) with a2;
      change (at0 [c0 + a0; c1 + a1; c2 + a2] 0) with (c0 + a0);
      change (at0 [c0 + a0; c1 + a1; c2 + a2] 1) with (c1 + a1);
      change (at0 [c0 + a0; c1 + a1; c2 + a2] 2) with (c2 + a2); ring.
Qed.

Lemma com_row_absorb c na mr (c0 c1 c2 a0 a1 a2 b0 b1 b2 : Qc) (f x : array) :
  length mr = na →
  Forall (fun r => length r = (3 * na)%nat) x →
  Forall (fun r => length r = (3 * na)%nat) f →
  b0 = c0 + a0 → b1 = c1 + a1 → b2 = c2 + a2 →
  map (com_row na mr a0 a1 a2) (axpy c f (map (com_row na mr c0 c1 c2) x))
  = map (com_row na mr b0 b1 b2) (axpy c f x).
Proof.
  intros Hm Hx Hf E0 E1 E2. unfold axpy. revert f Hf.
  induction Hx as [|r x Hr Hx IH]; intros [|fr f] Hf; try done.
  apply Forall_cons in Hf as [Hfr Hf]. simpl. f_equal; [|by apply IH].
  by apply com_row_absorb_row.
Qed.

Lemma good_sys_wf nb m0 s : good_sys nb m0 s → wf_shape s ∧ beads_nbeads s = nb.
Proof.
  intros [[Hl Hs] Hm]. unfold wf_shape, beads_nbeads, beads_natoms. by rewrite Hm.
Qed.

Lemma good_kick c nb m0 f s :
  shaped_field nb (length m0) f → good_sys nb m0 s → good_sys nb m0 (kick_sys c f s).
Proof.
  intros Hf [Hs Hm]. split; [|exact Hm]. simpl. apply shaped_axpy; [done | apply Hf].
Qed.

Lemma good_com nb m0 s :
  good_sys nb m0 s → good_sys nb m0 (constrained true [] s).
Proof.
  intros [[Hl Hs] Hm]. unfold constrained. simpl. split; [|exact Hm]. simpl.
  rewrite com_remove_rows. split.
  - by rewrite length_map.
  - apply Forall_fmap. eapply Forall_impl; [exact Hs|].
    intros r Hr. simpl. by rewrite com_row_length.
Qed.

Lemma absorb_com c nb m0 f s :
  (0 < nb)%nat → sumQc m0 ≠ 0 →
  shaped_field nb (length m0) f → good_sys nb m0 s →
  constrained true [] (kick_sys c f (constrained true [] s))
  = constrained true [] (kick_sys c f s).
Proof.
  intros Hnb HM Hf Hgood.
  pose proof (good_com nb m0 s Hgood) as Hgood1.
  pose proof (good_kick c nb m0 f _ Hf Hgood1) as Hgood2.
  pose proof (good_kick c nb m0 f _ Hf Hgood) as Hgood3.
  destruct (good_sys_wf _ _ _ Hgood) as [Hwf Hn].
  destruct (good_sys_wf _ _ _ Hgood2) as [Hwf2 Hn2].
  destruct (good_sys_wf _ _ _ Hgood3) as [Hwf3 Hn3].
  destruct Hgood as [Hshape Hm]. destruct Hgood1 as [Hshape1 _].
  unfold constrained in *. simpl in Hn2, Hwf2, Hshape1 |- *.
  unfold set_p at 1 3. simpl. f_equal.
  rewrite (com_remove_rows (kick_sys c f (set_p (com_remove s) s))),
          (com_remove_rows (kick_sys c f s)).
  rewrite Hn2, Hn3.
  change (beads_natoms (kick_sys c f (set_p (com_remove s) s))) with (beads_natoms s).
  change (beads_natoms (kick_sys c f s)) with (beads_natoms s).
  change (beads_M (kick_sys c f (set_p (com_remove s) s))) with (beads_M s).
  change (beads_M (kick_sys c f s)) with (beads_M s).
  change (m (kick_sys c f (set_p (com_remove s) s))) with (m s).
  change (m (kick_sys c f s)) with (m s).
  change (p (kick_sys c f (set_p (com_remove s) s)))
    with (axpy c (f (q s) (h s)) (com_remove s)).
  change (p (kick_sys c f s)) with (axpy c (f (q s) (h s)) (p s)).
  assert (Hna : beads_natoms s = length m0) by (unfold beads_natoms; by rewrite Hm).
  assert (HMs : beads_M s ≠ 0) by (unfold beads_M; by rewrite Hm).
  assert (Hsum : ∀ k, (k < 3)%nat →
            sum_stride3 k (beads_natoms s) (axpy c (f (q s) (h s)) (com_remove s))
            = c * sum_stride3 k (beads_natoms s) (f (q s) (h s))).
  { intros k Hk. rewrite Hna.
    rewrite (sum_stride3_axpy c k nb (length m0)) by (done || apply Hf).
    rewrite <- Hna, sum_stride3_com_remove by (done || lia). ring. }
  assert (Hsum' : ∀ k, (k < 3)%nat →
            sum_stride3 k (beads_natoms s) (axpy c (f (q s) (h s)) (p s))
            = sum_stride3 k (beads_natoms s) (p s)
              + c * sum_stride3 k (beads_natoms s) (f (q s) (h s))).
  { intros k Hk. rewrite Hna.
    apply (sum_stride3_axpy c k nb (length m0)); (done || apply Hf). }
  rewrite !Hsum, !Hsum' by lia.
  rewrite (com_remove_rows s), Hn.
  unfold kick_sys, set_p. simpl. f_equal.
  apply com_row_absorb.
  - done.
  - rewrite Hna. apply Hshape.
  - rewrite Hna. apply Hf.
  - ring.
  - ring.
  - ring.
Qed.

(** *** The two steps on the shared objects *)

Section StepsCompared.

Context (C : Collaborators).

Lemma sys_NVE_step e :
  sys (NVEEnsemble_step C e)
  = constrained (fixcom e) (fixatoms e)
      (kick_sys (dt e * half) (fadd (forces_f C) (bias_f C))
         (qf_sys C (dt e) (nm_dt e)
            (constrained (fixcom e) (fixatoms e)
               (kick_sys (dt e * half) (fadd (forces_f C) (bias_f C)) (sys e))))).
Proof.
  unfold NVEEnsemble_step.
  set (e1 := NVEEnsemble_pconstraints (NVEEnsemble_pstep C e)).
  assert (Hc1 : cfg e1 = cfg e) by (unfold e1; by rewrite cfg_pconstraints).
  assert (Hs1 : sys e1 = constrained (fixcom e) (fixatoms e)
                           (kick_sys (dt e * half) (fadd (forces_f C) (bias_f C)) (sys e))).
  { unfold e1. rewrite sys_pconstraints, <- kick_kick. reflexivity. }
  rewrite sys_pconstraints.
  change (fixcom (NVEEnsemble_pstep C (nm_free_qstep_call C (NVEEnsemble_qcstep C e1))))
    with (fixcom e1).
  change (fixatoms (NVEEnsemble_pstep C (nm_free_qstep_call C (NVEEnsemble_qcstep C e1))))
    with (fixatoms e1).
  change (sys (NVEEnsemble_pstep C (nm_free_qstep_call C (NVEEnsemble_qcstep C e1))))
    with (kick_sys (dt e1 * half) (bias_f C)
            (kick_sys (dt e1 * half) (forces_f C) (qf_sys C (dt e1) (nm_dt e1) (sys e1)))).
  rewrite kick_kick, Hs1.
  by rewrite (cfg_fixcom _ _ Hc1), (cfg_fixatoms _ _ Hc1), (cfg_dt _ _ Hc1),
             (cfg_nm_dt _ _ Hc1).
Qed.

Lemma kick_sys_ext c (f g : array → array → array) s :
  (∀ q_ h_, f q_ h_ = g q_ h_) → kick_sys c f s = kick_sys c g s.
Proof. intros H. unfold kick_sys. by rewrite H. Qed.

Context (good : Sys → Prop) (ok : (array → array → array) → Prop).

Lemma MTS_step_is_NVE_step (e : Ensemble) (L' : nat) :
  let P := constrained (fixcom e) (fixatoms e) in
  let c := dt e * half in
  (∀ f s, ok f → good s → P (kick_sys c f (P s)) = P (kick_sys c f s)) →
  (∀ s, good s → good (P s)) →
  (∀ f s, ok f → good s → good (kick_sys c f s)) →
  (∀ s, good s → good (qf_sys C (dt e) (nm_dt e) s)) →
  (∀ f g, ok f → ok g → ok (fadd f g)) →
  (∀ l, ok (forces_mts C l)) →
  ok (bias_f C) →
  good (sys e) →
  (∀ w s, thermostat_step C w s = s) →
  Forall (eq 1%Z) (mtsintegfactors e) →
  (L' < length (mtsintegfactors e))%nat →
  forces_nmtslevels C = Z.of_nat (S L') →
  (∀ q_ h_, forces_f C q_ h_ = levels_total C 0 L' q_ h_) →
  ∃ e', MTSEnsemble_step C e = Some e' ∧ sys e' = sys (NVEEnsemble_step C e).
Proof.
  intros P c Habs HgP Hgk Hgq Hokadd Hokl Hokb Hgood Hthermo Hones Hlen HL Hsum.
  unfold MTSEnsemble_step, MTSEnsemble_mtsprop.
  set (e1 := called CBiasKick
               (kick (dt (NVEEnsemble_pconstraints (thermostat_step_call C e)) * half)
                  (bias_f C) (NVEEnsemble_pconstraints (thermostat_step_call C e)))).
  assert (Hc1 : cfg e1 = cfg e).
  { transitivity (cfg (NVEEnsemble_pconstraints (thermostat_step_call C e)));
      [reflexivity | by rewrite cfg_pconstraints]. }
  assert (Hs1 : sys e1 = kick_sys c (bias_f C) (P (sys e))).
  { unfold e1. cbn [sys called kick set_sys].
    rewrite (cfg_dt _ _ (cfg_pconstraints _)), sys_pconstraints.
    cbn [sys thermostat_step_call called set_sys fixcom fixatoms dt].
    by rewrite Hthermo. }
  rewrite drop_0.
  destruct (mtsprop_from_ones C L' (mtsintegfactors e1) 0 1 e1 eq_refl)
    as (e2 & -> & Hc2 & Hs2).
  { by rewrite (cfg_factors _ _ Hc1). }
  { by rewrite (cfg_factors _ _ Hc1). }
  { rewrite HL. f_equal. lia. }
  eexists. split; [reflexivity|].
  rewrite sys_pconstraints.
  cbn [sys thermostat_step_call called set_sys fixcom fixatoms dt kick].
  rewrite Hthermo, Hs2, Hs1.
  rewrite (cfg_fixcom _ _ Hc2), (cfg_fixatoms _ _ Hc2), (cfg_dt _ _ Hc2),
          (cfg_fixcom _ _ Hc1), (cfg_fixatoms _ _ Hc1), (cfg_dt _ _ Hc1),
          (cfg_nm_dt _ _ Hc1).
  fold P. fold c.
  assert (Hg1 : good (kick_sys c (bias_f C) (P (sys e)))) by auto.
  destruct (mts_sys_total C P good ok c (dt e) (nm_dt e) Habs HgP Hgk Hgq Hokadd Hokl
              L' 0 _ Hg1) as [Hm _].
  pose proof (ok_total C ok Hokadd Hokl 0 L') as Hokt.
  set (X := mts_sys C P c (dt e) (nm_dt e) 0 L' (kick_sys c (bias_f C) (P (sys e)))) in *.
  change (P (kick_sys c (bias_f C) X) = sys (NVEEnsemble_step C e)).
  rewrite Hm.
  rewrite sys_NVE_step. fold P. fold c.
  rewrite (kick_sys_ext c (fadd (forces_f C) (bias_f C))
             (fadd (levels_total C 0 L') (bias_f C)))
    by (intros; unfold fadd; by rewrite Hsum).
  rewrite (kick_sys_ext c (fadd (forces_f C) (bias_f C))
             (fadd (levels_total C 0 L') (bias_f C)) (sys e))
    by (intros; unfold fadd; by rewrite Hsum).
  rewrite (kick_kick c (bias_f C) (levels_total C 0 L') (P (sys e))).
  rewrite (Habs (fadd (bias_f C) (levels_total C 0 L')) (sys e)) by auto.
  rewrite (kick_fadd_comm c (bias_f C)).
  set (u := qf_sys C (dt e) (nm_dt e)
              (P (kick_sys c (fadd (levels_total C 0 L') (bias_f C)) (sys e)))).
  assert (Hu : good u) by (unfold u; auto 10).
  rewrite (Habs (bias_f C) (kick_sys c (levels_total C 0 L') u)) by auto.
  by rewrite kick_kick.
Qed.

End StepsCompared.

Lemma fold_mul_ones (l : list Z) : Forall (eq 1%Z) l → fold_left Z.mul l 1%Z = 1%Z.
Proof. induction 1 as [|x l <- _ IH]; [done|]. simpl. exact IH. Qed.

Lemma set_nm_dt_same e : set_nm_dt (nm_dt e) e = e.
Proof. by destruct e. Qed.

(** With every factor 1, [MTSEnsemble.bind] leaves the ensemble exactly as
    the inherited binding does: [deltat = dt/1]. *)
Lemma MTS_bind_ones (s : Sys) (e : Ensemble) :
  Forall (eq 1%Z) (mtsintegfactors e) →
  MTSEnsemble_bind s e = Ensemble_bind NVEEnsemble_pconstraints s e.
Proof.
  intros Hones. unfold MTSEnsemble_bind.
  set (e1 := Ensemble_bind NVEEnsemble_pconstraints s e).
  assert (Hc : cfg e1 = cfg (set_nm_dt (dt e) (set_sys s e)))
    by apply cfg_pconstraints.
  assert (Hf : mtsintegfactors e1 = mtsintegfactors e) by apply (cfg_factors _ _ Hc).
  assert (Hd : dt e1 = dt e) by apply (cfg_dt _ _ Hc).
  assert (Hn : nm_dt e1 = dt e) by apply (cfg_nm_dt _ _ Hc).
  unfold MTS_inmts. rewrite Hf, fold_mul_ones, Z2Qc_1 by done.
  replace (dt e1 / 1) with (nm_dt e1).
  - apply set_nm_dt_same.
  - rewrite Hn, Hd. unfold Qcdiv. field. intros H. apply (f_equal this) in H. discriminate H.
Qed.

(** C1, as stated, fails: [MTSEnsemble.step] runs its thermostat twice and
    [NVEEnsemble.step] has none.  With a thermostat that halves the momenta,
    one factor 1 and zero forces, the first momentum is 1/4 after the MTS
    step and 1 after the NVE step. *)
Lemma C1_counterexample_thermostat :
  Forall (eq 1%Z) (mtsintegfactors (ens_two_atoms false [])) ∧
  this (at0 (default [] (p (sys (default (ens_two_atoms false [])
          (MTSEnsemble_step halving
             (MTSEnsemble_bind sys_two_atoms (ens_two_atoms false []))))) !! 0%nat)) 0)
  = (1 # 4)%Q ∧
  this (at0 (default [] (p (sys (NVEEnsemble_step halving
          (Ensemble_bind NVEEnsemble_pconstraints sys_two_atoms
             (ens_two_atoms false [])))) !! 0%nat)) 0)
  = 1%Q ∧
  p (sys (default (ens_two_atoms false [])
       (MTSEnsemble_step halving (MTSEnsemble_bind sys_two_atoms (ens_two_atoms false [])))))
  ≠ p (sys (NVEEnsemble_step halving
       (Ensemble_bind NVEEnsemble_pconstraints sys_two_atoms (ens_two_atoms false [])))).
Proof.
  split; [repeat constructor|]. split; [vm_compute; reflexivity|].
  split; [vm_compute; reflexivity|].
  intros H. apply (f_equal (fun a => this (at0 (default [] (a !! 0%nat)) 0))) in H.
  vm_compute in H. discriminate H.
Qed.

(** With centre-of-mass fixing and a fixed atom at once, a second constraint
    pass is not idle, and the two steps differ even without a thermostat. *)
Lemma MTS_differs_with_both_constraints :
  p (sys (default (ens_two_atoms true [0%nat])
       (MTSEnsemble_step (idle 1)
          (MTSEnsemble_bind sys_two_atoms (ens_two_atoms true [0%nat])))))
  ≠ p (sys (NVEEnsemble_step (idle 1)
       (Ensemble_bind NVEEnsemble_pconstraints sys_two_atoms (ens_two_atoms true [0%nat])))).
Proof.
  intros H. apply (f_equal (fun a => this (at0 (default [] (a !! 0%nat)) 3))) in H.
  vm_compute in H. discriminate H.
Qed.

(** In float64 the two orders of the force kick and the bias kick round
    differently: the NVE order gives 1 + 2^-52, the MTS order 1 + 2^-51. *)
Lemma float64_kick_order_matters :
  PrimFloat.eqb
    (Float64.nve_half_kick Float64.p_one Float64.f_small Float64.b_small Float64.dt_one)
    (Float64.mts_half_kick Float64.p_one Float64.f_small Float64.b_small Float64.dt_one)
  = false.
Proof. vm_compute. reflexivity. Qed.

(** C1, amended: with every factor 1 (at least one per force level), a
    thermostat whose step changes nothing, level forces that add up to the
    total force, and momentum constraints that are either without
    centre-of-mass fixing or centre-of-mass fixing alone on well-shaped
    arrays with nonzero total mass, one [MTSEnsemble.step] after
    [MTSEnsemble.bind] leaves the positions, momenta and cell that one
    [NVEEnsemble.step] leaves after the inherited binding of the same
    objects (in exact arithmetic). *)
Theorem C1_mts_all_ones_is_nve
    (C : Collaborators) (s : Sys) (e : Ensemble) (L' nb : nat) (m0 : list Qc) :
  (∀ w s', thermostat_step C w s' = s') →
  Forall (eq 1%Z) (mtsintegfactors e) →
  (L' < length (mtsintegfactors e))%nat →
  forces_nmtslevels C = Z.of_nat (S L') →
  (∀ q_ h_, forces_f C q_ h_ = levels_total C 0 L' q_ h_) →
  (fixcom e = false ∨
   (fixcom e = true ∧ fixatoms e = [] ∧ com_contract C nb m0 ∧ good_sys nb m0 s)) →
  ∃ e', MTSEnsemble_step C (MTSEnsemble_bind s e) = Some e'
        ∧ sys e' = sys (NVEEnsemble_step C (Ensemble_bind NVEEnsemble_pconstraints s e)).
Proof.
  intros Hthermo Hones Hlen HL Hsum Hcons.
  rewrite (MTS_bind_ones s e Hones).
  set (e1 := Ensemble_bind NVEEnsemble_pconstraints s e).
  assert (Hc : cfg e1 = cfg (set_nm_dt (dt e) (set_sys s e)))
    by apply cfg_pconstraints.
  assert (Hfc : fixcom e1 = fixcom e) by apply (cfg_fixcom _ _ Hc).
  assert (Hfa : fixatoms e1 = fixatoms e) by apply (cfg_fixatoms _ _ Hc).
  assert (Hf : mtsintegfactors e1 = mtsintegfactors e) by apply (cfg_factors _ _ Hc).
  destruct Hcons as [Hno | (Hyes & Hnofix & Hcontract & Hgood)].
  - apply (MTS_step_is_NVE_step C (fun _ => True) (fun _ => True) e1 L');
      rewrite ?Hfc, ?Hfa, ?Hf, ?Hno; auto.
    intros f s' _ _. apply absorb_fixed_atoms.
  - destruct Hcontract as (Hnb & HM & Hlev & Hbias & Hfree).
    apply (MTS_step_is_NVE_step C (good_sys nb m0) (shaped_field nb (length m0)) e1 L');
      rewrite ?Hfc, ?Hfa, ?Hf, ?Hyes, ?Hnofix; auto.
    + intros f s' Hf' Hs'. by apply (absorb_com _ nb m0).
    + apply good_com.
    + intros f s' Hf' Hs'. by apply good_kick.
    + intros s' [Hs' Hm']. apply Hfree. split; [exact Hs' | exact Hm'].
    + intros f g Hf' Hg' q_ h_. apply shaped_aadd; [apply Hf' | apply Hg'].
    + unfold e1, Ensemble_bind. rewrite sys_pconstraints. simpl.
      rewrite Hyes, Hnofix. by apply good_com.
Qed.

Lemma C1_mts_all_ones_is_nve_witness :
  ∃ e', MTSEnsemble_step (idle 1) (MTSEnsemble_bind sys_two_atoms (ens_two_atoms true []))
        = Some e'
        ∧ sys e' = sys (NVEEnsemble_step (idle 1)
                          (Ensemble_bind NVEEnsemble_pconstraints sys_two_atoms
                             (ens_two_atoms true []))).
Proof.
  apply (C1_mts_all_ones_is_nve (idle 1) sys_two_atoms (ens_two_atoms true [])
           0 1 [1; 1]).
  - intros w s'. reflexivity.
  - repeat constructor.
  - simpl. lia.
  - reflexivity.
  - intros q_ h_. reflexivity.
  - right. split; [reflexivity|]. split; [reflexivity|]. split.
    + split; [lia|]. split; [qc_neq|]. split; [|split].
      * intros l q_ h_. split; [reflexivity | repeat constructor].
      * intros q_ h_. split; [reflexivity | repeat constructor].
      * intros tau s' Hs'. exact Hs'.
    + split; [|reflexivity]. split; [reflexivity | repeat constructor].
Defined.


Lemma C8_replay_exhausts_source_witness :
  (∀ k set, [[frame_a]; [frame_b]] !! k = Some set →
     ∃ r', replay_run (S k) replay_two_frames = Returned r'
           ∧ q (sys (base r')) = frame_positions two set
           ∧ p (sys (base r')) = p (sys (base replay_two_frames))) ∧
  (∃ r', replay_run 3 replay_two_frames = SoftExit FinishedTrajectory r').
Proof.
  apply (C8_replay_exhausts_source replay_two_frames [[frame_a]; [frame_b]]).
  - left. reflexivity.
  - simpl. discriminate.
  - repeat constructor.
  - reflexivity.
Defined.

(** Which boundary: a soft exit from inside the third step restarts from the
    snapshot taken before it (two completed steps, not the half-applied
    state); the [EXIT] file seen after the third step restarts after it. *)
Lemma restart_examples :
  (∃ x', Simulation_run S world_soft_exit_in_third sim_fresh = Halted x'
         ∧ sim_restart x' = Some (mkChk 2%nat 2%Z)) ∧
  (∃ x', Simulation_run S world_exit_file_after_third sim_fresh = Halted x'
         ∧ sim_restart x' = Some (mkChk 3%nat 3%Z)).
Proof. split; eexists; split; reflexivity. Qed.

(** ** Constant pressure and constant stress *)

(** [NPTEnsemble.step] and [NSTEnsemble.step] make the same calls in the same
    order. *)
Lemma NPT_NST_same_calls (C : Collaborators) (e : Ensemble) :
  calls_since e (NPTEnsemble_step C e) = calls_since e (NSTEnsemble_step C e).
Proof.
  unfold NPTEnsemble_step, NSTEnsemble_step.
  by rewrite !(extends_calls_since _ _ _ (extends_barostat_step C _ e)).
Qed.

(** What the two bindings hand to the barostat differs in the target and in
    the bias. *)
Lemma NPT_NST_wiring (e : Ensemble) :
  bw_temp (NST_wiring e) = bw_temp (NPT_wiring e) ∧
  bw_dt (NST_wiring e) = bw_dt (NPT_wiring e) ∧
  bw_fixdof (NST_wiring e) = bw_fixdof (NPT_wiring e) ∧
  bw_target (NPT_wiring e) = TargetPext (pext e) ∧
  bw_target (NST_wiring e) = TargetStressext (stressext e) ∧
  bw_bias (NPT_wiring e) = false ∧ bw_bias (NST_wiring e) = true.
Proof. repeat split. Qed.

(** If the barostat does with the one wiring what it does with the other, the
    two steps are the same step. *)
Lemma NST_step_is_NPT_step (C : Collaborators) (e : Ensemble) :
  barostat_thermostat_step C (NST_wiring e) = barostat_thermostat_step C (NPT_wiring e) →
  barostat_pstep C (NST_wiring e) = barostat_pstep C (NPT_wiring e) →
  barostat_qcstep C (NST_wiring e) = barostat_qcstep C (NPT_wiring e) →
  NSTEnsemble_step C e = NPTEnsemble_step C e.
Proof.
  intros Ht Hp Hq. unfold NSTEnsemble_step, NPTEnsemble_step, barostat_step, barostat_call.
  by rewrite Ht, Hp, Hq.
Qed.
(** ** Momentum constraints and the energy ledger *)

Lemma sumQc_map_lin3 {A} (f g0 g1 g2 h_ : A → Qc) (c0 c1 c2 d : Qc) (l : list A) :
  sumQc (map (fun a => f a - (c0 * g0 a + c1 * g1 a + c2 * g2 a) + d * h_ a) l)
  = sumQc (map f l)
    - (c0 * sumQc (map g0 l) + c1 * sumQc (map g1 l) + c2 * sumQc (map g2 l))
    + d * sumQc (map h_ l).
Proof. induction l as [|x l IH]; simpl; [ring | rewrite IH; ring]. Qed.

Lemma two_1_1 : two = 1 + 1.
Proof. apply Qc_is_canon. reflexivity. Qed.

Lemma component_kinetic_com na mr c0 c1 c2 row a k :
  length row = (3 * na)%nat → (a < na)%nat → (k < 3)%nat → at0 mr a ≠ 0 →
  component_kinetic mr (com_row na mr c0 c1 c2 row) a k
  = component_kinetic mr row a k
    - at0 [c0; c1; c2] k * at0 row (3 * a + k)
    + (at0 [c0; c1; c2] k * at0 [c0; c1; c2] k / two) * at0 mr a.
Proof.
  intros Hlen Ha Hk Hm. unfold component_kinetic.
  rewrite (Nat.mul_comm a 3), at0_com_row by done.
  pose proof two_neq0 as H2. rewrite two_1_1 in *. field. split; done.
Qed.

Lemma row_kinetic_com na mr c0 c1 c2 row :
  length row = (3 * na)%nat → length mr = na → Forall (fun x => x ≠ 0) mr →
  sumQc (map (fun a => component_kinetic mr (com_row na mr c0 c1 c2 row) a 0
                       + component_kinetic mr (com_row na mr c0 c1 c2 row) a 1
                       + component_kinetic mr (com_row na mr c0 c1 c2 row) a 2) (seq 0 na))
  = sumQc (map (fun a => component_kinetic mr row a 0 + component_kinetic mr row a 1
                         + component_kinetic mr row a 2) (seq 0 na))
    - (c0 * sumQc (stride3 0 na row) + c1 * sumQc (stride3 1 na row)
       + c2 * sumQc (stride3 2 na row))
    + ((c0 * c0 + c1 * c1 + c2 * c2) / two) * sumQc mr.
Proof.
  intros Hlen Hmr Hnz. unfold stride3.
  assert (EM : sumQc mr = sumQc (map (at0 mr) (seq 0 na)))
    by (by rewrite <- Hmr, at0_map_seq).
  rewrite EM.
  rewrite <- sumQc_map_lin3. apply sumQc_map_ext. intros a Ha.
  apply elem_of_seq in Ha.
  assert (Hm : at0 mr a ≠ 0).
  { destruct (lookup_lt_is_Some_2 mr a) as [x Hx]; [lia|].
    rewrite (at0_lookup _ _ _ Hx).
    exact (proj1 (Forall_forall _ _) Hnz x (list_elem_of_lookup_2 _ _ _ Hx)). }
  rewrite !component_kinetic_com by (done || lia).
  change (at0 [c0; c1; c2] 0) with c0. change (at0 [c0; c1; c2] 1) with c1.
  change (at0 [c0; c1; c2] 2) with c2. unfold Qcdiv. ring.
Qed.

(** Removing the centre-of-mass velocity lowers the kinetic energy by
    exactly what the centre-of-mass branch adds to the ledger. *)
Lemma kinetic_com (s : Sys) :
  wf_shape s → (0 < beads_nbeads s)%nat → Forall (fun x => x ≠ 0) (m s) →
  beads_M s ≠ 0 →
  kinetic (set_p (com_remove s) s) + com_energy s = kinetic s.
Proof.
  intros Hwf Hnb Hnz HM. unfold kinetic, fixed_kinetic.
  change (m (set_p (com_remove s) s)) with (m s).
  change (p (set_p (com_remove s) s)) with (com_remove s).
  change (beads_natoms (set_p (com_remove s) s)) with (beads_natoms s).
  rewrite com_remove_rows, <- list_fmap_compose.
  set (na := beads_natoms s).
  set (cc := 1 / (N2Qc (beads_nbeads s) * beads_M s)).
  set (c0 := sum_stride3 0 na (p s) * cc).
  set (c1 := sum_stride3 1 na (p s) * cc).
  set (c2 := sum_stride3 2 na (p s) * cc).
  transitivity
    (sumQc (map (fun row =>
        (fun row => sumQc (map (fun a => component_kinetic (m s) row a 0
                                   + component_kinetic (m s) row a 1
                                   + component_kinetic (m s) row a 2) (seq 0 na))) row
        - (c0 * (fun row => sumQc (stride3 0 na row)) row
           + c1 * (fun row => sumQc (stride3 1 na row)) row
           + c2 * (fun row => sumQc (stride3 2 na row)) row)
        + ((c0 * c0 + c1 * c1 + c2 * c2) / two) * (fun _ => sumQc (m s)) row) (p s))
     + com_energy s).
  - f_equal. apply sumQc_map_ext. intros row Hrow. simpl.
    apply row_kinetic_com; [|done|done].
    exact (proj1 (Forall_forall _ _) Hwf row Hrow).
  - rewrite sumQc_map_lin3, sumQc_map_const.
    unfold com_energy. rewrite dotQc_pcom. unfold total_momentum.
    fold na. fold (sum_stride3 0 na (p s)) (sum_stride3 1 na (p s)) (sum_stride3 2 na (p s)).
    fold (beads_nbeads s) (beads_M s).
    pose proof (N2Qc_pos_neq0 _ Hnb) as Hn. pose proof two_neq0 as H2.
    subst c0 c1 c2 cc. rewrite two_1_1 in *. field. repeat split; done.
Qed.

Lemma sumQc_map_perm {A} (f : A → Qc) (l k : list A) :
  l ≡ₚ k → sumQc (map f l) = sumQc (map f k).
Proof.
  induction 1 as [|x l k _ IH|x y l|l k j _ IH1 _ IH2]; simpl.
  - reflexivity.
  - by rewrite IH.
  - ring.
  - by rewrite IH1.
Qed.

Lemma sumQc_map_filter {A} (P : A → Prop) `{∀ x, Decision (P x)} (f : A → Qc) (l : list A) :
  sumQc (map (fun a => if decide (P a) then f a else 0) l) = sumQc (map f (filter P l)).
Proof.
  induction l as [|x l IH]; [reflexivity|].
  rewrite filter_cons. simpl. rewrite IH. case_decide; simpl; ring.
Qed.

(** Summing over the atoms outside [fa] and then over [fa] is summing over
    all atoms, when [fa] lists atoms that exist, each once. *)
Lemma sumQc_split_atoms (f : nat → Qc) (fa : list nat) (na : nat) :
  NoDup fa → Forall (fun a => (a < na)%nat) fa →
  sumQc (map (fun a => if decide (a ∈ fa) then 0 else f a) (seq 0 na))
  + sumQc (map f fa)
  = sumQc (map f (seq 0 na)).
Proof.
  intros Hnd Hin.
  assert (E : sumQc (map f fa)
              = sumQc (map (fun a => if decide (a ∈ fa) then f a else 0) (seq 0 na))).
  { rewrite sumQc_map_filter. apply sumQc_map_perm. apply NoDup_Permutation.
    - done.
    - apply NoDup_filter, NoDup_seq.
    - intros a. rewrite list_elem_of_filter, elem_of_seq. split; [|tauto].
      intros Ha. split; [done|].
      pose proof (proj1 (Forall_forall _ _) Hin a Ha). simpl in *. lia. }
  rewrite E, <- sumQc_map_plus. apply sumQc_map_ext. intros a _.
  case_decide; ring.
Qed.

Lemma fix_idx_mem (fa : list nat) (a k : nat) :
  (k < 3)%nat →
  ((a * 3 + k)%nat ∈ fix_idx 0 fa ∨ (a * 3 + k)%nat ∈ fix_idx 1 fa
   ∨ (a * 3 + k)%nat ∈ fix_idx 2 fa) ↔ a ∈ fa.
Proof.
  intros Hk. unfold fix_idx. rewrite !list_elem_of_fmap. split.
  - intros [[b [E Hb]]|[[b [E Hb]]|[b [E Hb]]]];
      (replace a with b by lia); done.
  - intros Ha. destruct k as [|[|[|k]]]; try lia;
      [left | right; left | right; right]; by exists a.
Qed.

Lemma component_kinetic_fix (fa : list nat) (mass bp : list Qc) (a k : nat) :
  (k < 3)%nat →
  component_kinetic mass (fix_zero fa bp) a k
  = if decide (a ∈ fa) then 0 else component_kinetic mass bp a k.
Proof.
  intros Hk. unfold component_kinetic, at0 at 1 2.
  rewrite fix_zero_lookup_all.
  destruct (decide (a ∈ fa)) as [Ha|Ha].
  - rewrite decide_True by (by apply fix_idx_mem).
    destruct (bp !! (a * 3 + k)%nat); simpl; unfold Qcdiv; ring.
  - rewrite decide_False by (by rewrite fix_idx_mem).
    reflexivity.
Qed.

(** Zeroing the momenta of the fixed atoms lowers the kinetic energy by
    exactly what the fixed-atom branch adds to the ledger. *)
Lemma kinetic_fix (fa : list nat) (s : Sys) :
  NoDup fa → Forall (fun a => (a < beads_natoms s)%nat) fa →
  kinetic (set_p (map (fix_zero fa) (p s)) s) + fixed_kinetic fa (m s) (p s)
  = kinetic s.
Proof.
  intros Hnd Hin. unfold kinetic, fixed_kinetic.
  change (m (set_p (map (fix_zero fa) (p s)) s)) with (m s).
  change (p (set_p (map (fix_zero fa) (p s)) s)) with (map (fix_zero fa) (p s)).
  change (beads_natoms (set_p (map (fix_zero fa) (p s)) s)) with (beads_natoms s).
  rewrite <- list_fmap_compose, <- sumQc_map_plus.
  apply sumQc_map_ext. intros bp _. simpl.
  rewrite <- (sumQc_split_atoms
                (fun a => component_kinetic (m s) bp a 0 + component_kinetic (m s) bp a 1
                          + component_kinetic (m s) bp a 2) fa (beads_natoms s)) by done.
  f_equal. apply sumQc_map_ext. intros a _.
  rewrite !component_kinetic_fix by lia. case_decide; ring.
Qed.

Lemma com_stage_energy (e : Ensemble) :
  wf_shape (sys e) →
  Forall (fun x => x ≠ 0) (m (sys e)) →
  (fixcom e = true → (0 < beads_nbeads (sys e))%nat ∧ beads_M (sys e) ≠ 0) →
  kinetic (sys (com_stage e)) + eens (com_stage e) = kinetic (sys e) + eens e.
Proof.
  intros Hwf Hnz Hcom. unfold com_stage. destruct (fixcom e); [|reflexivity].
  destruct Hcom as [Hnb HM]; [done|]. simpl.
  rewrite <- (kinetic_com (sys e)) by done. ring.
Qed.

Lemma fix_stage_energy (e : Ensemble) :
  NoDup (fixatoms e) →
  Forall (fun a => (a < beads_natoms (sys e))%nat) (fixatoms e) →
  kinetic (sys (fix_stage e)) + eens (fix_stage e) = kinetic (sys e) + eens e.
Proof.
  intros Hnd Hin. unfold fix_stage. case_decide; [|reflexivity]. simpl.
  rewrite fix_energy_sum, <- (kinetic_fix (fixatoms e) (sys e)) by done. ring.
Qed.

Lemma com_stage_keeps (e : Ensemble) :
  fixatoms (com_stage e) = fixatoms e
  ∧ beads_natoms (sys (com_stage e)) = beads_natoms (sys e).
Proof. unfold com_stage. by destruct (fixcom e). Qed.

(** X1: [pconstraints] moves energy from the momenta to the ledger and
    loses none: kinetic energy plus [eens] is the same before and after,
    whatever combination of the two constraints is configured. *)
Theorem pconstraints_conserves_energy (e : Ensemble) :
  wf_shape (sys e) →
  Forall (fun x => x ≠ 0) (m (sys e)) →
  (fixcom e = true → (0 < beads_nbeads (sys e))%nat ∧ beads_M (sys e) ≠ 0) →
  NoDup (fixatoms e) →
  Forall (fun a => (a < beads_natoms (sys e))%nat) (fixatoms e) →
  kinetic (sys (NVEEnsemble_pconstraints e)) + eens (NVEEnsemble_pconstraints e)
  = kinetic (sys e) + eens e.
Proof.
  intros Hwf Hnz Hcom Hnd Hin.
  destruct (com_stage_keeps e) as [Hfa Hna].
  rewrite <- (com_stage_energy e) by done.
  apply (fix_stage_energy (com_stage e)); by rewrite Hfa, ?Hna.
Qed.

Lemma pconstraints_conserves_energy_witness :
  kinetic (sys (NVEEnsemble_pconstraints (ens_two_atoms true [0%nat])))
  + eens (NVEEnsemble_pconstraints (ens_two_atoms true [0%nat]))
  = kinetic (sys (ens_two_atoms true [0%nat])) + eens (ens_two_atoms true [0%nat]).
Proof.
  apply (pconstraints_conserves_energy (ens_two_atoms true [0%nat])).
  - repeat constructor.
  - repeat constructor; qc_neq.
  - intros _. split; [unfold beads_nbeads; simpl; lia | qc_neq].
  - apply NoDup_singleton.
  - repeat constructor.
Defined.

(** *** A second constraint pass *)

Lemma sub_stride3_row_zero i na mr row : sub_stride3_row i na mr 0 row = row.
Proof.
  unfold sub_stride3_row. apply list_eq. intros j. rewrite list_lookup_imap.
  destruct (row !! j) as [x|]; [|reflexivity]. simpl.
  case_decide; [|reflexivity]. f_equal. ring.
Qed.

Lemma com_row_zero na mr row : com_row na mr 0 0 0 row = row.
Proof. unfold com_row. by rewrite !sub_stride3_row_zero. Qed.

Lemma com_remove_again (s : Sys) :
  wf_shape s → (0 < beads_nbeads s)%nat → beads_M s ≠ 0 →
  com_remove (set_p (com_remove s) s) = com_remove s
  ∧ com_energy (set_p (com_remove s) s) = 0.
Proof.
  intros Hwf Hnb HM.
  assert (Hz : ∀ k, (k < 3)%nat →
            sum_stride3 k (beads_natoms s) (com_remove s) = 0)
    by (intros k Hk; by apply sum_stride3_com_remove).
  split.
  - rewrite (com_remove_rows (set_p (com_remove s) s)).
    change (beads_natoms (set_p (com_remove s) s)) with (beads_natoms s).
    change (p (set_p (com_remove s) s)) with (com_remove s).
    rewrite !Hz by lia.
    replace (0 * (1 / (N2Qc (beads_nbeads (set_p (com_remove s) s))
                       * beads_M (set_p (com_remove s) s)))) with 0 by ring.
    transitivity (map (fun row : list Qc => row) (com_remove s)); [|apply map_id].
    apply map_ext. intros row. apply com_row_zero.
  - unfold com_energy. rewrite dotQc_pcom. unfold total_momentum.
    change (beads_natoms (set_p (com_remove s) s)) with (beads_natoms s).
    change (p (set_p (com_remove s) s)) with (com_remove s).
    rewrite !Hz by lia. unfold Qcdiv. ring.
Qed.

Lemma fix_zero_again fa (bp : list Qc) : fix_zero fa (fix_zero fa bp) = fix_zero fa bp.
Proof.
  apply list_eq. intros j. rewrite !fix_zero_lookup_all.
  case_decide; [|reflexivity]. by destruct (bp !! j).
Qed.

Lemma fixed_kinetic_zeroed fa mass (arr : array) :
  fixed_kinetic fa mass (map (fix_zero fa) arr) = 0.
Proof.
  unfold fixed_kinetic. rewrite map_map.
  transitivity (sumQc (map (fun _ : list Qc => 0) arr)).
  - apply sumQc_map_ext. intros bp _.
    transitivity (sumQc (map (fun _ : nat => 0) fa)).
    + apply sumQc_map_ext. intros a Ha. cbv beta.
      rewrite !component_kinetic_fix by lia.
      rewrite !decide_True by done. ring.
    + cbv beta. rewrite sumQc_map_const. ring.
  - rewrite sumQc_map_const. ring.
Qed.

(** On the shared objects: with one kind of constraint, a second pass
    changes nothing. *)
Lemma constrained_again fc fa (s : Sys) :
  fc = false ∨ fa = [] →
  wf_shape s →
  (fc = true → (0 < beads_nbeads s)%nat ∧ beads_M s ≠ 0) →
  constrained fc fa (constrained fc fa s) = constrained fc fa s.
Proof.
  intros Hone Hwf Hcom. unfold constrained.
  destruct fc.
  - destruct Hone as [? | ->]; [done|]. simpl.
    destruct Hcom as [Hnb HM]; [done|].
    destruct (com_remove_again s Hwf Hnb HM) as [E _].
    unfold set_p at 1. simpl. by rewrite E.
  - case_decide; [|reflexivity]. unfold set_p. simpl.
    f_equal. rewrite <- list_fmap_compose. apply map_ext.
    intros bp. apply fix_zero_again.
Qed.

Lemma pconstraints_com_only (e : Ensemble) :
  fixcom e = true → fixatoms e = [] →
  sys (NVEEnsemble_pconstraints e) = set_p (com_remove (sys e)) (sys e)
  ∧ eens (NVEEnsemble_pconstraints e) = eens e + com_energy (sys e).
Proof.
  intros Hfc Hfa. unfold NVEEnsemble_pconstraints, NVE_constrain, fix_stage, com_stage.
  rewrite Hfc. simpl. rewrite Hfa. simpl. done.
Qed.

Lemma pconstraints_fix_only (e : Ensemble) :
  fixcom e = false →
  sys (NVEEnsemble_pconstraints e)
  = (if decide (0 < length (fixatoms e))%nat
     then set_p (map (fix_zero (fixatoms e)) (p (sys e))) (sys e) else sys e)
  ∧ eens (NVEEnsemble_pconstraints e)
    = eens e + (if decide (0 < length (fixatoms e))%nat
                then fixed_kinetic (fixatoms e) (m (sys e)) (p (sys e)) else 0).
Proof.
  intros Hfc. unfold NVEEnsemble_pconstraints, NVE_constrain, fix_stage, com_stage.
  rewrite Hfc. simpl. case_decide; simpl.
  - by rewrite fix_energy_sum.
  - split; [done | ring].
Qed.

(** X2: in exact arithmetic, on well-shaped arrays, with only one kind of
    constraint configured (centre-of-mass fixing without fixed atoms, on at
    least one replica with nonzero total mass; or fixed atoms that exist,
    without centre-of-mass fixing), a second call of [pconstraints] changes
    neither the shared objects nor the ledger.  (In float64 the second pass
    of the centre-of-mass branch can move a momentum by one unit in the last
    place.) *)
Theorem pconstraints_second_pass (e : Ensemble) :
  fixcom e = false ∨ fixatoms e = [] →
  wf_shape (sys e) →
  (fixcom e = true → (0 < beads_nbeads (sys e))%nat ∧ beads_M (sys e) ≠ 0) →
  Forall (fun a => (a < beads_natoms (sys e))%nat) (fixatoms e) →
  sys (NVEEnsemble_pconstraints (NVEEnsemble_pconstraints e))
  = sys (NVEEnsemble_pconstraints e)
  ∧ eens (NVEEnsemble_pconstraints (NVEEnsemble_pconstraints e))
    = eens (NVEEnsemble_pconstraints e).
Proof.
  intros Hone Hwf Hcom Hin.
  pose proof (cfg_fixcom _ _ (cfg_pconstraints e)) as Hfc1.
  pose proof (cfg_fixatoms _ _ (cfg_pconstraints e)) as Hfa1.
  split.
  - rewrite (sys_pconstraints (NVEEnsemble_pconstraints e)), Hfc1, Hfa1.
    rewrite sys_pconstraints. by apply constrained_again.
  - destruct (fixcom e) eqn:Hfc.
    + destruct Hone as [? | Hfa]; [done|].
      destruct Hcom as [Hnb HM]; [done|].
      destruct (pconstraints_com_only e Hfc Hfa) as [Hs _].
      destruct (pconstraints_com_only (NVEEnsemble_pconstraints e)) as [_ He];
        [congruence | congruence |].
      rewrite He, Hs.
      destruct (com_remove_again (sys e) Hwf Hnb HM) as [_ E].
      rewrite E. ring.
    + destruct (pconstraints_fix_only e Hfc) as [Hs _].
      destruct (pconstraints_fix_only (NVEEnsemble_pconstraints e)) as [_ He];
        [congruence|].
      rewrite He, Hfa1, Hs.
      destruct (decide (0 < length (fixatoms e))%nat); [|ring].
      change (p (set_p (map (fix_zero (fixatoms e)) (p (sys e))) (sys e)))
        with (map (fix_zero (fixatoms e)) (p (sys e))).
      rewrite fixed_kinetic_zeroed. ring.
Qed.

Lemma pconstraints_second_pass_witness :
  sys (NVEEnsemble_pconstraints (NVEEnsemble_pconstraints (ens_two_atoms true [])))
  = sys (NVEEnsemble_pconstraints (ens_two_atoms true []))
  ∧ eens (NVEEnsemble_pconstraints (NVEEnsemble_pconstraints (ens_two_atoms true [])))
    = eens (NVEEnsemble_pconstraints (ens_two_atoms true [])).
Proof.
  apply (pconstraints_second_pass (ens_two_atoms true [])).
  - right. reflexivity.
  - repeat constructor.
  - intros _. split; [unfold beads_nbeads; simpl; lia | qc_neq].
  - constructor.
Defined.

(** With both kinds configured a second pass does change the momenta: atom 0
    fixed, centre of mass fixed, momenta 1 and 3. *)
Lemma pconstraints_second_pass_both :
  p (sys (NVEEnsemble_pconstraints (ens_two_atoms true [0%nat])))
  = [[0; 0; 0; 1; 0; 0]]
  ∧ p (sys (NVEEnsemble_pconstraints (NVEEnsemble_pconstraints (ens_two_atoms true [0%nat]))))
    = [[0; 0; 0; half; 0; 0]].
Proof.
  split; unfold NVEEnsemble_pconstraints; simpl;
    repeat (f_equal; try qc_eq).
Qed.

(** ** The fixed-atom branch *)

(** C7, as stated, fails: with centre-of-mass fixing enabled as well, [eens]
    does not increase by the kinetic energy of the zeroed components alone.
    Two unit masses with momenta 1 and 3 along x, atom 0 fixed: [eens] rises
    by 9/2, the one nonzero component that is zeroed carries 1/2. *)
Lemma C7_counterexample_with_com :
  (0 < length (fixatoms (ens_two_atoms true [0%nat])))%nat ∧
  wf_shape (sys (ens_two_atoms true [0%nat])) ∧
  eens (NVEEnsemble_pconstraints (ens_two_atoms true [0%nat]))
  - eens (ens_two_atoms true [0%nat]) = Q2Qc (9 # 2) ∧
  fixed_kinetic [0%nat] (m (sys (ens_two_atoms true [0%nat])))
    (p (sys (ens_two_atoms true [0%nat]))) = Q2Qc (1 # 2) ∧
  eens (NVEEnsemble_pconstraints (ens_two_atoms true [0%nat]))
  - eens (ens_two_atoms true [0%nat])
  ≠ fixed_kinetic [0%nat] (m (sys (ens_two_atoms true [0%nat])))
      (p (sys (ens_two_atoms true [0%nat]))).
Proof.
  split; [simpl; lia|]. split; [repeat constructor|].
  split; [qc_eq|]. split; [qc_eq | qc_neq].
Qed.

(** C7, amended: in exact arithmetic, with a non-empty list of fixed atoms
    that exist, on well-shaped arrays, [pconstraints] keeps the number of
    replicas and leaves every component of every fixed atom at exactly zero
    in every replica.  Without centre-of-mass fixing, [eens] increases by
    the sum of [p^2/(2m)] over the zeroed components, [p] being the momenta
    before the call, and no other component changes.  With centre-of-mass
    fixing, [eens] increases by the centre-of-mass energy
    [|p_com|^2/(2 M nbeads)] plus that sum over the momenta that the
    centre-of-mass branch leaves. *)
Theorem C7_fixed_atoms (e : Ensemble) :
  (0 < length (fixatoms e))%nat →
  wf_shape (sys e) →
  Forall (fun a => (a < beads_natoms (sys e))%nat) (fixatoms e) →
  length (p (sys (NVEEnsemble_pconstraints e))) = beads_nbeads (sys e) ∧
  (∀ b a k, (b < beads_nbeads (sys e))%nat → a ∈ fixatoms e → (k < 3)%nat →
     ∃ bp, p (sys (NVEEnsemble_pconstraints e)) !! b = Some bp
           ∧ length bp = (3 * beads_natoms (sys e))%nat
           ∧ bp !! (a * 3 + k)%nat = Some 0) ∧
  (fixcom e = false →
   eens (NVEEnsemble_pconstraints e)
   = eens e + fixed_kinetic (fixatoms e) (m (sys e)) (p (sys e))
   ∧ ∀ b j, (∀ a k, a ∈ fixatoms e → (k < 3)%nat → j ≠ (a * 3 + k)%nat) →
       entry (p (sys (NVEEnsemble_pconstraints e))) b j = entry (p (sys e)) b j) ∧
  (fixcom e = true →
   eens (NVEEnsemble_pconstraints e)
   = eens e + com_kinetic (sys e)
     + fixed_kinetic (fixatoms e) (m (sys e)) (com_remove (sys e))).
Proof.
  intros Hne Hwf Hin.
  assert (Hfa : fixatoms (com_stage e) = fixatoms e)
    by (unfold com_stage; destruct (fixcom e); reflexivity).
  assert (Hm : m (sys (com_stage e)) = m (sys e))
    by (unfold com_stage; destruct (fixcom e); reflexivity).
  assert (Hwf' : wf_shape (sys (com_stage e))).
  { unfold com_stage. destruct (fixcom e); [|done]. simpl. by apply com_remove_shape. }
  assert (Hlen : length (p (sys (com_stage e))) = beads_nbeads (sys e)).
  { unfold com_stage, beads_nbeads. destruct (fixcom e); [|done]. simpl.
    by rewrite com_remove_rows, length_map. }
  assert (Hp : p (sys (NVEEnsemble_pconstraints e))
               = map (fix_zero (fixatoms e)) (p (sys (com_stage e)))).
  { unfold NVEEnsemble_pconstraints, NVE_constrain, fix_stage. rewrite Hfa.
    rewrite decide_True by done. reflexivity. }
  assert (Heens : eens (NVEEnsemble_pconstraints e)
     = eens (com_stage e) + fixed_kinetic (fixatoms e) (m (sys e)) (p (sys (com_stage e)))).
  { unfold NVEEnsemble_pconstraints, NVE_constrain, fix_stage. rewrite Hfa.
    rewrite decide_True by done. simpl. rewrite Hm. apply fix_energy_sum. }
  split; [|split; [|split]].
  - by rewrite Hp, length_map.
  - intros b a k Hb Ha Hk. rewrite Hp. unfold array in *. rewrite list_lookup_fmap.
    destruct (@lookup nat (list Qc) (list (list Qc)) _ b (p (sys (com_stage e))))
      as [bp0|] eqn:Eb.
    2:{ apply lookup_ge_None in Eb. lia. }
    pose proof (proj1 (Forall_forall _ _) Hwf' bp0 (list_elem_of_lookup_2 _ _ _ Eb)) as Hbp0.
    assert (Hna : beads_natoms (sys (com_stage e)) = beads_natoms (sys e))
      by (unfold beads_natoms; by rewrite Hm).
    exists (fix_zero (fixatoms e) bp0). split; [reflexivity|]. split.
    + by rewrite fix_zero_length, Hbp0, Hna.
    + apply fix_zero_lookup; [done | done |].
      rewrite Hbp0, Hna.
      pose proof (proj1 (Forall_forall _ _) Hin a Ha) as Hlt. simpl in Hlt. lia.
  - intros Hfc. split.
    + rewrite Heens. unfold com_stage. rewrite Hfc. reflexivity.
    + intros b j Hj. rewrite Hp. unfold com_stage. rewrite Hfc.
      unfold entry, array in *. rewrite list_lookup_fmap.
      destruct (@lookup nat (list Qc) (list (list Qc)) _ b (p (sys e))) as [bp|]; [|done].
      simpl. unfold at0. rewrite fix_zero_lookup_all.
      rewrite decide_False; [done|].
      unfold fix_idx. intros [H|[H|H]];
        apply list_elem_of_fmap in H as (a & -> & Ha);
        by eapply (Hj a); [exact Ha | | reflexivity]; lia.
  - intros Hfc. rewrite Heens. unfold com_stage. rewrite Hfc. simpl.
    unfold com_energy, com_kinetic. by rewrite dotQc_pcom.
Qed.

Lemma C7_fixed_atoms_witness :
  (∃ bp, p (sys (NVEEnsemble_pconstraints (ens_two_atoms false [1%nat]))) !! 0%nat = Some bp
         ∧ length bp = 6%nat ∧ bp !! 3%nat = Some 0) ∧
  eens (NVEEnsemble_pconstraints (ens_two_atoms false [1%nat])) = Q2Qc (9 # 2) ∧
  entry (p (sys (NVEEnsemble_pconstraints (ens_two_atoms false [1%nat])))) 0%nat 0%nat = 1.
Proof.
  destruct (C7_fixed_atoms (ens_two_atoms false [1%nat])) as (_ & Hz & Hoff & _).
  - simpl. lia.
  - repeat constructor.
  - repeat constructor.
  - destruct (Hoff eq_refl) as [He Hk]. split; [|split].
    + apply (Hz 0%nat 1%nat 0%nat);
        [unfold beads_nbeads; simpl; lia | by apply list_elem_of_singleton | lia].
    + rewrite He. qc_eq.
    + rewrite (Hk 0%nat 0%nat); [reflexivity|].
      intros a k Ha Hk3. apply list_elem_of_singleton in Ha as ->. lia.
Defined.

(** ** The centre-of-mass branch in float64 *)

(** In float64 the centre-of-mass branch leaves a total momentum that is
    zero up to rounding only: masses 1 and 2 with momenta 1 and 0 are left
    with a total of 2^-53. *)
Lemma float64_com_residual :
  PrimFloat.eqb
    (Float64Com.total
       (Float64Com.com_pass Float64Com.m_light Float64Com.m_heavy Float64Com.p_start))
    Float64Com.ulp_half = true.
Proof. vm_compute. reflexivity. Qed.

(** And a second pass then moves a momentum by one unit in the last place. *)
Lemma float64_com_second_pass_moves :
  PrimFloat.eqb
    (snd (Float64Com.com_pass Float64Com.m_light Float64Com.m_heavy
            (Float64Com.com_pass Float64Com.m_light Float64Com.m_heavy Float64Com.p_start)))
    (snd (Float64Com.com_pass Float64Com.m_light Float64Com.m_heavy Float64Com.p_start))
  = false.
Proof. vm_compute. reflexivity. Qed.

(** ** The thermostatted step with a thermostat that does nothing *)

Lemma constrained_again_fix fa (s : Sys) :
  constrained false fa (constrained false fa s) = constrained false fa s.
Proof.
  unfold constrained. case_decide; [|reflexivity]. unfold set_p. simpl.
  f_equal. rewrite <- list_fmap_compose. apply map_ext.
  intros bp. apply fix_zero_again.
Qed.

Lemma constrained_again_com nb m0 (s : Sys) :
  (0 < nb)%nat → sumQc m0 ≠ 0 → good_sys nb m0 s →
  constrained true [] (constrained true [] s) = constrained true [] s.
Proof.
  intros Hnb HM Hgood. destruct (good_sys_wf _ _ _ Hgood) as [Hwf Hn].
  apply constrained_again; [by right | done |].
  intros _. split; [lia|]. unfold beads_M. by destruct Hgood as [_ ->].
Qed.

Section ThermostatIdle.

Context (C : Collaborators).

Lemma NVT_step_unfold e :
  NVTEnsemble_step C e
  = NVEEnsemble_pconstraints
      (thermostat_step_call C
         (NVEEnsemble_step C (NVEEnsemble_pconstraints (thermostat_step_call C e)))).
Proof. reflexivity. Qed.

Lemma sys_thermostat_idle e :
  (∀ w s, thermostat_step C w s = s) → sys (thermostat_step_call C e) = sys e.
Proof. intros H. unfold thermostat_step_call. simpl. apply H. Qed.

Lemma cfg_thermostat e : cfg (thermostat_step_call C e) = cfg e.
Proof. reflexivity. Qed.

Lemma NVT_idle_is_NVE (good : Sys → Prop) (ok : (array → array → array) → Prop)
    (P : Sys → Sys) (c : Qc) (e : Ensemble) :
  P = constrained (fixcom e) (fixatoms e) →
  c = dt e * half →
  (∀ f s, ok f → good s → P (kick_sys c f (P s)) = P (kick_sys c f s)) →
  (∀ s, good s → P (P s) = P s) →
  (∀ s, good s → good (P s)) →
  (∀ f s, ok f → good s → good (kick_sys c f s)) →
  (∀ s, good s → good (qf_sys C (dt e) (nm_dt e) s)) →
  ok (fadd (forces_f C) (bias_f C)) →
  good (sys e) →
  (∀ w s, thermostat_step C w s = s) →
  sys (NVTEnsemble_step C e) = sys (NVEEnsemble_step C e).
Proof.
  intros HP Hc Habs Hidem HgP Hgk Hgq Hok Hgood Hthermo.
  rewrite NVT_step_unfold.
  remember (NVEEnsemble_pconstraints (thermostat_step_call C e)) as e0 eqn:He0.
  assert (Hc0 : cfg e0 = cfg e).
  { rewrite He0, cfg_pconstraints. apply cfg_thermostat. }
  assert (Hs0 : sys e0 = P (sys e)).
  { rewrite He0, sys_pconstraints, sys_thermostat_idle by done.
    rewrite (cfg_fixcom _ _ (cfg_thermostat e)), (cfg_fixatoms _ _ (cfg_thermostat e)).
    by rewrite HP. }
  destruct (extends_NVE_step C e0) as [Hc1 _].
  remember (NVEEnsemble_step C e0) as e1 eqn:He1.
  rewrite sys_pconstraints, sys_thermostat_idle by done.
  rewrite (cfg_fixcom _ _ (cfg_thermostat e1)), (cfg_fixatoms _ _ (cfg_thermostat e1)).
  rewrite (cfg_fixcom _ _ Hc1), (cfg_fixatoms _ _ Hc1).
  rewrite He1, (sys_NVE_step C e0), (sys_NVE_step C e), Hs0.
  rewrite (cfg_fixcom _ _ Hc0), (cfg_fixatoms _ _ Hc0), (cfg_dt _ _ Hc0),
          (cfg_nm_dt _ _ Hc0).
  rewrite <- HP, <- Hc.
  rewrite (Habs _ (sys e)) by done.
  apply Hidem. auto 10.
Qed.

End ThermostatIdle.

(** X3: with a thermostat whose step changes nothing, [NVTEnsemble.step]
    leaves the shared objects as [NVEEnsemble.step] does: the two extra
    constraint passes are absorbed.  This needs one kind of constraint only:
    no centre-of-mass fixing, or centre-of-mass fixing alone on well-shaped
    arrays with nonzero total mass. *)
Theorem NVT_idle_thermostat_is_NVE
    (C : Collaborators) (e : Ensemble) (nb : nat) (m0 : list Qc) :
  (∀ w s, thermostat_step C w s = s) →
  (fixcom e = false ∨
   (fixcom e = true ∧ fixatoms e = [] ∧ (0 < nb)%nat ∧ sumQc m0 ≠ 0 ∧
    shaped_field nb (length m0) (forces_f C) ∧
    shaped_field nb (length m0) (bias_f C) ∧
    (∀ tau s, good_sys nb m0 s → good_sys nb m0 (nm_free_qstep C tau s)) ∧
    good_sys nb m0 (sys e))) →
  sys (NVTEnsemble_step C e) = sys (NVEEnsemble_step C e).
Proof.
  intros Hthermo [Hno | (Hyes & Hnofix & Hnb & HM & Hf & Hb & Hfree & Hgood)].
  - apply (NVT_idle_is_NVE C (fun _ => True) (fun _ => True)
             (constrained false (fixatoms e)) (dt e * half) e);
      rewrite ?Hno; auto.
    + intros f s _ _. apply absorb_fixed_atoms.
    + intros s _. apply constrained_again_fix.
  - apply (NVT_idle_is_NVE C (good_sys nb m0) (shaped_field nb (length m0))
             (constrained true []) (dt e * half) e);
      rewrite ?Hyes, ?Hnofix; auto.
    + intros f s Hf' Hs'. by apply (absorb_com _ nb m0).
    + intros s Hs. by apply (constrained_again_com nb m0).
    + apply good_com.
    + intros f s Hf' Hs'. by apply good_kick.
    + intros s [Hs Hm]. apply Hfree. split; [exact Hs | exact Hm].
    + intros q_ h_. apply shaped_aadd; [apply Hf | apply Hb].
Qed.

Lemma NVT_idle_thermostat_is_NVE_witness :
  sys (NVTEnsemble_step (idle 1) (ens_two_atoms true []))
  = sys (NVEEnsemble_step (idle 1) (ens_two_atoms true [])).
Proof.
  apply (NVT_idle_thermostat_is_NVE (idle 1) (ens_two_atoms true []) 1 [1; 1]).
  - intros w s. reflexivity.
  - right. split; [reflexivity|]. split; [reflexivity|]. split; [lia|].
    split; [qc_neq|]. split; [|split; [|split]].
    + intros q_ h_. split; [reflexivity | repeat constructor].
    + intros q_ h_. split; [reflexivity | repeat constructor].
    + intros tau s Hs. exact Hs.
    + split; [|reflexivity]. split; [reflexivity | repeat constructor].
Defined.

(** ** The driver loop: which checkpoint *)

Section DriverExact.

Context {St : Type} (advance : St → St).

(** The loop up to the first pass that is not a quiet one. *)
Lemma run_loop_first_event (world : nat → Pass) (s0 : St) (step0 : Z) (k : nat) :
  ∀ (n i : nat) (x : Simulation),
    sim_state x = Nat.iter i advance s0 →
    sim_tsteps x = (step0 + Z.of_nat i + Z.of_nat n)%Z →
    (i <= k < i + n)%nat →
    (∀ j, (i <= j < k)%nat → world j = PassDone false false) →
    match world k with
    | PassDone exit_file wall_clock =>
        exit_file || wall_clock = true →
        ∃ x', run_loop advance world i
                (map (fun j => (step0 + Z.of_nat j)%Z) (seq i n)) x = Halted x'
              ∧ sim_state x' = Nat.iter (S k) advance s0
              ∧ sim_step x' = (step0 + Z.of_nat k + 1)%Z
              ∧ sim_restart x'
                = Some (mkChk (Nat.iter (S k) advance s0) (step0 + Z.of_nat k + 1)%Z)
    | PassSoftExit partial =>
        sim_rollback x = true →
        ∃ x', run_loop advance world i
                (map (fun j => (step0 + Z.of_nat j)%Z) (seq i n)) x = Halted x'
              ∧ sim_state x' = partial
              ∧ sim_step x' = (step0 + Z.of_nat k + 1)%Z
              ∧ sim_restart x'
                = Some (mkChk (Nat.iter k advance s0) (step0 + Z.of_nat k)%Z)
    | PassRaise partial =>
        ∃ x', run_loop advance world i
                (map (fun j => (step0 + Z.of_nat j)%Z) (seq i n)) x = Crashed x'
              ∧ sim_state x' = partial
              ∧ sim_restart x' = sim_restart x
    end.
Proof.
  induction n as [|n IH]; intros i x Hst Hts Hk Hquiet; [lia|].
  cbn [seq map run_loop].
  destruct (decide (i = k)) as [->|Hne].
  - destruct (world k) as [exit_file wall_clock | partial | partial].
    + intros Hev.
      assert (Hend : ∃ x',
                Halted (Simulation_softexit (set_rollback false
                  (set_state (advance (sim_state (chk_store (set_step (step0 + Z.of_nat k) x))))
                     (chk_store (set_step (step0 + Z.of_nat k) x))))) = Halted x'
                ∧ sim_state x' = Nat.iter (S k) advance s0
                ∧ sim_step x' = (step0 + Z.of_nat k + 1)%Z
                ∧ sim_restart x'
                  = Some (mkChk (Nat.iter (S k) advance s0) (step0 + Z.of_nat k + 1)%Z)).
      { eexists. split; [reflexivity|]. unfold Simulation_softexit. simpl.
        destruct (Z.ltb_spec (step0 + Z.of_nat k) (sim_tsteps x)); [|lia]. simpl.
        rewrite Hst. done. }
      destruct exit_file; [exact Hend|]. destruct wall_clock; [exact Hend|]. done.
    + intros Hrb. eexists. split; [reflexivity|].
      unfold Simulation_softexit. simpl.
      destruct (Z.ltb_spec (step0 + Z.of_nat k) (sim_tsteps x)); [|lia]. simpl.
      rewrite Hrb. simpl. rewrite Hst. done.
    + eexists. split; [reflexivity|]. done.
  - rewrite (Hquiet i) by lia.
    change (sim_state (chk_store (set_step (step0 + Z.of_nat i) x))) with (sim_state x).
    assert (IH' := IH (S i)
      (set_state (advance (sim_state x)) (chk_store (set_step (step0 + Z.of_nat i) x)))).
    change (sim_restart (set_state (advance (sim_state x))
              (chk_store (set_step (step0 + Z.of_nat i) x)))) with (sim_restart x) in IH'.
    change (sim_rollback (set_state (advance (sim_state x))
              (chk_store (set_step (step0 + Z.of_nat i) x)))) with (sim_rollback x) in IH'.
    apply IH'.
    + simpl. by rewrite Hst.
    + simpl. lia.
    + lia.
    + intros j Hj. apply Hquiet. lia.
Qed.

(** The loop when every pass is a quiet one. *)
Lemma run_loop_all_quiet (world : nat → Pass) (s0 : St) (step0 : Z) :
  (∀ j, world j = PassDone false false) →
  ∀ (n i : nat) (x : Simulation),
    sim_state x = Nat.iter i advance s0 →
    sim_tsteps x = (step0 + Z.of_nat i + Z.of_nat n)%Z →
    (n = 0%nat → sim_step x = (step0 + Z.of_nat i - 1)%Z) →
    ∃ x', run_loop advance world i
            (map (fun j => (step0 + Z.of_nat j)%Z) (seq i n)) x = Halted x'
          ∧ sim_state x' = Nat.iter (i + n) advance s0
          ∧ sim_step x' = sim_tsteps x
          ∧ sim_restart x' = Some (mkChk (Nat.iter (i + n) advance s0) (sim_tsteps x)).
Proof.
  intros Hquiet. induction n as [|n IH]; intros i x Hst Hts Hstep.
  - cbn [seq map run_loop]. eexists. split; [reflexivity|].
    unfold Simulation_softexit. simpl. rewrite Hstep by done.
    destruct (Z.ltb_spec (step0 + Z.of_nat i - 1) (sim_tsteps x)); [|lia]. simpl.
    rewrite Nat.add_0_r, Hst.
    replace (step0 + Z.of_nat i - 1 + 1)%Z with (sim_tsteps x) by lia. done.
  - cbn [seq map run_loop]. rewrite Hquiet.
    destruct (IH (S i)
      (set_state (advance (sim_state (chk_store (set_step (step0 + Z.of_nat i) x))))
         (chk_store (set_step (step0 + Z.of_nat i) x)))) as (x' & Hrun & H1 & H2 & H3).
    + simpl. by rewrite Hst.
    + simpl. lia.
    + intros _. simpl. lia.
    + exists x'. split; [exact Hrun|]. simpl in H2, H3.
      replace (i + S n)%nat with (S i + n)%nat by lia. done.
Qed.

(** X4: a run that nothing interrupts does [max(0, tsteps - step)] steps
    and writes a restart checkpoint holding the final state with the step
    counter [tsteps] (or the initial counter, if that was already past
    [tsteps]). *)
Theorem run_uninterrupted (world : nat → Pass) (x : Simulation) :
  (∀ j, world j = PassDone false false) →
  ∃ x', Simulation_run advance world x = Halted x'
        ∧ sim_state x'
          = Nat.iter (Z.to_nat (sim_tsteps x - sim_step x)) advance (sim_state x)
        ∧ sim_step x' = Z.max (sim_step x) (sim_tsteps x)
        ∧ sim_restart x' = Some (mkChk (sim_state x') (sim_step x')).
Proof.
  intros Hquiet. unfold Simulation_run, zrange.
  destruct (Z.to_nat (sim_tsteps x - sim_step x)) as [|n] eqn:Hn.
  - cbn [seq map run_loop]. eexists. split; [reflexivity|].
    unfold Simulation_softexit. simpl.
    destruct (Z.ltb_spec (sim_step x) (sim_tsteps x)); [lia|]. simpl.
    rewrite Z.max_l by lia. done.
  - destruct (run_loop_all_quiet world (sim_state x) (sim_step x) Hquiet (S n) 0 x)
      as (x' & Hrun & H1 & H2 & H3).
    + reflexivity.
    + lia.
    + done.
    + exists x'. split; [exact Hrun|]. rewrite H1, H2, H3.
      rewrite Z.max_r by lia. done.
Qed.

(** X5: if the [EXIT] file is seen, or the wall-clock budget is found
    spent, at the end of pass [k] (the earlier passes being quiet ones),
    the run halts there and the restart checkpoint holds the state after
    exactly [k+1] steps, with the step counter advanced by [k+1]. *)
Theorem run_exit_after_pass (world : nat → Pass) (x : Simulation)
    (k : nat) (exit_file wall_clock : bool) :
  (Z.of_nat k < sim_tsteps x - sim_step x)%Z →
  (∀ j, (j < k)%nat → world j = PassDone false false) →
  world k = PassDone exit_file wall_clock →
  exit_file || wall_clock = true →
  ∃ x', Simulation_run advance world x = Halted x'
        ∧ sim_restart x'
          = Some (mkChk (Nat.iter (S k) advance (sim_state x))
                        (sim_step x + Z.of_nat k + 1)%Z).
Proof.
  intros Hk Hquiet Hw Hev. unfold Simulation_run, zrange.
  pose proof (run_loop_first_event world (sim_state x) (sim_step x) k
                (Z.to_nat (sim_tsteps x - sim_step x)) 0 x) as H.
  rewrite Hw in H.
  destruct H as (x' & Hrun & _ & _ & Hr); try done; try lia.
  - intros j Hj. apply Hquiet. lia.
  - by exists x'.
Qed.

(** X6: if the soft exit is triggered from inside the step of pass [k]
    (the earlier passes being quiet ones), the run halts with the systems
    in the state the interrupted step left, and the restart checkpoint holds
    the snapshot taken before that step: the state after exactly [k] steps,
    with the step counter advanced by [k]. *)
Theorem run_soft_exit_in_pass (world : nat → Pass) (x : Simulation)
    (k : nat) (partial : St) :
  sim_rollback x = true →
  (Z.of_nat k < sim_tsteps x - sim_step x)%Z →
  (∀ j, (j < k)%nat → world j = PassDone false false) →
  world k = PassSoftExit partial →
  ∃ x', Simulation_run advance world x = Halted x'
        ∧ sim_state x' = partial
        ∧ sim_restart x'
          = Some (mkChk (Nat.iter k advance (sim_state x)) (sim_step x + Z.of_nat k)%Z).
Proof.
  intros Hrb Hk Hquiet Hw. unfold Simulation_run, zrange.
  pose proof (run_loop_first_event world (sim_state x) (sim_step x) k
                (Z.to_nat (sim_tsteps x - sim_step x)) 0 x) as H.
  rewrite Hw in H.
  destruct H as (x' & Hrun & Hs & _ & Hr); try done; try lia.
  - intros j Hj. apply Hquiet. lia.
  - by exists x'.
Qed.

End DriverExact.

Lemma run_uninterrupted_witness :
  ∃ x', Simulation_run S (fun _ => PassDone false false) sim_fresh = Halted x'
        ∧ sim_state x' = 10%nat
        ∧ sim_step x' = 10%Z
        ∧ sim_restart x' = Some (mkChk 10%nat 10%Z).
Proof.
  destruct (run_uninterrupted S (fun _ => PassDone false false) sim_fresh)
    as (x' & Hrun & H1 & H2 & H3).
  - intros j. reflexivity.
  - exists x'. split; [exact Hrun|]. rewrite H3, H1, H2. done.
Defined.

Lemma run_exit_after_pass_witness :
  ∃ x', Simulation_run S world_exit_file_after_third sim_fresh = Halted x'
        ∧ sim_restart x' = Some (mkChk 3%nat 3%Z).
Proof.
  apply (run_exit_after_pass S world_exit_file_after_third sim_fresh 2 true false).
  - simpl. lia.
  - intros [|[|j]] Hj; try lia; reflexivity.
  - reflexivity.
  - reflexivity.
Defined.

Lemma run_soft_exit_in_pass_witness :
  ∃ x', Simulation_run S world_soft_exit_in_third sim_fresh = Halted x'
        ∧ sim_state x' = 99%nat
        ∧ sim_restart x' = Some (mkChk 2%nat 2%Z).
Proof.
  apply (run_soft_exit_in_pass S world_soft_exit_in_third sim_fresh 2 99%nat).
  - reflexivity.
  - simpl. lia.
  - intros [|[|j]] Hj; try lia; reflexivity.
  - reflexivity.
Defined.

(** ** The driver loop: the restart checkpoint at the end of a run *)

Section DriverBoundary.

Context {St : Type} (advance : St → St).

(** The loop up to a pass that an exception leaves: nothing is written, and
    the snapshot stored before the failing step is kept. *)
Lemma run_loop_first_raise (world : nat → Pass) (s0 : St) (step0 : Z) (k : nat)
    (partial : St) :
  world k = PassRaise partial →
  ∀ (n i : nat) (x : Simulation),
    sim_state x = Nat.iter i advance s0 →
    sim_tsteps x = (step0 + Z.of_nat i + Z.of_nat n)%Z →
    (i <= k < i + n)%nat →
    (∀ j, (i <= j < k)%nat → world j = PassDone false false) →
    ∃ x', run_loop advance world i
            (map (fun j => (step0 + Z.of_nat j)%Z) (seq i n)) x = Crashed x'
          ∧ sim_state x' = partial
          ∧ sim_step x' = (step0 + Z.of_nat k)%Z
          ∧ sim_tsteps x' = sim_tsteps x
          ∧ sim_rollback x' = sim_rollback x
          ∧ sim_chk x' = mkChk (Nat.iter k advance s0) (step0 + Z.of_nat k)%Z
          ∧ sim_restart x' = sim_restart x.
Proof.
  intros Hw. induction n as [|n IH]; intros i x Hst Hts Hk Hquiet; [lia|].
  cbn [seq map run_loop].
  destruct (decide (i = k)) as [->|Hne].
  - rewrite Hw. eexists. split; [reflexivity|]. simpl. by rewrite Hst.
  - rewrite (Hquiet i) by lia.
    destruct (IH (S i)
      (set_state (advance (sim_state (chk_store (set_step (step0 + Z.of_nat i) x))))
         (chk_store (set_step (step0 + Z.of_nat i) x))))
      as (x' & Hrun & H1 & H2 & H3 & H4 & H5 & H6).
    + simpl. by rewrite Hst.
    + simpl. lia.
    + lia.
    + intros j Hj. apply Hquiet. lia.
    + exists x'. split; [exact Hrun|]. done.
Qed.

(** C9, amended.  Whatever happens in the passes, a checkpoint written by
    the run is the state after a whole number of completed steps, with the
    matching step counter.  Which one: if the [EXIT] file is seen or the
    wall clock is found spent at the end of pass [k], it is the state after
    the last completed step ([k+1] steps, counter [step+k+1]); if the soft
    exit is triggered from inside the step of pass [k], it is the snapshot
    stored before that step ([k] steps, counter [step+k]) and not the state
    the interrupted step left.  If an exception leaves the step of pass [k],
    the run ends without writing any checkpoint; the snapshot stored before
    that step is what [Simulation.softexit] writes if it is called then. *)
Theorem C9_restart_at_step_boundary (world : nat → Pass) (x : Simulation) :
  sim_rollback x = true →
  (sim_restart x = None →
   match Simulation_run advance world x with
   | Halted x' =>
       ∃ c, sim_restart x' = Some c ∧ at_boundary advance (sim_state x) (sim_step x) c
   | Crashed x' => sim_restart x' = None
   end) ∧
  (∀ k, (Z.of_nat k < sim_tsteps x - sim_step x)%Z →
     (∀ j, (j < k)%nat → world j = PassDone false false) →
     match world k with
     | PassDone exit_file wall_clock =>
         exit_file || wall_clock = true →
         ∃ x', Simulation_run advance world x = Halted x'
               ∧ sim_state x' = Nat.iter (S k) advance (sim_state x)
               ∧ sim_restart x'
                 = Some (mkChk (Nat.iter (S k) advance (sim_state x))
                               (sim_step x + Z.of_nat k + 1)%Z)
     | PassSoftExit partial =>
         ∃ x', Simulation_run advance world x = Halted x'
               ∧ sim_state x' = partial
               ∧ sim_restart x'
                 = Some (mkChk (Nat.iter k advance (sim_state x))
                               (sim_step x + Z.of_nat k)%Z)
     | PassRaise partial =>
         ∃ x', Simulation_run advance world x = Crashed x'
               ∧ sim_state x' = partial
               ∧ sim_restart x' = sim_restart x
               ∧ sim_restart (Simulation_softexit x')
                 = Some (mkChk (Nat.iter k advance (sim_state x))
                               (sim_step x + Z.of_nat k)%Z)
     end).
Proof.
  intros Hrb. split.
  - intros Hrs. unfold Simulation_run, zrange.
    apply run_loop_boundary; try done.
    + intros [Hn _]. split; [done|]. lia.
    + intros [Hn | Hi]; [|done]. lia.
  - intros k Hk Hquiet. unfold Simulation_run, zrange.
    pose proof (run_loop_first_event advance world (sim_state x) (sim_step x) k
                  (Z.to_nat (sim_tsteps x - sim_step x)) 0 x) as H.
    destruct (world k) as [exit_file wall_clock | partial | partial] eqn:Hw.
    + intros Hev.
      destruct H as (x' & Hrun & Hs & _ & Hr); try done; try lia.
      * intros j Hj. apply Hquiet. lia.
      * by exists x'.
    + destruct H as (x' & Hrun & Hs & _ & Hr); try done; try lia.
      * intros j Hj. apply Hquiet. lia.
      * by exists x'.
    + destruct (run_loop_first_raise world (sim_state x) (sim_step x) k partial Hw
                  (Z.to_nat (sim_tsteps x - sim_step x)) 0 x)
        as (x' & Hrun & H1 & H2 & H3 & H4 & H5 & H6); try done; try lia.
      * intros j Hj. apply Hquiet. lia.
      * exists x'. split; [exact Hrun|]. split; [exact H1|]. split; [exact H6|].
        unfold Simulation_softexit.
        destruct (sim_step x' <? sim_tsteps x')%Z; simpl; rewrite H4, Hrb; simpl;
          by rewrite H5.
Qed.

End DriverBoundary.

Lemma C9_restart_at_step_boundary_witness :
  (∃ x', Simulation_run S world_exit_file_after_third sim_fresh = Halted x'
         ∧ sim_state x' = 3%nat
         ∧ sim_restart x' = Some (mkChk 3%nat 3%Z)) ∧
  (∃ x', Simulation_run S world_soft_exit_in_third sim_fresh = Halted x'
         ∧ sim_state x' = 99%nat
         ∧ sim_restart x' = Some (mkChk 2%nat 2%Z)) ∧
  (∃ x', Simulation_run S world_raise_in_third sim_fresh = Crashed x'
         ∧ sim_state x' = 99%nat
         ∧ sim_restart x' = None
         ∧ sim_restart (Simulation_softexit x') = Some (mkChk 2%nat 2%Z)).
Proof.
  assert (Hq : ∀ w : nat → @Pass nat,
             w 0%nat = PassDone false false → w 1%nat = PassDone false false →
             ∀ j, (j < 2)%nat → w j = PassDone false false).
  { intros w H0 H1 [|[|j]] Hj; try lia; assumption. }
  split; [|split].
  - apply (proj2 (C9_restart_at_step_boundary S world_exit_file_after_third sim_fresh
                    eq_refl) 2%nat); [simpl; lia | by apply Hq | reflexivity].
  - apply (proj2 (C9_restart_at_step_boundary S world_soft_exit_in_third sim_fresh
                    eq_refl) 2%nat); [simpl; lia | by apply Hq].
  - apply (proj2 (C9_restart_at_step_boundary S world_raise_in_third sim_fresh
                    eq_refl) 2%nat); [simpl; lia | by apply Hq].
Defined.

(** C9, as stated, fails for the step-time error: an exception that leaves
    the third step ends the run, and no restart checkpoint has been written
    (the half-applied state is 99). *)
Lemma C9_counterexample_step_error :
  ∃ x', Simulation_run S world_raise_in_third sim_fresh = Crashed x'
        ∧ sim_state x' = 99%nat
        ∧ sim_restart x' = None.
Proof. eexists. split; [reflexivity|]. split; reflexivity. Qed.

(** ** The multiple-time-step schedule, for any number of levels *)

Lemma Z2Qc_neq0 (z : Z) : z ≠ 0%Z → Z2Qc z ≠ 0.
Proof.
  intros Hz E. unfold Z2Qc in E.
  change 0 with (Q2Qc (inject_Z 0)) in E.
  apply Q2Qc_eq_iff in E. unfold Qeq in E. simpl in E. lia.
Qed.

Lemma N2Qc_to_nat (z : Z) : (0 <= z)%Z → N2Qc (Z.to_nat z) = Z2Qc z.
Proof. intros Hz. unfold N2Qc. by rewrite Z2Nat.id. Qed.

Lemma Qcmult_neq0 (a b : Qc) : a ≠ 0 → b ≠ 0 → a * b ≠ 0.
Proof. intros Ha Hb E. destruct (Qcmult_integral _ _ E); done. Qed.

Lemma fold_left_mul (l : list Z) (a : Z) :
  fold_left Z.mul l a = (a * fold_left Z.mul l 1)%Z.
Proof.
  revert a. induction l as [|x l IH]; intros a; simpl; [lia|].
  rewrite (IH (a * x)%Z), (IH (1 * x)%Z). lia.
Qed.

Lemma factor_product_cons (x : Z) (l : list Z) :
  factor_product (x :: l) = (x * factor_product l)%Z.
Proof. unfold factor_product. simpl. rewrite fold_left_mul. lia. Qed.

Lemma factor_product_pos (l : list Z) :
  Forall (fun n => (0 < n)%Z) l → (0 < factor_product l)%Z.
Proof.
  induction 1 as [|x l Hx _ IH]; [done|]. rewrite factor_product_cons. lia.
Qed.

Lemma omap_concat_replicate {A B} (f : A → option B) (k : nat) (l : list A) :
  omap f (concat (replicate k l)) = concat (replicate k (omap f l)).
Proof. induction k as [|k IH]; simpl; [done|]. by rewrite omap_app, IH. Qed.

Lemma sumQc_concat_replicate (k : nat) (l : list Qc) :
  sumQc (concat (replicate k l)) = N2Qc k * sumQc l.
Proof.
  induction k as [|k IH]; simpl.
  - rewrite N2Qc_0. ring.
  - rewrite sumQc_app, IH, N2Qc_S. ring.
Qed.

Lemma sumQc_replicate (k : nat) (x : Qc) : sumQc (replicate k x) = N2Qc k * x.
Proof.
  induction k as [|k IH]; simpl.
  - rewrite N2Qc_0. ring.
  - rewrite IH, N2Qc_S. ring.
Qed.

Lemma kick_times_app d l a b : kick_times d l (a ++ b) = kick_times d l a ++ kick_times d l b.
Proof. apply omap_app. Qed.

Lemma free_steps_app a b : free_steps (a ++ b) = free_steps a ++ free_steps b.
Proof. apply omap_app. Qed.

(** The schedule of [mtsprop] from level [index] on, when [r] levels are
    left and the factors are positive: the counts and step sizes of the
    position updates, and what the kicks of each level add up to. *)
Lemma mtsprop_calls_levels (L : Z) (d n : Qc) :
  ∀ (factors : list Z) (r index : nat) (alpha : Qc),
    (Z.of_nat index + Z.of_nat r = L)%Z →
    (1 <= r <= length factors)%nat →
    Forall (fun x => (0 < x)%Z) factors →
    alpha ≠ 0 →
    ∃ t, mtsprop_calls L d n factors index alpha = Some t
         ∧ qc_steps t
           = replicate (Z.to_nat (factor_product (take r factors)))
               (d / (alpha * Z2Qc (factor_product (take r factors))))
         ∧ free_steps t = replicate (Z.to_nat (factor_product (take r factors))) n
         ∧ (∀ l, (index <= l < index + r)%nat → sumQc (kick_times d l t) = d / alpha)
         ∧ (∀ l, (l < index)%nat → kick_times d l t = []).
Proof.
  induction factors as [|nmts rest IH]; intros r index alpha HL Hr Hpos Ha;
    [simpl in Hr; lia|].
  apply Forall_cons in Hpos as [Hn Hrest].
  assert (Hnq : Z2Qc nmts ≠ 0) by (apply Z2Qc_neq0; lia).
  assert (Ha' : alpha * Z2Qc nmts ≠ 0) by (by apply Qcmult_neq0).
  cbn [mtsprop_calls].
  destruct (Z.to_nat nmts) as [|k'] eqn:Ek; [lia|]. rewrite <- Ek.
  assert (Hkq : N2Qc (Z.to_nat nmts) = Z2Qc nmts) by (apply N2Qc_to_nat; lia).
  assert (Kt : ∀ l, kick_times d l [CMtsKick index (two * (alpha * Z2Qc nmts)); CPconstraints]
                    = if decide (index = l) then [d / (two * (alpha * Z2Qc nmts))] else []).
  { intros l. unfold kick_times. simpl. by case_decide. }
  destruct r as [|[|r']]; [lia| |].
  - (* the innermost level *)
    replace (Z.of_nat index =? L - 1)%Z with true by (symmetry; apply Z.eqb_eq; lia).
    eexists. split; [reflexivity|].
    assert (Hp : factor_product (take 1 (nmts :: rest)) = nmts).
    { cbn [take]. rewrite take_0, factor_product_cons. unfold factor_product. simpl. lia. }
    rewrite Hp. split; [|split; [|split]].
    + unfold qc_steps. rewrite omap_concat_replicate. simpl.
      change [d / (alpha * Z2Qc nmts)] with (replicate 1 (d / (alpha * Z2Qc nmts))).
      rewrite concat_replicate_replicate. f_equal. lia.
    + unfold free_steps. rewrite omap_concat_replicate. simpl.
      change [n] with (replicate 1 n).
      rewrite concat_replicate_replicate. f_equal. lia.
    + intros l Hl. assert (l = index) as -> by lia.
      unfold kick_times. rewrite omap_concat_replicate, sumQc_concat_replicate.
      simpl. rewrite decide_True by done. simpl. rewrite Hkq.
      pose proof two_neq0 as H2. rewrite two_1_1 in *. field. repeat split; done.
    + intros l Hl. unfold kick_times. rewrite omap_concat_replicate. simpl.
      rewrite decide_False by lia. simpl.
      clear. induction (Z.to_nat nmts) as [|k IHk]; simpl; done.
  - (* an outer level: the next level runs in between *)
    replace (Z.of_nat index =? L - 1)%Z with false by (symmetry; apply Z.eqb_neq; lia).
    destruct (IH (S r') (S index) (alpha * Z2Qc nmts)) as (inner & -> & Hq & Hf & Hk & Hk0);
      [lia | simpl in Hr; lia | done | done |].
    eexists. split; [reflexivity|].
    assert (Hp : factor_product (take (S (S r')) (nmts :: rest))
                 = (nmts * factor_product (take (S r') rest))%Z).
    { cbn [take]. apply factor_product_cons. }
    rewrite Hp. set (M := factor_product (take (S r') rest)) in *.
    assert (HM : (0 < M)%Z) by (apply factor_product_pos, Forall_take, Hrest).
    split; [|split; [|split]].
    + unfold qc_steps. rewrite omap_concat_replicate, !omap_app. fold (qc_steps inner).
      rewrite Hq. simpl. rewrite app_nil_r, concat_replicate_replicate.
      rewrite Z2Qc_mul, Z2Nat.inj_mul by lia. f_equal. f_equal. ring.
    + unfold free_steps. rewrite omap_concat_replicate, !omap_app. fold (free_steps inner).
      rewrite Hf. simpl. rewrite app_nil_r, concat_replicate_replicate.
      by rewrite Z2Nat.inj_mul by lia.
    + intros l Hl.
      replace (kick_times d l (concat (replicate (Z.to_nat nmts)
                 ([CMtsKick index (two * (alpha * Z2Qc nmts)); CPconstraints] ++ inner
                  ++ [CMtsKick index (two * (alpha * Z2Qc nmts)); CPconstraints]))))
        with (concat (replicate (Z.to_nat nmts)
                (kick_times d l [CMtsKick index (two * (alpha * Z2Qc nmts)); CPconstraints]
                 ++ kick_times d l inner
                 ++ kick_times d l [CMtsKick index (two * (alpha * Z2Qc nmts)); CPconstraints])))
        by (unfold kick_times; by rewrite omap_concat_replicate, !omap_app).
      rewrite sumQc_concat_replicate, !sumQc_app, Kt, Hkq.
      destruct (decide (index = l)) as [<-|Hne].
      * rewrite Hk0 by lia. simpl.
        pose proof two_neq0 as H2. rewrite two_1_1 in *. field. repeat split; done.
      * rewrite Hk by lia. simpl. field. split; done.
    + intros l Hl.
      replace (kick_times d l (concat (replicate (Z.to_nat nmts)
                 ([CMtsKick index (two * (alpha * Z2Qc nmts)); CPconstraints] ++ inner
                  ++ [CMtsKick index (two * (alpha * Z2Qc nmts)); CPconstraints]))))
        with (concat (replicate (Z.to_nat nmts)
                (kick_times d l [CMtsKick index (two * (alpha * Z2Qc nmts)); CPconstraints]
                 ++ kick_times d l inner
                 ++ kick_times d l [CMtsKick index (two * (alpha * Z2Qc nmts)); CPconstraints])))
        by (unfold kick_times; by rewrite omap_concat_replicate, !omap_app).
      rewrite Kt, decide_False by lia. rewrite Hk0 by lia. simpl.
      clear. induction (Z.to_nat nmts) as [|k IHk]; simpl; done.
Qed.

(** ** The record of calls against the shared objects

    Every call that a step records is carried out on the shared objects, in
    the order of the record: the state after the step is the state that the
    recorded calls produce. *)

Lemma run_calls_app C e0 a b s :
  run_calls C e0 (a ++ b) s = run_calls C e0 b (run_calls C e0 a s).
Proof. apply fold_left_app. Qed.

Lemma cfg_temp e e' : cfg e' = cfg e → temp e' = temp e.
Proof. unfold cfg. congruence. Qed.

Lemma thermostat_wiring_cfg (e0 e : Ensemble) :
  cfg e = cfg e0 → thermostat_wiring e = thermostat_wiring (set_sys (sys e) e0).
Proof.
  intros Hc. unfold thermostat_wiring, get_ntemp, thermostat_fixdof.
  cbn [sys set_sys dt temp fixcom fixatoms].
  by rewrite (cfg_temp _ _ Hc), (cfg_dt _ _ Hc), (cfg_fixcom _ _ Hc), (cfg_fixatoms _ _ Hc).
Qed.

Lemma length_triple (l : list Qc) : length (l ≫= fun x => [x; x; x]) = (3 * length l)%nat.
Proof.
  induction l as [|x l IH]; [done|].
  change ((x :: l) ≫= fun x => [x; x; x]) with ([x; x; x] ++ (l ≫= fun x => [x; x; x])).
  rewrite length_app, IH. simpl. lia.
Qed.

Lemma at0_zip_plus (r1 r2 : list Qc) (j : nat) :
  (j < length r1)%nat → (j < length r2)%nat →
  at0 (zip_with Qcplus r1 r2) j = at0 r1 j + at0 r2 j.
Proof.
  intros H1 H2. unfold at0. rewrite lookup_zip_with.
  destruct (lookup_lt_is_Some_2 r1 j H1) as [x ->].
  destruct (lookup_lt_is_Some_2 r2 j H2) as [y ->]. reflexivity.
Qed.

Lemma at0_map_vdiv (scale : Qc → Qc) (a b : list Qc) (j : nat) :
  (j < length a)%nat → (j < length b)%nat →
  at0 (map scale (vdiv a b)) j = scale (at0 a j / at0 b j).
Proof.
  intros H1 H2. unfold at0, vdiv. rewrite list_lookup_fmap, lookup_zip_with.
  destruct (lookup_lt_is_Some_2 a j H1) as [x ->].
  destruct (lookup_lt_is_Some_2 b j H2) as [y ->]. reflexivity.
Qed.

(** The momenta that a constraint pass leaves have zeros at the fixed atoms. *)
Lemma at0_triple_div (l : list Qc) (j : nat) :
  at0 (l ≫= fun x => [x; x; x]) j = at0 l (j / 3).
Proof.
  revert j. induction l as [|x l IH]; intros j; [done|].
  change ((x :: l) ≫= fun x => [x; x; x]) with ([x; x; x] ++ (l ≫= fun x => [x; x; x])).
  destruct j as [|[|[|j]]]; try reflexivity.
  change (at0 ([x; x; x] ++ (l ≫= fun x => [x; x; x])) (S (S (S j))))
    with (at0 (l ≫= fun x => [x; x; x]) j).
  rewrite IH.
  replace (S (S (S j)) / 3)%nat with (S (j / 3)).
  - reflexivity.
  - change (S (S (S j))) with (1 * 3 + j)%nat. by rewrite Nat.div_add_l.
Qed.

Lemma entry_axpy c (f x : array) (b j : nat) :
  (j < length (default [] (x !! b)))%nat →
  (j < length (default [] (f !! b)))%nat →
  entry (axpy c f x) b j = entry x b j + entry f b j * c.
Proof.
  unfold entry, axpy, array in *. rewrite lookup_zip_with.
  destruct (@lookup nat (list Qc) (list (list Qc)) _ b x) as [row|]; [|simpl; lia].
  destruct (@lookup nat (list Qc) (list (list Qc)) _ b f) as [frow|]; [|simpl; lia].
  simpl. intros H1 H2. unfold at0. rewrite lookup_zip_with.
  destruct (lookup_lt_is_Some_2 row j H1) as [u ->].
  destruct (lookup_lt_is_Some_2 frow j H2) as [v ->]. reflexivity.
Qed.

(** A kick is a kick. *)
Lemma kick_sys_kicked c (f : array → array → array) (s : Sys) :
  momenta_kicked (f (q s) (h s)) c s (kick_sys c f s).
Proof.
  split; [reflexivity|]. intros b j H1 H2. unfold kick_sys. cbn [p set_p].
  by apply entry_axpy.
Qed.

(** A centroid update of step [tau] advances the centroid coordinates by
    [pnm[0]/m3[0] * tau], when the inverse transformation is undone by the
    transformation. *)
Lemma centroid_update_advanced (C : Collaborators) (tau : Qc) (s : Sys) :
  (∀ a, nm_transform C (nm_inverse C a) = a) →
  centroid_advanced C tau s (centroid_update C (fun x => x * tau) s).
Proof.
  intros Hback. split; [reflexivity|]. intros j Hj Hq Hp.
  unfold centroid_update. cbn [q set_q]. rewrite Hback.
  unfold entry, array in *.
  destruct (@lookup nat (list Qc) (list (list Qc)) _ 0%nat (nm_transform C (q s)))
    as [q0|] eqn:Eq; [|simpl in Hq; lia].
  rewrite list_lookup_insert_eq by (by apply lookup_lt_Some in Eq).
  simpl in Hq |- *.
  assert (Hm3 : (j < length (m s ≫= fun x => [x; x; x]))%nat)
    by (rewrite length_triple; unfold beads_natoms in Hj; lia).
  assert (Hv : lt j (length (map (fun x : Qc => x * tau)
                              (vdiv (default [] (nm_transform C (p s) !! 0%nat))
                                    (m s ≫= fun x => [x; x; x]))))).
  { rewrite length_map. unfold vdiv. rewrite length_zip_with. unfold array in *. lia. }
  unfold array in *.
  rewrite at0_zip_plus by done.
  rewrite (at0_map_vdiv (fun x => x * tau)) by done.
  by rewrite at0_triple_div.
Qed.

Section Effects.

Context (C : Collaborators).

Lemma follows_refl e : follows C e e [].
Proof. split; [apply extends_refl | reflexivity]. Qed.

Lemma follows_snoc e0 e e1 tr c :
  follows C e0 e tr → extends e0 e1 (tr ++ [c]) →
  sys e1 = call_effect C e0 c (sys e) →
  follows C e0 e1 (tr ++ [c]).
Proof.
  intros [_ Hs] He1 H1. split; [done|].
  rewrite run_calls_app, <- Hs. exact H1.
Qed.

Lemma follows_eq e0 e tr tr' : follows C e0 e tr → tr = tr' → follows C e0 e tr'.
Proof. by intros H <-. Qed.

Lemma follows_pconstraints e0 e tr :
  follows C e0 e tr → follows C e0 (NVEEnsemble_pconstraints e) (tr ++ [CPconstraints]).
Proof.
  intros H. pose proof H as [He _].
  eapply follows_snoc; [exact H | by apply extends_pconstraints |].
  destruct He as [Hc _]. rewrite sys_pconstraints. cbn [call_effect].
  by rewrite (cfg_fixcom _ _ Hc), (cfg_fixatoms _ _ Hc).
Qed.

Lemma follows_thermo e0 e tr :
  follows C e0 e tr → follows C e0 (thermostat_step_call C e) (tr ++ [CThermostatStep]).
Proof.
  intros H. pose proof H as [He _].
  eapply follows_snoc; [exact H | by apply extends_thermo |].
  destruct He as [Hc _]. cbn [call_effect].
  rewrite <- (thermostat_wiring_cfg e0 e Hc). reflexivity.
Qed.

Lemma follows_bias_kick e0 e tr :
  follows C e0 e tr →
  follows C e0 (called CBiasKick (kick (dt e * half) (bias_f C) e)) (tr ++ [CBiasKick]).
Proof.
  intros H. pose proof H as [He _].
  eapply follows_snoc; [exact H | by apply extends_bias_kick |].
  destruct He as [Hc _]. cbn [call_effect]. rewrite <- (cfg_dt _ _ Hc). reflexivity.
Qed.

Lemma follows_MTS_pstep l a e0 e tr :
  follows C e0 e tr → follows C e0 (MTSEnsemble_pstep C l a e) (tr ++ [CMtsKick l a]).
Proof.
  intros H. pose proof H as [He _].
  eapply follows_snoc; [exact H | by apply extends_MTS_pstep |].
  destruct He as [Hc _]. cbn [call_effect]. rewrite <- (cfg_dt _ _ Hc). reflexivity.
Qed.

Lemma follows_MTS_qcstep a e0 e tr :
  follows C e0 e tr → follows C e0 (MTSEnsemble_qcstep C a e) (tr ++ [CQcstep (dt e0 / a)]).
Proof.
  intros H. pose proof H as [He _].
  eapply follows_snoc; [exact H | by apply extends_MTS_qcstep |].
  destruct He as [Hc _]. cbn [call_effect]. rewrite <- (cfg_dt _ _ Hc).
  apply MTS_qcstep_effective.
Qed.

Lemma follows_free e0 e tr :
  follows C e0 e tr → follows C e0 (nm_free_qstep_call C e) (tr ++ [CFreeQstep (nm_dt e0)]).
Proof.
  intros H. pose proof H as [He _].
  eapply follows_snoc; [exact H | by apply extends_free |].
  destruct He as [Hc _]. cbn [call_effect]. rewrite <- (cfg_nm_dt _ _ Hc). reflexivity.
Qed.

Lemma repeat_steps_follows (body : Ensemble → option Ensemble) bt e0 :
  (∀ e tr, follows C e0 e tr → ∃ e', body e = Some e' ∧ follows C e0 e' (tr ++ bt)) →
  ∀ n e tr, follows C e0 e tr →
    ∃ e', repeat_steps n body e = Some e'
          ∧ follows C e0 e' (tr ++ concat (replicate n bt)).
Proof.
  intros Hbody n. induction n as [|n IH]; intros e tr He; simpl.
  - exists e. split; [done|]. by rewrite app_nil_r.
  - destruct (Hbody e tr He) as (e1 & -> & He1).
    destruct (IH e1 _ He1) as (e2 & -> & He2).
    exists e2. split; [done|]. by rewrite app_assoc.
Qed.

(** [mtsprop] carries out the calls of [mtsprop_calls]. *)
Lemma mtsprop_from_follows (factors : list Z) :
  ∀ index alpha e0 e tr, follows C e0 e tr →
    match mtsprop_calls (forces_nmtslevels C) (dt e0) (nm_dt e0) factors index alpha with
    | Some t => ∃ e', mtsprop_from C factors index alpha e = Some e'
                      ∧ follows C e0 e' (tr ++ t)
    | None => True
    end.
Proof.
  induction factors as [|nmts rest IH]; intros index alpha e0 e tr He; [done|].
  cbn [mtsprop_calls mtsprop_from].
  destruct (Z.to_nat nmts) as [|n] eqn:En.
  { exists e. split; [done|]. by rewrite app_nil_r. }
  destruct (Z.of_nat index =? forces_nmtslevels C - 1)%Z eqn:Elast.
  - apply repeat_steps_follows; [|done]. intros e1 tr1 He1.
    eexists. split; [reflexivity|].
    eapply follows_eq.
    + apply follows_pconstraints, follows_MTS_pstep, follows_free, follows_MTS_qcstep,
            follows_pconstraints, follows_MTS_pstep, He1.
    + rewrite <- !app_assoc. reflexivity.
  - destruct (mtsprop_calls (forces_nmtslevels C) (dt e0) (nm_dt e0) rest (S index)
                (alpha * Z2Qc nmts)) as [inner|] eqn:Einner; [|done].
    apply repeat_steps_follows; [|done]. intros e1 tr1 He1.
    pose proof (IH (S index) (alpha * Z2Qc nmts) e0
                (NVEEnsemble_pconstraints
                   (MTSEnsemble_pstep C index (two * (alpha * Z2Qc nmts)) e1))
                ((tr1 ++ [CMtsKick index (two * (alpha * Z2Qc nmts))]) ++ [CPconstraints]))
      as Hrec.
    rewrite Einner in Hrec.
    destruct Hrec as (e2 & -> & He2);
      [apply follows_pconstraints, follows_MTS_pstep, He1|].
    eexists. split; [reflexivity|].
    eapply follows_eq.
    + apply follows_pconstraints, follows_MTS_pstep, He2.
    + rewrite <- !app_assoc. reflexivity.
Qed.

(** The shared objects after one [MTSEnsemble.step] are those that the calls
    it recorded produce, carried out in the order of the record. *)
Lemma MTS_step_effect (e e' : Ensemble) :
  MTSEnsemble_step C e = Some e' →
  sys e' = run_calls C e (calls_since e e') (sys e).
Proof.
  intros Hstep.
  pose proof (MTS_step_calls C e) as Hs. unfold mts_step_calls in Hs.
  destruct (mtsprop_calls (forces_nmtslevels C) (dt e) (nm_dt e) (mtsintegfactors e) 0 1)
    as [mid|] eqn:Emid; [|congruence].
  destruct Hs as (e1 & Hstep1 & Hext). rewrite Hstep in Hstep1. injection Hstep1 as <-.
  rewrite (extends_calls_since _ _ _ Hext).
  revert Hstep. unfold MTSEnsemble_step, MTSEnsemble_mtsprop.
  set (ea := called CBiasKick (kick _ (bias_f C) (NVEEnsemble_pconstraints (thermostat_step_call C e)))).
  assert (Ha : follows C e ea [CThermostatStep; CPconstraints; CBiasKick]).
  { apply (follows_bias_kick e _ [_; _]), (follows_pconstraints e _ [_]),
          (follows_thermo e _ []), follows_refl. }
  assert (Hf : mtsintegfactors ea = mtsintegfactors e) by (apply cfg_factors, Ha).
  rewrite drop_0, Hf.
  pose proof (mtsprop_from_follows (mtsintegfactors e) 0 1 e ea _ Ha) as Hrec.
  rewrite Emid in Hrec. destruct Hrec as (e2 & -> & He2).
  intros [= <-].
  assert (Hend : follows C e
            (NVEEnsemble_pconstraints
               (thermostat_step_call C
                  (called CBiasKick (kick (dt e2 * half) (bias_f C) e2))))
            ([CThermostatStep; CPconstraints; CBiasKick] ++ mid
             ++ [CBiasKick; CThermostatStep; CPconstraints])).
  { eapply follows_eq.
    - apply follows_pconstraints, follows_thermo, follows_bias_kick, He2.
    - rewrite <- !app_assoc. reflexivity. }
  exact (proj2 Hend).
Qed.

End Effects.

(** C4: with two levels and factors [n0; n1], one [MTSEnsemble.step] makes
    exactly [n0*n1] centroid position updates, each advancing the centroid
    by the step [dt/(n0*n1)].  The record of the step holds [n0*n1] centroid
    updates, all of step [dt/(n0*n1)]; the shared objects after the step are
    those that the recorded calls produce when carried out in order; and a
    recorded centroid update of step [tau] adds [pnm[0]/m3[0] * tau] to the
    centroid coordinates [qnm[0]] (read back through the normal-mode
    transformation, which is taken to undo its inverse). *)
Theorem C4_two_level_centroid_updates (C : Collaborators) (e : Ensemble) (n0 n1 : Z) :
  (0 < n0)%Z → (0 < n1)%Z →
  forces_nmtslevels C = 2%Z →
  mtsintegfactors e = [n0; n1] →
  ∃ e', MTSEnsemble_step C e = Some e' ∧
        qc_steps (calls_since e e')
        = replicate (Z.to_nat (n0 * n1)) (dt e / Z2Qc (n0 * n1)) ∧
        length (qc_steps (calls_since e e')) = Z.to_nat (n0 * n1) ∧
        sys e' = run_calls C e (calls_since e e') (sys e) ∧
        ((∀ a, nm_transform C (nm_inverse C a) = a) →
         ∀ tau s, centroid_advanced C tau s (call_effect C e (CQcstep tau) s)).
Proof.
  intros H0 H1 HL Hf.
  pose proof (MTS_step_calls C e) as Hs.
  rewrite HL, Hf in Hs. unfold mts_step_calls in Hs. cbn [mtsprop_calls] in Hs.
  destruct (Z.to_nat n0) as [|k0] eqn:E0; [lia|].
  destruct (Z.to_nat n1) as [|k1] eqn:E1; [lia|].
  change (Z.of_nat 0 =? 2 - 1)%Z with false in Hs.
  change (Z.of_nat 1 =? 2 - 1)%Z with true in Hs.
  cbv iota in Hs.
  destruct Hs as (e' & Hstep & Hext).
  exists e'. split; [exact Hstep|].
  assert (Hq : qc_steps (calls_since e e')
               = replicate (Z.to_nat (n0 * n1)) (dt e / Z2Qc (n0 * n1))).
  { rewrite (extends_calls_since _ _ _ Hext).
    assert (A1 : ∀ l a, qc_steps [CMtsKick l a; CPconstraints] = []) by reflexivity.
    assert (A2 : ∀ t n, qc_steps [CQcstep t; CFreeQstep n] = [t]) by reflexivity.
    assert (A3 : qc_steps [CThermostatStep; CPconstraints; CBiasKick] = []) by reflexivity.
    assert (A4 : qc_steps [CBiasKick; CThermostatStep; CPconstraints] = []) by reflexivity.
    rewrite !qc_steps_app, qc_steps_repeat, !qc_steps_app, qc_steps_repeat, !qc_steps_app.
    rewrite !A1, A2, A3, A4, !app_nil_r. cbn [app].
    change [dt e / (1 * Z2Qc n0 * Z2Qc n1)]
      with (replicate 1 (dt e / (1 * Z2Qc n0 * Z2Qc n1))).
    rewrite !concat_replicate_replicate.
    rewrite Z2Nat.inj_mul by lia. rewrite E0, E1, Z2Qc_mul.
    replace (1 * Z2Qc n0 * Z2Qc n1) with (Z2Qc n0 * Z2Qc n1) by ring.
    f_equal. lia. }
  split; [exact Hq|]. split; [by rewrite Hq, length_replicate|].
  split; [by apply MTS_step_effect|].
  intros Hback tau s. by apply centroid_update_advanced.
Qed.

Lemma C4_two_level_centroid_updates_witness :
  ∃ e', MTSEnsemble_step pushing (mkEns 1 1 false [] 0 [2%Z; 3%Z] 0 [] 1 sys_two_atoms [])
        = Some e' ∧
        qc_steps (calls_since (mkEns 1 1 false [] 0 [2%Z; 3%Z] 0 [] 1 sys_two_atoms []) e')
        = replicate 6 (1 / Z2Qc 6) ∧
        length (qc_steps (calls_since (mkEns 1 1 false [] 0 [2%Z; 3%Z] 0 [] 1 sys_two_atoms []) e'))
        = 6%nat ∧
        sys e' = run_calls pushing (mkEns 1 1 false [] 0 [2%Z; 3%Z] 0 [] 1 sys_two_atoms [])
                   (calls_since (mkEns 1 1 false [] 0 [2%Z; 3%Z] 0 [] 1 sys_two_atoms []) e')
                   (sys_two_atoms) ∧
        ((∀ a, nm_transform pushing (nm_inverse pushing a) = a) →
         ∀ tau s, centroid_advanced pushing tau s
                    (call_effect pushing (mkEns 1 1 false [] 0 [2%Z; 3%Z] 0 [] 1 sys_two_atoms [])
                       (CQcstep tau) s)).
Proof.
  apply (C4_two_level_centroid_updates pushing
           (mkEns 1 1 false [] 0 [2%Z; 3%Z] 0 [] 1 sys_two_atoms []) 2 3);
    first [lia | reflexivity].
Defined.

Lemma mtsprop_calls_short (L : Z) (d n : Qc) :
  ∀ (factors : list Z) (index : nat) (alpha : Qc),
    Forall (fun x => (0 < x)%Z) factors →
    ¬ (Z.of_nat index <= L - 1 < Z.of_nat index + Z.of_nat (length factors))%Z →
    mtsprop_calls L d n factors index alpha = None.
Proof.
  induction factors as [|nmts rest IH]; intros index alpha Hpos Hout; [reflexivity|].
  apply Forall_cons in Hpos as [Hn Hrest].
  cbn [mtsprop_calls]. destruct (Z.to_nat nmts) as [|k'] eqn:Ek; [lia|].
  destruct (Z.eqb_spec (Z.of_nat index) (L - 1)) as [E|E].
  - exfalso. apply Hout. simpl. lia.
  - rewrite IH; [done | done |]. intros H. apply Hout. simpl. lia.
Qed.

Section MtsSchedule.

Context (C : Collaborators).

(** One step with positive factors covering the [L] levels: it returns, and
    the calls of [mtsprop] sit between the two bias half-kicks. *)
Lemma MTS_step_levels (e : Ensemble) (L : nat) :
  Forall (fun x => (0 < x)%Z) (mtsintegfactors e) →
  forces_nmtslevels C = Z.of_nat L →
  (1 <= L <= length (mtsintegfactors e))%nat →
  ∃ e' t, MTSEnsemble_step C e = Some e'
    ∧ calls_since e e'
      = [CThermostatStep; CPconstraints; CBiasKick] ++ t
        ++ [CBiasKick; CThermostatStep; CPconstraints]
    ∧ qc_steps t
      = replicate (Z.to_nat (factor_product (take L (mtsintegfactors e))))
          (dt e / Z2Qc (factor_product (take L (mtsintegfactors e))))
    ∧ free_steps t
      = replicate (Z.to_nat (factor_product (take L (mtsintegfactors e)))) (nm_dt e)
    ∧ (∀ l, (l < L)%nat → sumQc (kick_times (dt e) l t) = dt e)
    ∧ sys e' = run_calls C e (calls_since e e') (sys e).
Proof.
  intros Hpos HL Hr.
  pose proof (MTS_step_calls C e) as Hs. unfold mts_step_calls in Hs.
  destruct (mtsprop_calls_levels (forces_nmtslevels C) (dt e) (nm_dt e)
              (mtsintegfactors e) L 0 1) as (t & Ht & Hq & Hf & Hk & _);
    [lia | done | done | done |].
  rewrite Ht in Hs. destruct Hs as (e' & Hstep & Hext).
  exists e', t. split; [exact Hstep|]. split; [by apply extends_calls_since|].
  split; [|split; [|split]].
  - rewrite Hq. f_equal. f_equal. ring.
  - exact Hf.
  - intros l Hl. rewrite Hk by lia. apply Qc_is_canon. simpl.
    rewrite Qred_correct. unfold Qeq. simpl. lia.
  - by apply MTS_step_effect.
Qed.

End MtsSchedule.

(** X7: with positive factors, [MTSEnsemble.step] returns exactly when
    there is at least one force level and one factor for each level;
    otherwise reading [mtsintegfactors[index]] runs past the end of the list
    and the step raises. *)
Theorem MTS_step_needs_a_factor_per_level (C : Collaborators) (e : Ensemble) :
  Forall (fun x => (0 < x)%Z) (mtsintegfactors e) →
  is_Some (MTSEnsemble_step C e)
  ↔ (1 <= forces_nmtslevels C <= Z.of_nat (length (mtsintegfactors e)))%Z.
Proof.
  intros Hpos. split.
  - intros Hsome.
    destruct (decide (1 <= forces_nmtslevels C
                      <= Z.of_nat (length (mtsintegfactors e)))%Z) as [|Hout]; [done|].
    exfalso. pose proof (MTS_step_calls C e) as Hs. unfold mts_step_calls in Hs.
    rewrite mtsprop_calls_short in Hs by (done || lia).
    rewrite Hs in Hsome. by destruct Hsome.
  - intros HL.
    destruct (MTS_step_levels C e (Z.to_nat (forces_nmtslevels C)))
      as (e' & t & -> & _); [done | lia | lia | done].
Qed.

Lemma MTS_step_needs_a_factor_per_level_witness :
  is_Some (MTSEnsemble_step (idle 2) (ens_two_atoms false []))
  ↔ (1 <= 2 <= 1)%Z.
Proof.
  apply (MTS_step_needs_a_factor_per_level (idle 2) (ens_two_atoms false [])).
  repeat constructor.
Defined.

(** X8: with [L] force levels and positive factors, one [MTSEnsemble.step]
    makes as many centroid position updates as the product [N] of the first
    [L] factors, each of step [dt/N]; together they cover the time step
    [dt].  The updates are those of the record of the step; the shared
    objects after the step are those that the recorded calls produce when
    carried out in order; and a recorded centroid update of step [tau] adds
    [pnm[0]/m3[0] * tau] to the centroid coordinates [qnm[0]] (read back
    through the normal-mode transformation, which is taken to undo its
    inverse). *)
Theorem MTS_centroid_updates (C : Collaborators) (e : Ensemble) (L : nat) :
  Forall (fun x => (0 < x)%Z) (mtsintegfactors e) →
  forces_nmtslevels C = Z.of_nat L →
  (1 <= L <= length (mtsintegfactors e))%nat →
  ∃ e', MTSEnsemble_step C e = Some e'
    ∧ qc_steps (calls_since e e')
      = replicate (Z.to_nat (factor_product (take L (mtsintegfactors e))))
          (dt e / Z2Qc (factor_product (take L (mtsintegfactors e))))
    ∧ sumQc (qc_steps (calls_since e e')) = dt e
    ∧ sys e' = run_calls C e (calls_since e e') (sys e)
    ∧ ((∀ a, nm_transform C (nm_inverse C a) = a) →
       ∀ tau s, centroid_advanced C tau s (call_effect C e (CQcstep tau) s)).
Proof.
  intros Hpos HL Hr.
  destruct (MTS_step_levels C e L Hpos HL Hr) as (e' & t & Hstep & Hc & Hq & _ & _ & Hsys).
  exists e'. split; [exact Hstep|].
  assert (E : qc_steps (calls_since e e')
              = replicate (Z.to_nat (factor_product (take L (mtsintegfactors e))))
                  (dt e / Z2Qc (factor_product (take L (mtsintegfactors e))))).
  { rewrite Hc, !qc_steps_app, Hq. simpl. by rewrite app_nil_r. }
  split; [exact E|].
  split; [|split; [exact Hsys | intros Hback tau s; by apply centroid_update_advanced]].
  rewrite E, sumQc_replicate.
  pose proof (factor_product_pos (take L (mtsintegfactors e)) (Forall_take _ _ _ Hpos)) as HN.
  rewrite N2Qc_to_nat by lia. field. apply Z2Qc_neq0. lia.
Qed.

Lemma MTS_centroid_updates_witness :
  ∃ e', MTSEnsemble_step pushing
          (mkEns 1 1 false [] 0 [2%Z; 3%Z; 2%Z] 0 [] 1 sys_two_atoms []) = Some e'
    ∧ qc_steps (calls_since (mkEns 1 1 false [] 0 [2%Z; 3%Z; 2%Z] 0 [] 1 sys_two_atoms []) e')
      = replicate 6 (1 / Z2Qc 6)
    ∧ sumQc (qc_steps (calls_since
               (mkEns 1 1 false [] 0 [2%Z; 3%Z; 2%Z] 0 [] 1 sys_two_atoms []) e')) = 1
    ∧ sys e' = run_calls pushing
                 (mkEns 1 1 false [] 0 [2%Z; 3%Z; 2%Z] 0 [] 1 sys_two_atoms [])
                 (calls_since (mkEns 1 1 false [] 0 [2%Z; 3%Z; 2%Z] 0 [] 1 sys_two_atoms []) e')
                 sys_two_atoms
    ∧ ((∀ a, nm_transform pushing (nm_inverse pushing a) = a) →
       ∀ tau s, centroid_advanced pushing tau s
                  (call_effect pushing
                     (mkEns 1 1 false [] 0 [2%Z; 3%Z; 2%Z] 0 [] 1 sys_two_atoms [])
                     (CQcstep tau) s)).
Proof.
  apply (MTS_centroid_updates pushing
           (mkEns 1 1 false [] 0 [2%Z; 3%Z; 2%Z] 0 [] 1 sys_two_atoms []) 2).
  - repeat constructor.
  - reflexivity.
  - simpl. lia.
Defined.

(** X9: with [L] force levels and positive factors, the kicks that one
    [MTSEnsemble.step] gives with the force of any level [l < L] add up to
    the whole time step: every level acts for [dt], however the step is
    split.  The kicks are those of the record of the step; the shared
    objects after the step are those that the recorded calls produce when
    carried out in order; and a recorded kick of level [l] and divisor
    [alpha] adds [forces_mts(l) * (dt/alpha)] to the momenta. *)
Theorem MTS_kicks_cover_the_step (C : Collaborators) (e : Ensemble) (L : nat) :
  Forall (fun x => (0 < x)%Z) (mtsintegfactors e) →
  forces_nmtslevels C = Z.of_nat L →
  (1 <= L <= length (mtsintegfactors e))%nat →
  ∃ e', MTSEnsemble_step C e = Some e'
    ∧ (∀ l, (l < L)%nat → sumQc (kick_times (dt e) l (calls_since e e')) = dt e)
    ∧ sys e' = run_calls C e (calls_since e e') (sys e)
    ∧ (∀ l alpha s,
         momenta_kicked (forces_mts C l (q s) (h s)) (dt e / alpha) s
           (call_effect C e (CMtsKick l alpha) s)).
Proof.
  intros Hpos HL Hr.
  destruct (MTS_step_levels C e L Hpos HL Hr) as (e' & t & Hstep & Hc & _ & _ & Hk & Hsys).
  exists e'. split; [exact Hstep|].
  split; [|split; [exact Hsys | intros l alpha s; apply kick_sys_kicked]]. intros l Hl.
  rewrite Hc, !kick_times_app, !sumQc_app, Hk by done.
  unfold kick_times. simpl. ring.
Qed.

Lemma MTS_kicks_cover_the_step_witness :
  ∃ e', MTSEnsemble_step pushing
          (mkEns 1 1 false [] 0 [2%Z; 3%Z; 2%Z] 0 [] 1 sys_two_atoms []) = Some e'
    ∧ (∀ l, (l < 2)%nat →
        sumQc (kick_times 1 l (calls_since
                 (mkEns 1 1 false [] 0 [2%Z; 3%Z; 2%Z] 0 [] 1 sys_two_atoms []) e')) = 1)
    ∧ sys e' = run_calls pushing
                 (mkEns 1 1 false [] 0 [2%Z; 3%Z; 2%Z] 0 [] 1 sys_two_atoms [])
                 (calls_since (mkEns 1 1 false [] 0 [2%Z; 3%Z; 2%Z] 0 [] 1 sys_two_atoms []) e')
                 sys_two_atoms
    ∧ (∀ l alpha s,
         momenta_kicked (forces_mts pushing l (q s) (h s)) (1 / alpha) s
           (call_effect pushing
              (mkEns 1 1 false [] 0 [2%Z; 3%Z; 2%Z] 0 [] 1 sys_two_atoms [])
              (CMtsKick l alpha) s)).
Proof.
  apply (MTS_kicks_cover_the_step pushing
           (mkEns 1 1 false [] 0 [2%Z; 3%Z; 2%Z] 0 [] 1 sys_two_atoms []) 2).
  - repeat constructor.
  - reflexivity.
  - simpl. lia.
Defined.

Lemma MTS_bind_cfg (s : Sys) (e : Ensemble) :
  dt (MTSEnsemble_bind s e) = dt e
  ∧ mtsintegfactors (MTSEnsemble_bind s e) = mtsintegfactors e
  ∧ nm_dt (MTSEnsemble_bind s e) = dt e / Z2Qc (factor_product (mtsintegfactors e)).
Proof.
  unfold MTSEnsemble_bind, Ensemble_bind.
  pose proof (cfg_pconstraints (set_nm_dt (dt e) (set_sys s e))) as Hc.
  cbn [dt mtsintegfactors nm_dt set_nm_dt]. unfold MTS_inmts.
  rewrite (cfg_dt _ _ Hc), (cfg_factors _ _ Hc). done.
Qed.



(** With more factors than levels the free propagation falls short of the
    time step: one level and the factors [2; 3] give two centroid updates of
    [dt/2] but two free propagations of [dt/6]. *)
Lemma MTS_free_propagation_spare_factor :
  ∃ e', MTSEnsemble_step (idle 1)
          (MTSEnsemble_bind sys_two_atoms
             (mkEns 1 1 false [] 0 [2%Z; 3%Z] 0 [] 1 sys_two_atoms [])) = Some e'
    ∧ qc_steps (calls_since
                  (MTSEnsemble_bind sys_two_atoms
                     (mkEns 1 1 false [] 0 [2%Z; 3%Z] 0 [] 1 sys_two_atoms [])) e')
      = [1 / Z2Qc 2; 1 / Z2Qc 2]
    ∧ free_steps (calls_since
                    (MTSEnsemble_bind sys_two_atoms
                       (mkEns 1 1 false [] 0 [2%Z; 3%Z] 0 [] 1 sys_two_atoms [])) e')
      = [1 / Z2Qc 6; 1 / Z2Qc 6].
Proof.
  destruct (MTS_step_levels (idle 1)
              (MTSEnsemble_bind sys_two_atoms
                 (mkEns 1 1 false [] 0 [2%Z; 3%Z] 0 [] 1 sys_two_atoms [])) 1)
    as (e' & t & Hstep & Hc & Hq & Hf & _);
    [repeat constructor | reflexivity | simpl; lia |].
  exists e'. split; [exact Hstep|].
  rewrite Hc, !qc_steps_app, !free_steps_app, Hq, Hf.
  split; simpl; repeat (f_equal; try qc_eq).
Qed.

(** X11: a first factor that is zero or negative makes [mtsprop] an empty
    loop: the step returns without a single force kick or position update,
    whatever the number of levels and the other factors. *)
Theorem MTS_nonpositive_first_factor
    (C : Collaborators) (e : Ensemble) (n0 : Z) (rest : list Z) :
  mtsintegfactors e = n0 :: rest → (n0 <= 0)%Z →
  ∃ e', MTSEnsemble_step C e = Some e'
    ∧ calls_since e e'
      = [CThermostatStep; CPconstraints; CBiasKick;
         CBiasKick; CThermostatStep; CPconstraints].
Proof.
  intros Hf Hn.
  pose proof (MTS_step_calls C e) as Hs. unfold mts_step_calls in Hs.
  rewrite Hf in Hs. cbn [mtsprop_calls] in Hs.
  replace (Z.to_nat n0) with 0%nat in Hs by lia.
  destruct Hs as (e' & Hstep & Hext).
  exists e'. split; [exact Hstep|]. by apply extends_calls_since.
Qed.

Lemma MTS_nonpositive_first_factor_witness :
  ∃ e', MTSEnsemble_step (idle 2)
          (mkEns 1 1 false [] 0 [0%Z] 0 [] 1 sys_two_atoms []) = Some e'
    ∧ calls_since (mkEns 1 1 false [] 0 [0%Z] 0 [] 1 sys_two_atoms []) e'
      = [CThermostatStep; CPconstraints; CBiasKick;
         CBiasKick; CThermostatStep; CPconstraints].
Proof.
  apply (MTS_nonpositive_first_factor (idle 2)
           (mkEns 1 1 false [] 0 [0%Z] 0 [] 1 sys_two_atoms []) 0 []).
  - reflexivity.
  - lia.
Defined.

(** ** Replay: truncated files, the cell, catching up *)

Lemma read_beads_partial fac (part : list Frame) :
  ∀ (rows : array) (c : option array),
    (length part < length rows)%nat →
    map (fun fr => length (frame_q fr)) part = map length (take (length part) rows) →
    ∃ c', read_beads fac part rows c
          = (frame_positions fac part ++ drop (length part) rows, [], c', ReadEOF).
Proof.
  induction part as [|fr part IH]; intros rows c Hlen Hshape.
  - destruct rows as [|b rows]; [simpl in Hlen; lia|]. exists c. reflexivity.
  - destruct rows as [|b rows]; [simpl in Hlen; lia|].
    simpl in Hshape. injection Hshape as Hb Hshape. simpl in Hlen.
    cbn [read_beads]. rewrite decide_True by (by rewrite length_map).
    destruct (IH rows (Some (map (map (fun x => x * fac)) (frame_h fr)))) as (c' & ->);
      [lia | done |].
    exists c'. reflexivity.
Qed.

(** X12: when the trajectory file ends in the middle of a frame set, the
    call triggers the soft exit with the replicas in a mixed state: those
    read before the end of the file hold the new positions, the others
    their old ones, and the cell is left as it was. *)
Theorem replay_truncated_frame_set (r : Replay) (part : list Frame) :
  mode r = ModeXyz ∨ mode r = ModePdb →
  (length part < length (q (sys (base r))))%nat →
  map (fun fr => length (frame_q fr)) part
  = map length (take (length part) (q (sys (base r)))) →
  rfile r = part →
  ∃ r', ReplayEnsemble_step None r = SoftExit FinishedTrajectory r'
        ∧ q (sys (base r'))
          = frame_positions (units r) part ++ drop (length part) (q (sys (base r)))
        ∧ h (sys (base r')) = h (sys (base r))
        ∧ p (sys (base r')) = p (sys (base r)).
Proof.
  intros Hmode Hlen Hshape Hfile.
  unfold ReplayEnsemble_step, replay_loop, replay_read. cbn [bump_rstep mode rfile base units].
  rewrite Hfile.
  destruct (read_beads_partial (units r) part (q (sys (base r))) None Hlen Hshape)
    as (c' & ->).
  destruct Hmode as [Hm | Hm]; rewrite Hm; destruct c'; eexists;
    (split; [reflexivity|]); simpl; done.
Qed.

Lemma replay_truncated_frame_set_witness :
  ∃ r', ReplayEnsemble_step None
          (mkReplay (mkEns 1 1 false [] 0 [1%Z] 0 [] 1
                       (mkSys [[0; 0; 0]; [1; 1; 1]] [[0; 0; 0]; [0; 0; 0]] [1] [] 0 0 []) [])
                    ModeXyz two [mkFrame [1; two; 1] []] 0)
        = SoftExit FinishedTrajectory r'
        ∧ q (sys (base r')) = [[two; two * two; two]; [1; 1; 1]].
Proof.
  destruct (replay_truncated_frame_set
              (mkReplay (mkEns 1 1 false [] 0 [1%Z] 0 [] 1
                           (mkSys [[0; 0; 0]; [1; 1; 1]] [[0; 0; 0]; [0; 0; 0]] [1] [] 0 0 []) [])
                        ModeXyz two [mkFrame [1; two; 1] []] 0)
              [mkFrame [1; two; 1] []])
    as (r' & Hs & Hq & _).
  - left. reflexivity.
  - simpl. lia.
  - reflexivity.
  - reflexivity.
  - exists r'. split; [exact Hs|]. rewrite Hq. simpl. repeat (f_equal; try (unfold two; ring)).
Defined.

(** The cell that a whole frame set leaves behind: that of its last frame. *)
Lemma read_beads_set_cell fac (set rest : list Frame) :
  ∀ (rows : array) (c : option array),
    map (fun fr => length (frame_q fr)) set = map length rows →
    read_beads fac (set ++ rest) rows c
    = (frame_positions fac set, rest,
       match last set with
       | Some fr => Some (map (map (fun x => x * fac)) (frame_h fr))
       | None => c
       end, ReadOk).
Proof.
  induction set as [|fr set IH]; intros rows c Hshape.
  - destruct rows; [|done]. reflexivity.
  - destruct rows as [|b rows]; [done|]. simpl in Hshape.
    injection Hshape as Hlen Hshape. cbn [app read_beads].
    rewrite decide_True by (by rewrite length_map).
    rewrite (IH rows _ Hshape). simpl.
    destruct set as [|fr' set]; [reflexivity|].
    change (last (fr :: fr' :: set)) with (last (fr' :: set)).
    destruct (last (fr' :: set)) eqn:E; [reflexivity|].
    apply last_None in E. discriminate E.
Qed.

Lemma replay_read_set (r : Replay) (set rest : list Frame) (fr : Frame) :
  mode r = ModeXyz ∨ mode r = ModePdb →
  last set = Some fr →
  map (fun fr => length (frame_q fr)) set = map length (q (sys (base r))) →
  rfile r = set ++ rest →
  ∃ r', replay_read r = Returned r'
        ∧ q (sys (base r')) = frame_positions (units r) set
        ∧ h (sys (base r'))
          = match mode r with
            | ModePdb => map (map (fun x => x * units r)) (frame_h fr)
            | _ => h (sys (base r))
            end
        ∧ p (sys (base r')) = p (sys (base r))
        ∧ rfile r' = rest ∧ mode r' = mode r ∧ units r' = units r
        ∧ rstep r' = rstep r.
Proof.
  intros Hmode Hlast Hshape Hfile. unfold replay_read.
  rewrite Hfile, (read_beads_set_cell _ _ _ _ _ Hshape), Hlast.
  destruct Hmode as [Hm | Hm]; rewrite Hm; eexists; (split; [reflexivity|]); simpl;
    repeat split; by rewrite ?Hm.
Qed.

(** X13: a step that reads a whole frame set leaves the cell alone in xyz
    mode and, in pdb mode, sets it to the cell of the last frame of the set,
    converted like the positions. *)
Theorem replay_cell_of_last_frame (r : Replay) (set rest : list Frame) (fr : Frame) :
  mode r = ModeXyz ∨ mode r = ModePdb →
  last set = Some fr →
  map (fun fr => length (frame_q fr)) set = map length (q (sys (base r))) →
  rfile r = set ++ rest →
  ∃ r', ReplayEnsemble_step None r = Returned r'
        ∧ h (sys (base r'))
          = match mode r with
            | ModePdb => map (map (fun x => x * units r)) (frame_h fr)
            | _ => h (sys (base r))
            end.
Proof.
  intros Hmode Hlast Hshape Hfile.
  destruct (replay_read_set (bump_rstep r) set rest fr Hmode Hlast Hshape Hfile)
    as (r' & Hr & _ & Hh & _).
  exists r'. unfold ReplayEnsemble_step, replay_loop. rewrite Hr. done.
Qed.

Lemma replay_cell_of_last_frame_witness :
  ∃ r', ReplayEnsemble_step None
          (mkReplay (mkEns 1 1 false [] 0 [1%Z] 0 [] 1
                       (mkSys [[0; 0; 0]; [1; 1; 1]] [[0; 0; 0]; [0; 0; 0]] [1] [[1]] 0 0 []) [])
                    ModePdb two [mkFrame [1; 1; 1] [[1]]; mkFrame [1; 1; 1] [[two]]] 0)
        = Returned r'
        ∧ h (sys (base r')) = [[two * two]].
Proof.
  apply (replay_cell_of_last_frame
           (mkReplay (mkEns 1 1 false [] 0 [1%Z] 0 [] 1
                        (mkSys [[0; 0; 0]; [1; 1; 1]] [[0; 0; 0]; [0; 0; 0]] [1] [[1]] 0 0 []) [])
                     ModePdb two [mkFrame [1; 1; 1] [[1]]; mkFrame [1; 1; 1] [[two]]] 0)
           [mkFrame [1; 1; 1] [[1]]; mkFrame [1; 1; 1] [[two]]] []
           (mkFrame [1; 1; 1] [[two]])).
  - right. reflexivity.
  - reflexivity.
  - reflexivity.
  - reflexivity.
Defined.

Lemma replay_loop_catch_up (rest : list Frame) (n : Z) :
  ∀ (fuel : nat) (sets : list (list Frame)) (r : Replay) (lastset : list Frame),
    mode r = ModeXyz ∨ mode r = ModePdb →
    q (sys (base r)) ≠ [] →
    Forall (fun set => map (fun fr => length (frame_q fr)) set
                       = map length (q (sys (base r)))) sets →
    length sets = S fuel →
    last sets = Some lastset →
    rfile r = concat sets ++ rest →
    (n < rstep r + Z.of_nat (S fuel))%Z →
    (fuel ≠ 0%nat → rstep r + Z.of_nat fuel <= n)%Z →
    ∃ r', replay_loop fuel (Some n) r = Returned r'
          ∧ q (sys (base r')) = frame_positions (units r) lastset
          ∧ p (sys (base r')) = p (sys (base r))
          ∧ rfile r' = rest
          ∧ rstep r' = (rstep r + Z.of_nat (S fuel))%Z.
Proof.
  induction fuel as [|fuel IH];
    intros sets r lastset Hmode Hne Hshape Hlen Hlast Hfile Hhi Hlo.
  - destruct sets as [|set [|? ?]]; try done. simpl in Hlast. injection Hlast as ->.
    apply Forall_cons in Hshape as [Hset _].
    simpl in Hfile. rewrite app_nil_r in Hfile.
    destruct (last lastset) as [fr|] eqn:Efr.
    2:{ apply last_None in Efr. subst lastset. simpl in Hset.
        by destruct (q (sys (base r))). }
    destruct (replay_read_set (bump_rstep r) lastset rest fr Hmode Efr Hset Hfile)
      as (r1 & Hr & Hq & _ & Hp & Hf & _ & _ & Hst).
    exists r1. cbn [replay_loop]. rewrite Hr.
    split; [by destruct (rstep r1 >? n)%Z|].
    split; [exact Hq|]. split; [exact Hp|]. split; [exact Hf|].
    rewrite Hst. simpl. lia.
  - destruct sets as [|set sets]; [done|].
    apply Forall_cons in Hshape as [Hset Hsets].
    simpl in Hfile. rewrite <- app_assoc in Hfile.
    destruct (last set) as [fr|] eqn:Efr.
    2:{ apply last_None in Efr. subst set. simpl in Hset.
        by destruct (q (sys (base r))). }
    destruct (replay_read_set (bump_rstep r) set (concat sets ++ rest) fr Hmode Efr Hset Hfile)
      as (r1 & Hr & Hq & _ & Hp & Hf & Hm & Hu & Hst).
    simpl in Hst, Hm, Hu.
    cbn [replay_loop]. rewrite Hr.
    assert (Hcont : (rstep r1 >? n)%Z = false).
    { rewrite Z.gtb_ltb. apply Z.ltb_ge. rewrite Hst. specialize (Hlo ltac:(done)). lia. }
    rewrite Hcont.
    assert (Hshape1 : map length (q (sys (base r1))) = map length (q (sys (base r))))
      by (by rewrite Hq, frame_positions_shape).
    destruct (IH sets r1 lastset) as (r' & Hrun & Hq' & Hp' & Hf' & Hst').
    + by rewrite Hm.
    + rewrite Hq. destruct set; [done|]. done.
    + by rewrite Hshape1.
    + simpl in Hlen. lia.
    + destruct sets; [done|]. exact Hlast.
    + exact Hf.
    + rewrite Hst. lia.
    + intros _. rewrite Hst. specialize (Hlo ltac:(done)). lia.
    + exists r'. split; [exact Hrun|]. rewrite Hq', Hp', Hf', Hst', Hu, Hp, Hst.
      repeat split. lia.
Qed.

(** X14: [step(n)] catches up with the driver's step [n]: it reads
    [max(1, n - rstep + 1)] whole frame sets one after the other and
    returns with the positions of the last of them, the replay counter
    advanced by as many. *)
Theorem replay_step_catches_up (r : Replay) (n : Z)
    (sets : list (list Frame)) (lastset : list Frame) (rest : list Frame) :
  mode r = ModeXyz ∨ mode r = ModePdb →
  q (sys (base r)) ≠ [] →
  Forall (fun set => map (fun fr => length (frame_q fr)) set
                     = map length (q (sys (base r)))) sets →
  length sets = S (Z.to_nat (n - rstep r)) →
  last sets = Some lastset →
  rfile r = concat sets ++ rest →
  ∃ r', ReplayEnsemble_step (Some n) r = Returned r'
        ∧ q (sys (base r')) = frame_positions (units r) lastset
        ∧ rfile r' = rest
        ∧ rstep r' = (rstep r + Z.of_nat (length sets))%Z.
Proof.
  intros Hmode Hne Hshape Hlen Hlast Hfile. unfold ReplayEnsemble_step.
  destruct (replay_loop_catch_up rest n (Z.to_nat (n - rstep r)) sets r lastset)
    as (r' & Hrun & Hq & _ & Hf & Hst); try done; try lia.
  exists r'. rewrite Hlen. done.
Qed.

Lemma replay_step_catches_up_witness :
  ∃ r', ReplayEnsemble_step (Some 1%Z) replay_two_frames = Returned r'
        ∧ q (sys (base r')) = frame_positions two [frame_b]
        ∧ rfile r' = []
        ∧ rstep r' = 2%Z.
Proof.
  apply (replay_step_catches_up replay_two_frames 1 [[frame_a]; [frame_b]] [frame_b] []).
  - left. reflexivity.
  - done.
  - repeat constructor.
  - reflexivity.
  - reflexivity.
  - reflexivity.
Defined.

(** ** Replaying a trajectory under the driver *)

Lemma replay_run_last (i : nat) :
  ∀ r0 ri, replay_run i r0 = Returned ri →
    replay_run (S i) r0 = match ReplayEnsemble_step None ri with
                          | Returned r' => Returned r'
                          | other => other
                          end.
Proof.
  induction i as [|i IH]; intros r0 ri Hrun.
  - simpl in Hrun. injection Hrun as ->. simpl.
    by destruct (ReplayEnsemble_step None ri).
  - change (replay_run (S i) r0)
      with (match ReplayEnsemble_step None r0 with
            | Returned r' => replay_run i r' | other => other end) in Hrun.
    change (replay_run (S (S i)) r0)
      with (match ReplayEnsemble_step None r0 with
            | Returned r' => replay_run (S i) r' | other => other end).
    destruct (ReplayEnsemble_step None r0) as [r1|w r1|r1]; try discriminate Hrun.
    by apply IH.
Qed.

(** The replica set after [i] replayed frame sets. *)
Lemma replay_iter_sets (r0 : Replay) (sets : list (list Frame)) :
  mode r0 = ModeXyz ∨ mode r0 = ModePdb →
  q (sys (base r0)) ≠ [] →
  Forall (fun set => map (fun fr => length (frame_q fr)) set
                     = map length (q (sys (base r0)))) sets →
  rfile r0 = concat sets →
  ∀ i, (i <= length sets)%nat →
    let ri := Nat.iter i replay_advance r0 in
    replay_run i r0 = Returned ri
    ∧ mode ri = mode r0 ∧ units ri = units r0
    ∧ map length (q (sys (base ri))) = map length (q (sys (base r0)))
    ∧ rfile ri = concat (drop i sets)
    ∧ (∀ set, (0 < i)%nat → sets !! (i - 1)%nat = Some set →
         q (sys (base ri)) = frame_positions (units r0) set).
Proof.
  intros Hmode Hne Hshape Hfile. induction i as [|i IH]; intros Hi.
  - simpl. rewrite drop_0. repeat split; try done. intros set H. lia.
  - destruct IH as (Hrun & Hm & Hu & Hq & Hf & _); [lia|].
    set (ri := Nat.iter i replay_advance r0) in *.
    destruct (lookup_lt_is_Some_2 sets i) as [set Hset]; [lia|].
    assert (Hdrop : drop i sets = set :: drop (S i) sets)
      by (by apply drop_S).
    rewrite Hdrop in Hf. simpl in Hf.
    destruct (replay_step_set ri set (concat (drop (S i) sets)))
      as (r' & Hs & Hq' & _ & _ & Hf' & Hm' & Hu').
    { by rewrite Hm. }
    { intros E. rewrite E in Hq. by destruct (q (sys (base r0))). }
    { rewrite Hq. exact (proj1 (Forall_forall _ _) Hshape set (list_elem_of_lookup_2 _ _ _ Hset)). }
    { exact Hf. }
    assert (Hadv : Nat.iter (S i) replay_advance r0 = r').
    { simpl. fold ri. unfold replay_advance. by rewrite Hs. }
    cbv zeta. rewrite Hadv. split; [|split; [|split; [|split; [|split]]]].
    + rewrite (replay_run_last i r0 ri Hrun), Hs. done.
    + by rewrite Hm'.
    + by rewrite Hu'.
    + rewrite Hq', frame_positions_shape.
      exact (proj1 (Forall_forall _ _) Hshape set (list_elem_of_lookup_2 _ _ _ Hset)).
    + exact Hf'.
    + intros set' _ Hset'. replace (S i - 1)%nat with i in Hset' by lia.
      rewrite Hset in Hset'. injection Hset' as <-. by rewrite Hq', Hu.
Qed.

(** X15: a simulation whose system replays a trajectory of [K] whole frame
    sets, with more than [K] steps left to do, halts in pass [K]: the first
    [K] passes replay the frame sets, the next one finds the end of the file
    and triggers the soft exit, and the restart checkpoint holds the replay
    state after exactly [K] steps (the positions of the last frame set)
    with the step counter advanced by [K]. *)
Theorem replay_under_the_driver
    (r0 : Replay) (sets : list (list Frame)) (x : @Simulation Replay) :
  mode r0 = ModeXyz ∨ mode r0 = ModePdb →
  q (sys (base r0)) ≠ [] →
  Forall (fun set => map (fun fr => length (frame_q fr)) set
                     = map length (q (sys (base r0)))) sets →
  rfile r0 = concat sets →
  sim_state x = r0 →
  sim_rollback x = true →
  (Z.of_nat (length sets) < sim_tsteps x - sim_step x)%Z →
  ∃ x' c, Simulation_run replay_advance (replay_world r0) x = Halted x'
    ∧ sim_restart x' = Some c
    ∧ chk_step c = (sim_step x + Z.of_nat (length sets))%Z
    ∧ replay_run (length sets) r0 = Returned (chk_state c)
    ∧ (∀ set, last sets = Some set →
         q (sys (base (chk_state c))) = frame_positions (units r0) set).
Proof.
  intros Hmode Hne Hshape Hfile Hst Hrb Hleft. subst r0.
  pose proof (replay_iter_sets (sim_state x) sets Hmode Hne Hshape Hfile) as Hiter.
  destruct (Hiter (length sets)) as (Hrun & Hm & Hu & Hq & Hf & Hlast); [lia|].
  rewrite drop_all in Hf. simpl in Hf.
  destruct (replay_step_end (Nat.iter (length sets) replay_advance (sim_state x)))
    as (rK & HsK & _).
  { by rewrite Hm. }
  { intros E. rewrite E in Hq. by destruct (q (sys (base (sim_state x)))). }
  { exact Hf. }
  pose proof (run_loop_first_event replay_advance (replay_world (sim_state x)) (sim_state x)
                (sim_step x) (length sets) (Z.to_nat (sim_tsteps x - sim_step x)) 0 x) as Hev.
  assert (HwK : replay_world (sim_state x) (length sets) = PassSoftExit rK)
    by (unfold replay_world; by rewrite HsK).
  rewrite HwK in Hev.
  destruct Hev as (x' & Hhalt & _ & _ & Hr); try done; try lia.
  - intros j Hj. unfold replay_world.
    destruct (Hiter j) as (_ & Hmj & _ & Hqj & Hfj & _); [lia|].
    destruct (lookup_lt_is_Some_2 sets j) as [set Hset]; [lia|].
    rewrite (drop_S _ _ _ Hset) in Hfj. simpl in Hfj.
    destruct (replay_step_set (Nat.iter j replay_advance (sim_state x)) set
                (concat (drop (S j) sets)))
      as (r' & -> & _).
    + by rewrite Hmj.
    + intros E. rewrite E in Hqj. by destruct (q (sys (base (sim_state x)))).
    + rewrite Hqj.
      exact (proj1 (Forall_forall _ _) Hshape set (list_elem_of_lookup_2 _ _ _ Hset)).
    + exact Hfj.
    + reflexivity.
  - exists x', (mkChk (Nat.iter (length sets) replay_advance (sim_state x))
                      (sim_step x + Z.of_nat (length sets))%Z).
    split; [exact Hhalt|]. split; [exact Hr|]. split; [reflexivity|].
    cbn [chk_state]. split; [exact Hrun|].
    intros set Hl. apply Hlast.
    + destruct sets; [done | simpl; lia].
    + rewrite last_lookup in Hl. rewrite <- Hl. f_equal. lia.
Qed.

Lemma replay_under_the_driver_witness :
  ∃ x' c, Simulation_run replay_advance (replay_world replay_two_frames)
            (mkSim replay_two_frames 0%Z 10%Z true (mkChk replay_two_frames 0%Z) None)
          = Halted x'
    ∧ sim_restart x' = Some c
    ∧ chk_step c = 2%Z
    ∧ q (sys (base (chk_state c))) = frame_positions two [frame_b].
Proof.
  destruct (replay_under_the_driver replay_two_frames [[frame_a]; [frame_b]]
              (mkSim replay_two_frames 0%Z 10%Z true (mkChk replay_two_frames 0%Z) None))
    as (x' & c & Hrun & Hr & Hs & _ & Hq).
  - left. reflexivity.
  - done.
  - repeat constructor.
  - reflexivity.
  - reflexivity.
  - reflexivity.
  - simpl. lia.
  - exists x', c. split; [exact Hrun|]. split; [exact Hr|]. split; [exact Hs|].
    apply Hq. reflexivity.
Defined.

(** ** Fixed atoms stay where they are *)

Lemma q_constrained fc fa s : q (constrained fc fa s) = q s.
Proof. unfold constrained. destruct fc; case_decide; reflexivity. Qed.

Lemma m_constrained fc fa s : m (constrained fc fa s) = m s.
Proof. unfold constrained. destruct fc; case_decide; reflexivity. Qed.

Lemma constrained_fixed_zero fc fa (s : Sys) (bp : list Qc) (a k : nat) :
  wf_shape s → a ∈ fa → (a < beads_natoms s)%nat → (k < 3)%nat →
  bp ∈ p (constrained fc fa s) → at0 bp (3 * a + k) = 0.
Proof.
  intros Hwf Ha Hin Hk. unfold constrained.
  rewrite decide_True by (destruct fa; [by apply elem_of_nil in Ha | simpl; lia]).
  cbn [p set_p]. intros Hbp. apply list_elem_of_fmap in Hbp as [bp0 [-> Hbp0]].
  apply at0_lookup. rewrite (Nat.mul_comm 3 a). apply fix_zero_lookup; [done | done |].
  assert (Hlen : length bp0 = (3 * beads_natoms s)%nat).
  { destruct fc.
    - exact (proj1 (Forall_forall _ _) (com_remove_shape s Hwf) bp0 Hbp0).
    - exact (proj1 (Forall_forall _ _) Hwf bp0 Hbp0). }
  lia.
Qed.

Section FixedAtoms.

Context (C : Collaborators).

Hypothesis transform_id : ∀ a, nm_transform C a = a.
Hypothesis inverse_id : ∀ a, nm_inverse C a = a.

Lemma centroid_update_id (scale : Qc → Qc) (s : Sys) :
  q (centroid_update C scale s)
  = <[0%nat := zip_with Qcplus (default [] (q s !! 0%nat))
                 (map scale (vdiv (default [] (p s !! 0%nat))
                                  (m s ≫= fun x => [x; x; x])))]> (q s).
Proof. unfold centroid_update. cbn [q set_q]. by rewrite inverse_id, !transform_id. Qed.

(** A centroid update moves no component at which the momentum is zero. *)
Lemma centroid_update_rest (scale : Qc → Qc) (s : Sys) (nb : nat) (b j : nat) :
  scale 0 = 0 →
  shaped nb (beads_natoms s) (q s) → shaped nb (beads_natoms s) (p s) →
  (j < 3 * beads_natoms s)%nat →
  (∀ bp, bp ∈ p s → at0 bp j = 0) →
  entry (q (centroid_update C scale s)) b j = entry (q s) b j.
Proof.
  intros Hscale [Hql Hqs] [Hpl Hps] Hj Hzero. rewrite centroid_update_id. unfold entry.
  unfold array in *.
  destruct (decide (b = 0%nat)) as [->|Hb].
  2:{ rewrite list_lookup_insert_ne by done. done. }
  destruct (@lookup nat (list Qc) (list (list Qc)) _ 0%nat (q s)) as [q0|] eqn:Eq.
  2:{ rewrite list_insert_ge by (apply lookup_ge_None in Eq; lia). by rewrite Eq. }
  rewrite list_lookup_insert_eq by (by apply lookup_lt_Some in Eq). simpl.
  destruct (lookup_lt_is_Some_2 (p s : list (list Qc)) 0) as [p0 Ep].
  { rewrite Hpl, <- Hql. by apply lookup_lt_Some in Eq. }
  rewrite Ep. simpl.
  pose proof (proj1 (Forall_forall _ _) Hqs q0 (list_elem_of_lookup_2 _ _ _ Eq)) as Hq0.
  pose proof (proj1 (Forall_forall _ _) Hps p0 (list_elem_of_lookup_2 _ _ _ Ep)) as Hp0.
  simpl in Hq0, Hp0.
  assert (Hm3 : length (m s ≫= fun x => [x; x; x]) = (3 * beads_natoms s)%nat)
    by apply length_triple.
  assert (Hv : length (map scale (vdiv p0 (m s ≫= fun x => [x; x; x])))
               = (3 * beads_natoms s)%nat).
  { rewrite length_map. unfold vdiv. rewrite length_zip_with. lia. }
  rewrite at0_zip_plus by lia. rewrite at0_map_vdiv by lia.
  rewrite (Hzero p0 (list_elem_of_lookup_2 _ _ _ Ep)).
  unfold Qcdiv. replace (0 * / at0 (m s ≫= fun x => [x; x; x]) j) with 0 by ring.
  rewrite Hscale. ring.
Qed.

End FixedAtoms.

(** X16: for one replica in Cartesian coordinates (a normal-mode
    transformation that is the identity and a free propagation that leaves
    the positions alone), [NVEEnsemble.step] does not move a fixed atom:
    every position component of every atom in [fixatoms] is the same after
    the step as before, whatever the forces and the initial momenta. *)
Theorem NVE_step_keeps_fixed_atoms
    (C : Collaborators) (e : Ensemble) (nb : nat) (m0 : list Qc) :
  (∀ a, nm_transform C a = a) →
  (∀ a, nm_inverse C a = a) →
  (∀ tau s, q (nm_free_qstep C tau s) = q s) →
  good_sys nb m0 (sys e) →
  shaped nb (length m0) (q (sys e)) →
  shaped_field nb (length m0) (forces_f C) →
  shaped_field nb (length m0) (bias_f C) →
  Forall (fun x => x ≠ 0) m0 →
  (fixcom e = true → (0 < nb)%nat ∧ sumQc m0 ≠ 0) →
  Forall (fun a => (a < length m0)%nat) (fixatoms e) →
  ∀ a k b, a ∈ fixatoms e → (k < 3)%nat →
    entry (q (sys (NVEEnsemble_step C e))) b (3 * a + k)
    = entry (q (sys e)) b (3 * a + k).
Proof.
  intros HT HI HF Hgood Hq Hf Hb Hmass Hcom Hin a k b Ha Hk.
  pose proof (proj1 (Forall_forall _ _) Hin a Ha) as Hlt. simpl in Hlt.
  rewrite sys_NVE_step, q_constrained.
  change (q (kick_sys ?c ?f ?s)) with (q s).
  unfold qf_sys. rewrite HF.
  set (s1 := constrained (fixcom e) (fixatoms e)
               (kick_sys (dt e * half) (fadd (forces_f C) (bias_f C)) (sys e))).
  assert (Hk1 : good_sys nb m0
                  (kick_sys (dt e * half) (fadd (forces_f C) (bias_f C)) (sys e))).
  { apply good_kick; [|done]. intros q_ h_. apply shaped_aadd; [apply Hf | apply Hb]. }
  destruct (good_sys_wf _ _ _ Hk1) as [Hwf1 Hn1].
  assert (Hm1 : m s1 = m0).
  { unfold s1. rewrite m_constrained. by destruct Hk1 as [_ ->]. }
  assert (Hna : beads_natoms s1 = length m0) by (unfold beads_natoms; by rewrite Hm1).
  assert (Hq1 : q s1 = q (sys e)) by (unfold s1; by rewrite q_constrained).
  assert (Hp1 : shaped nb (length m0) (p s1)).
  { unfold s1, constrained. destruct Hk1 as [[Hl Hs] Hm].
    assert (Hcs : shaped nb (length m0)
              (p (if fixcom e
                  then set_p (com_remove (kick_sys (dt e * half)
                                (fadd (forces_f C) (bias_f C)) (sys e)))
                         (kick_sys (dt e * half) (fadd (forces_f C) (bias_f C)) (sys e))
                  else kick_sys (dt e * half) (fadd (forces_f C) (bias_f C)) (sys e)))).
    { destruct (fixcom e); [|by split]. cbn [p set_p]. rewrite com_remove_rows. split.
      - by rewrite length_map.
      - apply Forall_fmap. eapply Forall_impl; [exact Hs|].
        intros r Hr. simpl. by rewrite com_row_length. }
    case_decide; [|exact Hcs]. cbn [p set_p]. destruct Hcs as [Hl' Hs']. split.
    - by rewrite length_map.
    - apply Forall_fmap. eapply Forall_impl; [exact Hs'|].
      intros r Hr. simpl. by rewrite fix_zero_length. }
  rewrite <- Hq1.
  apply (centroid_update_rest C HT HI _ s1 nb).
  - ring.
  - rewrite Hna, Hq1. exact Hq.
  - rewrite Hna. exact Hp1.
  - rewrite Hna. lia.
  - intros bp Hbp.
    apply (constrained_fixed_zero (fixcom e) (fixatoms e)
             (kick_sys (dt e * half) (fadd (forces_f C) (bias_f C)) (sys e)) bp a k);
      try done.
    unfold beads_natoms. destruct Hk1 as [_ ->]. exact Hlt.
Qed.

Lemma NVE_step_keeps_fixed_atoms_witness :
  entry (q (sys (NVEEnsemble_step probing (ens_two_atoms true [0%nat])))) 0 (3 * 0 + 0)
  = entry (q (sys (ens_two_atoms true [0%nat]))) 0 (3 * 0 + 0).
Proof.
  apply (NVE_step_keeps_fixed_atoms probing (ens_two_atoms true [0%nat]) 1 [1; 1]).
  - intros a. reflexivity.
  - intros a. reflexivity.
  - intros tau s. reflexivity.
  - split; [|reflexivity]. split; [reflexivity | repeat constructor].
  - split; [reflexivity | repeat constructor].
  - intros q_ h_. split; [reflexivity | repeat constructor].
  - intros q_ h_. split; [reflexivity | repeat constructor].
  - repeat constructor; qc_neq.
  - intros _. split; [lia | qc_neq].
  - repeat constructor.
  - constructor.
  - lia.
Defined.

(** ** The velocity-Verlet step run backwards *)

Lemma constrained_none (s : Sys) : constrained false [] s = s.
Proof. reflexivity. Qed.

Lemma axpy_flip_row c (r fr : list Qc) :
  length r = length fr →
  zip_with (fun x y => x + y * c) (map Qcopp (zip_with (fun x y => x + y * c) r fr)) fr
  = map Qcopp r.
Proof.
  revert fr. induction r as [|x r IH]; intros [|y fr] Hlen; try done.
  simpl in Hlen. simpl. f_equal; [ring | apply IH; lia].
Qed.

Lemma axpy_flip c nb na (f x : array) :
  shaped nb na x → shaped nb na f →
  axpy c f (map (map Qcopp) (axpy c f x)) = map (map Qcopp) x.
Proof.
  intros [Hxl Hxs] [Hfl Hfs]. unfold axpy. revert nb f Hxl Hfl Hfs.
  induction x as [|r x IH]; intros nb [|fr f] Hxl Hfl Hfs; try done;
    [simpl in *; lia|].
  apply Forall_cons in Hxs as [Hr Hxs]. apply Forall_cons in Hfs as [Hfr Hfs].
  simpl. f_equal.
  - apply axpy_flip_row. by rewrite Hr, Hfr.
  - simpl in Hxl, Hfl. apply (IH Hxs (length x)); [done | lia | done].
Qed.

(** A kick, the momenta reversed, the same kick again: the momenta are back,
    reversed. *)
Lemma kick_flip_kick c nb m0 (f : array → array → array) (s : Sys) :
  shaped_field nb (length m0) f → good_sys nb m0 s →
  kick_sys c f (flip_momenta (kick_sys c f s)) = flip_momenta s.
Proof.
  intros Hf [Hs Hm]. unfold kick_sys, flip_momenta, set_p. simpl. f_equal.
  apply (axpy_flip c nb (length m0)); [done | apply Hf].
Qed.

Lemma at0_map_opp (l : list Qc) (j : nat) : at0 (map Qcopp l) j = - at0 l j.
Proof.
  unfold at0. rewrite list_lookup_fmap. destruct (l !! j); simpl; [done | ring].
Qed.

Lemma centroid_row_back (tau : Qc) (q0 p0 m3 : list Qc) :
  length p0 = length q0 → length m3 = length q0 →
  zip_with Qcplus
    (zip_with Qcplus q0 (map (fun x => x * tau) (vdiv p0 m3)))
    (map (fun x => x * tau) (vdiv (map Qcopp p0) m3))
  = q0.
Proof.
  intros Hp Hm.
  assert (Hv1 : length (map (fun x => x * tau) (vdiv p0 m3)) = length q0).
  { rewrite length_map. unfold vdiv. rewrite length_zip_with. lia. }
  assert (Hv2 : length (map (fun x => x * tau) (vdiv (map Qcopp p0) m3)) = length q0).
  { rewrite length_map. unfold vdiv. rewrite length_zip_with, length_map. lia. }
  assert (Hz : length (zip_with Qcplus q0 (map (fun x => x * tau) (vdiv p0 m3)))
               = length q0).
  { rewrite length_zip_with, Hv1. lia. }
  apply list_eq_at0.
  - rewrite length_zip_with, Hz, Hv2. lia.
  - intros j Hj. rewrite length_zip_with, Hz, Hv2 in Hj.
    rewrite at0_zip_plus by lia. rewrite at0_zip_plus by lia.
    rewrite !at0_map_vdiv by (rewrite ?length_map; lia).
    rewrite at0_map_opp. unfold Qcdiv. ring.
Qed.

Section Reversal.

Context (C : Collaborators).

Hypothesis transform_id : ∀ a, nm_transform C a = a.
Hypothesis inverse_id : ∀ a, nm_inverse C a = a.
Hypothesis free_id : ∀ tau s, nm_free_qstep C tau s = s.

(** The position update, the momenta reversed, the position update again:
    the positions are back. *)
Lemma qf_flip_qf (tau nmdt : Qc) (nb : nat) (m0 : list Qc) (s : Sys) :
  good_sys nb m0 s → shaped nb (length m0) (q s) →
  qf_sys C tau nmdt (flip_momenta (qf_sys C tau nmdt s)) = flip_momenta s.
Proof.
  intros [[Hpl Hps] Hm] [Hql Hqs]. unfold qf_sys. rewrite !free_id.
  unfold centroid_update, flip_momenta, set_q, set_p. cbn [q p m h ethermo ebaro priv].
  rewrite !inverse_id, !transform_id. f_equal.
  unfold array in *.
  destruct (@lookup nat (list Qc) (list (list Qc)) _ 0%nat (q s)) as [q0|] eqn:Eq.
  2:{ rewrite !list_insert_ge; try done; apply lookup_ge_None in Eq;
        rewrite ?length_insert; lia. }
  rewrite list_lookup_insert_eq by (by apply lookup_lt_Some in Eq).
  rewrite list_insert_insert_eq. simpl.
  destruct (lookup_lt_is_Some_2 (p s : list (list Qc)) 0) as [p0 Ep].
  { rewrite Hpl, <- Hql. by apply lookup_lt_Some in Eq. }
  rewrite list_lookup_fmap, Ep. simpl.
  pose proof (proj1 (Forall_forall _ _) Hqs q0 (list_elem_of_lookup_2 _ _ _ Eq)) as Hq0.
  pose proof (proj1 (Forall_forall _ _) Hps p0 (list_elem_of_lookup_2 _ _ _ Ep)) as Hp0.
  simpl in Hq0, Hp0.
  rewrite centroid_row_back.
  - by apply list_insert_id.
  - lia.
  - rewrite length_triple, Hm. lia.
Qed.

End Reversal.

(** X17: without constraints, for one replica in Cartesian coordinates (a
    normal-mode transformation that is the identity, a free propagation
    that does nothing), [NVEEnsemble.step] is reversible in exact
    arithmetic: a step, the momenta reversed, and a second step lead back to
    the initial positions with the initial momenta reversed. *)
Theorem NVE_step_reversible
    (C : Collaborators) (e : Ensemble) (nb : nat) (m0 : list Qc) :
  (∀ a, nm_transform C a = a) →
  (∀ a, nm_inverse C a = a) →
  (∀ tau s, nm_free_qstep C tau s = s) →
  fixcom e = false → fixatoms e = [] →
  good_sys nb m0 (sys e) →
  shaped nb (length m0) (q (sys e)) →
  shaped_field nb (length m0) (forces_f C) →
  shaped_field nb (length m0) (bias_f C) →
  Forall (fun x => x ≠ 0) m0 →
  sys (NVEEnsemble_step C (set_sys (flip_momenta (sys (NVEEnsemble_step C e))) e))
  = flip_momenta (sys e).
Proof.
  intros HT HI HF Hfc Hfa Hgood Hq Hf Hb Hmass.
  assert (HF' : shaped_field nb (length m0) (fadd (forces_f C) (bias_f C))).
  { intros q_ h_. apply shaped_aadd; [apply Hf | apply Hb]. }
  rewrite (sys_NVE_step C (set_sys _ e)).
  cbn [fixcom fixatoms dt nm_dt sys set_sys].
  rewrite (sys_NVE_step C e), Hfc, Hfa, !constrained_none.
  set (K := kick_sys (dt e * half) (fadd (forces_f C) (bias_f C))).
  set (QF := qf_sys C (dt e) (nm_dt e)).
  assert (Hg1 : good_sys nb m0 (K (sys e))) by (by apply good_kick).
  assert (Hq1 : shaped nb (length m0) (q (K (sys e)))) by exact Hq.
  assert (Hg2 : good_sys nb m0 (QF (K (sys e)))).
  { unfold QF, qf_sys. rewrite HF. exact Hg1. }
  unfold K at 2 3. rewrite (kick_flip_kick _ nb m0) by done. fold K.
  unfold QF at 1 2. rewrite (qf_flip_qf C HT HI HF _ _ nb m0) by done.
  unfold K. by apply (kick_flip_kick _ nb m0).
Qed.

Lemma NVE_step_reversible_witness :
  sys (NVEEnsemble_step probing
         (set_sys (flip_momenta (sys (NVEEnsemble_step probing (ens_two_atoms false []))))
            (ens_two_atoms false [])))
  = flip_momenta (sys (ens_two_atoms false [])).
Proof.
  apply (NVE_step_reversible probing (ens_two_atoms false []) 1 [1; 1]).
  - intros a. reflexivity.
  - intros a. reflexivity.
  - intros tau s. reflexivity.
  - reflexivity.
  - reflexivity.
  - split; [|reflexivity]. split; [reflexivity | repeat constructor].
  - split; [reflexivity | repeat constructor].
  - intros q_ h_. split; [reflexivity | repeat constructor].
  - intros q_ h_. split; [reflexivity | repeat constructor].
  - repeat constructor; qc_neq.
Defined.

(** ** One level, factor [n]: [n] velocity-Verlet steps *)

Lemma zip_plus_zero (r : list Qc) (n : nat) :
  length r = n → zip_with Qcplus r (replicate n 0) = r.
Proof.
  revert n. induction r as [|x r IH]; intros [|n] Hn; try done.
  simpl in Hn. simpl. f_equal; [ring | apply IH; lia].
Qed.

Lemma aadd_zero nb na (f : array) :
  shaped nb na f → aadd f (replicate nb (replicate (3 * na) 0)) = f.
Proof.
  intros [Hl Hs]. unfold aadd. revert nb Hl.
  induction f as [|r f IH]; intros [|nb] Hl; try done.
  apply Forall_cons in Hs as [Hr Hs]. simpl in Hl.
  cbn [replicate zip_with]. f_equal; [by apply zip_plus_zero | apply IH; [done | lia]].
Qed.

Lemma zip_axpy_zero c (r : list Qc) (n : nat) :
  length r = n → zip_with (fun x y => x + y * c) r (replicate n 0) = r.
Proof.
  revert n. induction r as [|x r IH]; intros [|n] Hn; try done.
  simpl in Hn. simpl. f_equal; [ring | apply IH; lia].
Qed.

Lemma axpy_zero c nb na (x : array) :
  shaped nb na x → axpy c (replicate nb (replicate (3 * na) 0)) x = x.
Proof.
  intros [Hl Hs]. unfold axpy. revert nb Hl.
  induction x as [|r x IH]; intros [|nb] Hl; try done.
  apply Forall_cons in Hs as [Hr Hs]. simpl in Hl.
  cbn [replicate zip_with]. f_equal; [by apply zip_axpy_zero | apply IH; [done | lia]].
Qed.

Lemma good_constrained fc fa nb m0 (s : Sys) :
  good_sys nb m0 s → good_sys nb m0 (constrained fc fa s).
Proof.
  intros [[Hl Hs] Hm]. split; [|by rewrite m_constrained].
  unfold constrained.
  assert (Hcs : shaped nb (length m0) (p (if fc then set_p (com_remove s) s else s))).
  { destruct fc; [|by split]. cbn [p set_p]. rewrite com_remove_rows. split.
    - by rewrite length_map.
    - apply Forall_fmap. eapply Forall_impl; [exact Hs|].
      intros r Hr. simpl. by rewrite com_row_length. }
  case_decide; [|exact Hcs]. cbn [p set_p]. destruct Hcs as [Hl' Hs']. split.
  - by rewrite length_map.
  - apply Forall_fmap. eapply Forall_impl; [exact Hs'|].
    intros r Hr. simpl. by rewrite fix_zero_length.
Qed.

Lemma repeat_steps_sys (body : Ensemble → option Ensemble) (F : Sys → Sys) (e0 : Ensemble) :
  (∀ e, cfg e = cfg e0 → ∃ e', body e = Some e' ∧ cfg e' = cfg e0 ∧ sys e' = F (sys e)) →
  ∀ k e, cfg e = cfg e0 →
    ∃ e', repeat_steps k body e = Some e' ∧ cfg e' = cfg e0
          ∧ sys e' = Nat.iter k F (sys e).
Proof.
  intros Hbody. induction k as [|k IH]; intros e He.
  - exists e. done.
  - destruct (Hbody e He) as (e1 & Hb & Hc1 & Hs1).
    destruct (IH e1 Hc1) as (e' & Hr & Hc' & Hs').
    exists e'. cbn [repeat_steps]. rewrite Hb. split; [exact Hr|]. split; [exact Hc'|].
    by rewrite Hs', Hs1, Nat.iter_succ_r.
Qed.

Lemma iter_ext {A} (f g : A → A) (k : nat) (x : A) :
  (∀ y, f y = g y) → Nat.iter k f x = Nat.iter k g x.
Proof. intros H. induction k as [|k IH]; simpl; [done|]. by rewrite IH, H. Qed.

Section SingleLevel.

Context (C : Collaborators).

Lemma sys_MTS_kick_constrain l a e :
  sys (NVEEnsemble_pconstraints (MTSEnsemble_pstep C l a e))
  = constrained (fixcom e) (fixatoms e) (kick_sys (dt e / a) (forces_mts C l) (sys e))
  ∧ cfg (NVEEnsemble_pconstraints (MTSEnsemble_pstep C l a e)) = cfg e.
Proof.
  split.
  - rewrite sys_pconstraints. reflexivity.
  - by rewrite cfg_pconstraints.
Qed.

Lemma sys_MTS_qc_free alpha e :
  sys (nm_free_qstep_call C (MTSEnsemble_qcstep C alpha e))
  = qf_sys C (dt e / alpha) (nm_dt e) (sys e)
  ∧ cfg (nm_free_qstep_call C (MTSEnsemble_qcstep C alpha e)) = cfg e.
Proof.
  split; [|reflexivity]. unfold qf_sys. simpl. f_equal.
  apply centroid_update_ext. intros x. unfold Qcdiv. ring.
Qed.

(** [mtsprop] with one level and the factor [n]: [n] times kick, constrain,
    move, kick, constrain. *)
Lemma mtsprop_single_level (n : Z) (e : Ensemble) :
  forces_nmtslevels C = 1%Z →
  ∃ e', mtsprop_from C [n] 0 1 e = Some e'
        ∧ cfg e' = cfg e
        ∧ sys e' = Nat.iter (Z.to_nat n)
                     (vv_sys C (constrained (fixcom e) (fixatoms e))
                        (dt e / (two * (1 * Z2Qc n))) (dt e / (1 * Z2Qc n)) (nm_dt e)
                        (forces_mts C 0))
                     (sys e).
Proof.
  intros HL. cbn [mtsprop_from]. rewrite HL.
  change (Z.of_nat 0 =? 1 - 1)%Z with true. cbv iota.
  apply (repeat_steps_sys _ _ e); [|done].
  intros e1 Hc1.
  destruct (sys_MTS_kick_constrain 0 (two * (1 * Z2Qc n)) e1) as [Hs2 Hc2].
  set (e2 := NVEEnsemble_pconstraints (MTSEnsemble_pstep C 0 (two * (1 * Z2Qc n)) e1)) in *.
  destruct (sys_MTS_qc_free (1 * Z2Qc n) e2) as [Hs3 Hc3].
  set (e3 := nm_free_qstep_call C (MTSEnsemble_qcstep C (1 * Z2Qc n) e2)) in *.
  destruct (sys_MTS_kick_constrain 0 (two * (1 * Z2Qc n)) e3) as [Hs4 Hc4].
  eexists. split; [reflexivity|]. split; [congruence|].
  rewrite Hs4, Hs3, Hs2. unfold vv_sys.
  rewrite (cfg_fixcom _ _ Hc3), (cfg_fixatoms _ _ Hc3), (cfg_dt _ _ Hc3),
          (cfg_fixcom _ _ Hc2), (cfg_fixatoms _ _ Hc2), (cfg_dt _ _ Hc2),
          (cfg_nm_dt _ _ Hc2),
          (cfg_fixcom _ _ Hc1), (cfg_fixatoms _ _ Hc1), (cfg_dt _ _ Hc1),
          (cfg_nm_dt _ _ Hc1).
  reflexivity.
Qed.

(** Repeated [NVEEnsemble.step], on the shared objects. *)
Lemma sys_NVE_steps (k : nat) (e : Ensemble) :
  cfg (Nat.iter k (NVEEnsemble_step C) e) = cfg e
  ∧ sys (Nat.iter k (NVEEnsemble_step C) e)
    = Nat.iter k (vv_sys C (constrained (fixcom e) (fixatoms e))
                    (dt e * half) (dt e) (nm_dt e) (fadd (forces_f C) (bias_f C)))
        (sys e).
Proof.
  induction k as [|k [IHc IHs]]; [done|].
  change (Nat.iter (S k) (NVEEnsemble_step C) e)
    with (NVEEnsemble_step C (Nat.iter k (NVEEnsemble_step C) e)).
  destruct (extends_NVE_step C (Nat.iter k (NVEEnsemble_step C) e)) as [Hc _].
  split; [by rewrite Hc|].
  change (Nat.iter (S k) ?f ?x) with (f (Nat.iter k f x)).
  rewrite sys_NVE_step, IHs.
  rewrite (cfg_fixcom _ _ IHc), (cfg_fixatoms _ _ IHc), (cfg_dt _ _ IHc),
          (cfg_nm_dt _ _ IHc).
  reflexivity.
Qed.

End SingleLevel.

Lemma vv_sys_good C fc fa c tau nmdt f nb m0 (s : Sys) :
  shaped_field nb (length m0) f →
  (∀ tau' s', good_sys nb m0 s' → good_sys nb m0 (nm_free_qstep C tau' s')) →
  good_sys nb m0 s →
  good_sys nb m0 (vv_sys C (constrained fc fa) c tau nmdt f s).
Proof.
  intros Hf Hfree Hs. unfold vv_sys, qf_sys.
  apply good_constrained, good_kick; [done|].
  apply Hfree.
  assert (H : good_sys nb m0 (constrained fc fa (kick_sys c f s)))
    by (by apply good_constrained, good_kick).
  exact H.
Qed.

Lemma constrained_again_good fc fa nb m0 (s : Sys) :
  fc = false ∨ (fa = [] ∧ (0 < nb)%nat ∧ sumQc m0 ≠ 0) →
  good_sys nb m0 s →
  constrained fc fa (constrained fc fa s) = constrained fc fa s.
Proof.
  intros Hone Hgood. destruct (good_sys_wf _ _ _ Hgood) as [Hwf Hn].
  destruct Hone as [-> | (-> & Hnb & HM)].
  - apply constrained_again_fix.
  - apply constrained_again; [by right | done |].
    intros _. split; [lia|]. unfold beads_M. by destruct Hgood as [_ ->].
Qed.

Lemma kick_zero_bias c nb m0 (b : array → array → array) (s : Sys) :
  (∀ q_ h_, b q_ h_ = replicate nb (replicate (3 * length m0) 0)) →
  good_sys nb m0 s → kick_sys c b s = s.
Proof.
  intros Hb [Hs Hm]. unfold kick_sys. rewrite Hb, (axpy_zero c nb (length m0)) by done.
  by destruct s.
Qed.

(** One step with one level and the factor [n], on the shared objects. *)
Lemma MTS_single_level_step
    (C : Collaborators) (e : Ensemble) (n : Z) (nb : nat) (m0 : list Qc) :
  (0 < n)%Z →
  forces_nmtslevels C = 1%Z →
  mtsintegfactors e = [n] →
  (∀ w s', thermostat_step C w s' = s') →
  (∀ q_ h_, bias_f C q_ h_ = replicate nb (replicate (3 * length m0) 0)) →
  shaped_field nb (length m0) (forces_mts C 0) →
  (∀ tau s', good_sys nb m0 s' → good_sys nb m0 (nm_free_qstep C tau s')) →
  good_sys nb m0 (sys e) →
  (fixcom e = false ∨ (fixatoms e = [] ∧ (0 < nb)%nat ∧ sumQc m0 ≠ 0)) →
  ∃ e', MTSEnsemble_step C e = Some e'
        ∧ sys e' = Nat.iter (Z.to_nat n)
                     (vv_sys C (constrained (fixcom e) (fixatoms e))
                        (dt e / Z2Qc n * half) (dt e / Z2Qc n) (nm_dt e) (forces_mts C 0))
                     (constrained (fixcom e) (fixatoms e) (sys e)).
Proof.
  intros Hn HL Hfac Hthermo Hbias Hf Hfree Hgood Hone.
  set (P := constrained (fixcom e) (fixatoms e)).
  assert (HPg : ∀ y, good_sys nb m0 y → good_sys nb m0 (P y))
    by (intros y; apply good_constrained).
  assert (HPP : ∀ y, good_sys nb m0 y → P (P y) = P y)
    by (intros y; by apply constrained_again_good).
  assert (HKb : ∀ c y, good_sys nb m0 y → kick_sys c (bias_f C) y = y)
    by (intros c y; by apply (kick_zero_bias c nb m0)).
  unfold MTSEnsemble_step, MTSEnsemble_mtsprop.
  set (ea := called CBiasKick
               (kick (dt (NVEEnsemble_pconstraints (thermostat_step_call C e)) * half)
                  (bias_f C) (NVEEnsemble_pconstraints (thermostat_step_call C e)))).
  assert (Hca : cfg ea = cfg e).
  { transitivity (cfg (NVEEnsemble_pconstraints (thermostat_step_call C e)));
      [reflexivity | by rewrite cfg_pconstraints]. }
  assert (Hsa : sys ea = P (sys e)).
  { transitivity (kick_sys (dt (NVEEnsemble_pconstraints (thermostat_step_call C e)) * half)
                    (bias_f C) (sys (NVEEnsemble_pconstraints (thermostat_step_call C e))));
      [reflexivity|].
    rewrite sys_pconstraints.
    cbn [sys thermostat_step_call called set_sys fixcom fixatoms].
    rewrite Hthermo. fold P. apply HKb. auto. }
  rewrite drop_0, (cfg_factors _ _ Hca), Hfac.
  destruct (mtsprop_single_level C n ea HL) as (e2 & -> & Hc2 & Hs2).
  eexists. split; [reflexivity|].
  rewrite sys_pconstraints.
  cbn [sys thermostat_step_call called set_sys fixcom fixatoms kick].
  rewrite Hthermo.
  fold (kick_sys (dt e2 * half) (bias_f C) (sys e2)).
  rewrite (cfg_fixcom _ _ Hc2), (cfg_fixatoms _ _ Hc2),
          (cfg_fixcom _ _ Hca), (cfg_fixatoms _ _ Hca). fold P.
  rewrite Hs2, Hsa.
  rewrite (cfg_fixcom _ _ Hca), (cfg_fixatoms _ _ Hca), (cfg_dt _ _ Hca),
          (cfg_nm_dt _ _ Hca). fold P.
  assert (Hq : Z2Qc n ≠ 0) by (apply Z2Qc_neq0; lia).
  assert (Hc : dt e / (two * (1 * Z2Qc n)) = dt e / Z2Qc n * half).
  { rewrite half_inv_two. pose proof two_neq0 as H2. rewrite two_1_1 in *.
    field. split; done. }
  assert (Ht : dt e / (1 * Z2Qc n) = dt e / Z2Qc n) by (field; done).
  rewrite Hc, Ht.
  set (V := vv_sys C P (dt e / Z2Qc n * half) (dt e / Z2Qc n) (nm_dt e) (forces_mts C 0)).
  assert (HVg : ∀ k, good_sys nb m0 (Nat.iter k V (P (sys e)))).
  { induction k as [|k IH]; [by apply HPg|]. simpl. unfold V at 1.
    by apply vv_sys_good. }
  rewrite HKb by apply HVg.
  destruct (Z.to_nat n) as [|k] eqn:Ek; [lia|].
  simpl. unfold V at 1 3, vv_sys. apply HPP.
  apply good_kick; [done|]. unfold qf_sys. apply Hfree.
  assert (H : good_sys nb m0 (P (kick_sys (dt e / Z2Qc n * half) (forces_mts C 0)
                                   (Nat.iter k V (P (sys e))))))
    by (apply HPg, good_kick; [done | apply HVg]).
  exact H.
Qed.

(** X18: with one force level, the factor [n], no bias force and a
    thermostat whose step changes nothing, one [MTSEnsemble.step] after
    [MTSEnsemble.bind] leaves the positions, momenta and cell that [n]
    [NVEEnsemble.step]s with the time step [dt/n] leave after the inherited
    binding of the same objects (one kind of constraint only, well-shaped
    arrays, exact arithmetic). *)
Theorem MTS_single_level_is_NVE_substeps
    (C : Collaborators) (s : Sys) (e : Ensemble) (n : Z) (nb : nat) (m0 : list Qc) :
  (0 < n)%Z →
  forces_nmtslevels C = 1%Z →
  mtsintegfactors e = [n] →
  (∀ w s', thermostat_step C w s' = s') →
  (∀ q_ h_, forces_f C q_ h_ = forces_mts C 0 q_ h_) →
  (∀ q_ h_, bias_f C q_ h_ = replicate nb (replicate (3 * length m0) 0)) →
  shaped_field nb (length m0) (forces_mts C 0) →
  (∀ tau s', good_sys nb m0 s' → good_sys nb m0 (nm_free_qstep C tau s')) →
  good_sys nb m0 s →
  (fixcom e = false ∨ (fixatoms e = [] ∧ (0 < nb)%nat ∧ sumQc m0 ≠ 0)) →
  ∃ e', MTSEnsemble_step C (MTSEnsemble_bind s e) = Some e'
        ∧ sys e' = sys (Nat.iter (Z.to_nat n) (NVEEnsemble_step C)
                          (Ensemble_bind NVEEnsemble_pconstraints s
                             (set_dt (dt e / Z2Qc n) e))).
Proof.
  intros Hn HL Hfac Hthermo Hsum Hbias Hf Hfree Hgood Hone.
  destruct (MTS_bind_cfg s e) as (Hdt1 & Hf1 & Hnm1).
  assert (Hfc1 : fixcom (MTSEnsemble_bind s e) = fixcom e
                 ∧ fixatoms (MTSEnsemble_bind s e) = fixatoms e
                 ∧ sys (MTSEnsemble_bind s e) = constrained (fixcom e) (fixatoms e) s).
  { unfold MTSEnsemble_bind, Ensemble_bind. cbn [fixcom fixatoms sys set_nm_dt].
    pose proof (cfg_pconstraints (set_nm_dt (dt e) (set_sys s e))) as Hc.
    rewrite (cfg_fixcom _ _ Hc), (cfg_fixatoms _ _ Hc), sys_pconstraints. done. }
  destruct Hfc1 as (Hfc1 & Hfa1 & Hs1).
  assert (Hprod : factor_product [n] = n).
  { rewrite factor_product_cons. unfold factor_product. simpl. lia. }
  rewrite Hfac, Hprod in Hnm1.
  destruct (MTS_single_level_step C (MTSEnsemble_bind s e) n nb m0)
    as (e' & Hstep & Hs'); try done.
  { by rewrite Hf1. }
  { rewrite Hs1. by apply good_constrained. }
  { by rewrite Hfc1, Hfa1. }
  exists e'. split; [exact Hstep|]. rewrite Hs', Hfc1, Hfa1, Hdt1, Hnm1, Hs1.
  rewrite (constrained_again_good _ _ nb m0) by done.
  (* the velocity-Verlet side *)
  destruct (sys_NVE_steps C (Z.to_nat n)
              (Ensemble_bind NVEEnsemble_pconstraints s (set_dt (dt e / Z2Qc n) e)))
    as [_ ->].
  assert (Hcn : dt (Ensemble_bind NVEEnsemble_pconstraints s (set_dt (dt e / Z2Qc n) e))
                = dt e / Z2Qc n
                ∧ nm_dt (Ensemble_bind NVEEnsemble_pconstraints s (set_dt (dt e / Z2Qc n) e))
                  = dt e / Z2Qc n
                ∧ fixcom (Ensemble_bind NVEEnsemble_pconstraints s (set_dt (dt e / Z2Qc n) e))
                  = fixcom e
                ∧ fixatoms (Ensemble_bind NVEEnsemble_pconstraints s (set_dt (dt e / Z2Qc n) e))
                  = fixatoms e
                ∧ sys (Ensemble_bind NVEEnsemble_pconstraints s (set_dt (dt e / Z2Qc n) e))
                  = constrained (fixcom e) (fixatoms e) s).
  { unfold Ensemble_bind.
    pose proof (cfg_pconstraints (set_nm_dt (dt (set_dt (dt e / Z2Qc n) e))
                                    (set_sys s (set_dt (dt e / Z2Qc n) e)))) as Hc.
    rewrite (cfg_dt _ _ Hc), (cfg_nm_dt _ _ Hc), (cfg_fixcom _ _ Hc),
            (cfg_fixatoms _ _ Hc), sys_pconstraints.
    repeat split. }
  destruct Hcn as (Hdtn & Hnmn & Hfcn & Hfan & Hsn).
  rewrite Hdtn, Hnmn, Hfcn, Hfan, Hsn.
  apply iter_ext. intros y. unfold vv_sys.
  assert (E : ∀ q_ h_, forces_mts C 0 q_ h_ = fadd (forces_f C) (bias_f C) q_ h_).
  { intros q_ h_. unfold fadd. rewrite Hbias, Hsum, (aadd_zero nb (length m0)); [done|].
    apply Hf. }
  by rewrite !(kick_sys_ext _ (forces_mts C 0) (fadd (forces_f C) (bias_f C)) _ E).
Qed.

Lemma MTS_single_level_is_NVE_substeps_witness :
  ∃ e', MTSEnsemble_step (idle 1)
          (MTSEnsemble_bind sys_two_atoms (mkEns 1 1 true [] 0 [3%Z] 0 [] 1 sys_two_atoms []))
        = Some e'
        ∧ sys e' = sys (Nat.iter 3 (NVEEnsemble_step (idle 1))
                          (Ensemble_bind NVEEnsemble_pconstraints sys_two_atoms
                             (set_dt (1 / Z2Qc 3)
                                (mkEns 1 1 true [] 0 [3%Z] 0 [] 1 sys_two_atoms [])))).
Proof.
  apply (MTS_single_level_is_NVE_substeps (idle 1) sys_two_atoms
           (mkEns 1 1 true [] 0 [3%Z] 0 [] 1 sys_two_atoms []) 3 1 [1; 1]).
  - lia.
  - reflexivity.
  - reflexivity.
  - intros w s'. reflexivity.
  - intros q_ h_. reflexivity.
  - intros q_ h_. reflexivity.
  - intros q_ h_. split; [reflexivity | repeat constructor].
  - intros tau s' Hs'. exact Hs'.
  - split; [|reflexivity]. split; [reflexivity | repeat constructor].
  - right. split; [reflexivity|]. split; [lia | qc_neq].
Defined.

(** ** The conserved quantity across a constraint pass *)

Lemma h_constrained fc fa s : h (constrained fc fa s) = h s.
Proof. unfold constrained. destruct fc; case_decide; reflexivity. Qed.

(** X19: in exact arithmetic, when the kinetic energy that enters the
    conserved quantity is the kinetic energy of the momenta, [pconstraints]
    leaves [NVEEnsemble.get_econs] unchanged: what it takes from the kinetic
    energy it books in [eens].  This is on well-shaped arrays with nonzero
    masses, with at least one replica and a nonzero total mass when the
    centre of mass is fixed, and with fixed atoms that exist and are listed
    once.  (In float64 the two values agree up to rounding only.) *)
Theorem pconstraints_keeps_econs (C : Collaborators) (e : Ensemble) :
  (∀ s, nm_kin C s = kinetic s) →
  wf_shape (sys e) →
  Forall (fun x => x ≠ 0) (m (sys e)) →
  (fixcom e = true → (0 < beads_nbeads (sys e))%nat ∧ beads_M (sys e) ≠ 0) →
  NoDup (fixatoms e) →
  Forall (fun a => (a < beads_natoms (sys e))%nat) (fixatoms e) →
  NVEEnsemble_get_econs C (NVEEnsemble_pconstraints e) = NVEEnsemble_get_econs C e.
Proof.
  intros Hkin Hwf Hnz Hcom Hnd Hin.
  destruct (com_stage_keeps e) as [Hfa Hna].
  assert (H2 : kinetic (sys (NVEEnsemble_pconstraints e)) + eens (NVEEnsemble_pconstraints e)
               = kinetic (sys e) + eens e).
  { rewrite <- (com_stage_energy e) by done.
    apply (fix_stage_energy (com_stage e)); by rewrite Hfa, ?Hna. }
  unfold NVEEnsemble_get_econs, Ensemble_get_econs.
  rewrite !Hkin, sys_pconstraints, q_constrained, h_constrained.
  rewrite <- sys_pconstraints.
  transitivity (beads_vpath C (q (sys e)) * nm_omegan2 C
                + forces_pot C (q (sys e)) (h (sys e))
                + bias_pot C (q (sys e)) (h (sys e))
                + (kinetic (sys (NVEEnsemble_pconstraints e))
                   + eens (NVEEnsemble_pconstraints e))); [ring|].
  rewrite H2. ring.
Qed.

Lemma pconstraints_keeps_econs_witness :
  NVEEnsemble_get_econs classical (NVEEnsemble_pconstraints (ens_two_atoms true [0%nat]))
  = NVEEnsemble_get_econs classical (ens_two_atoms true [0%nat]).
Proof.
  apply (pconstraints_keeps_econs classical (ens_two_atoms true [0%nat])).
  - intros s. reflexivity.
  - repeat constructor.
  - repeat constructor; qc_neq.
  - intros _. split; [unfold beads_nbeads; simpl; lia | qc_neq].
  - apply NoDup_singleton.
  - repeat constructor.
Defined.

(** ** Centre-of-mass fixing is a change of frame *)

Lemma entry_com_remove (s : Sys) (b a k : nat) :
  wf_shape s → (b < beads_nbeads s)%nat → (a < beads_natoms s)%nat → (k < 3)%nat →
  entry (com_remove s) b (3 * a + k)
  = entry (p s) b (3 * a + k)
    - at0 (m s) a * (sum_stride3 k (beads_natoms s) (p s)
                     * (1 / (N2Qc (beads_nbeads s) * beads_M s))).
Proof.
  intros Hwf Hb Ha Hk. rewrite com_remove_rows. unfold entry. unfold array in *.
  destruct (lookup_lt_is_Some_2 (p s : list (list Qc)) b Hb) as [row Hrow].
  rewrite list_lookup_fmap, Hrow.
  change (default [] (?f <$> Some row)) with (f row).
  change (default [] (Some row)) with row.
  rewrite at0_com_row; [| exact (proj1 (Forall_forall _ _) Hwf row
                                   (list_elem_of_lookup_2 _ _ _ Hrow)) | done | done].
  destruct k as [|[|[|k]]]; try lia; reflexivity.
Qed.

(** X20: in exact arithmetic, centre-of-mass fixing (without fixed atoms)
    changes the velocity [p/m] of every atom of every replica by the same
    amount: the difference between the velocities of any two atoms, along
    any direction, is the same after [pconstraints] as before.  This is on
    well-shaped arrays of at least one replica, with nonzero masses and a
    nonzero total mass.  (In float64 the two differences agree up to
    rounding only.) *)
Theorem com_fixing_keeps_relative_velocities (e : Ensemble) (b b' a a' k : nat) :
  fixcom e = true → fixatoms e = [] →
  wf_shape (sys e) →
  Forall (fun x => x ≠ 0) (m (sys e)) →
  (0 < beads_nbeads (sys e))%nat → beads_M (sys e) ≠ 0 →
  (b < beads_nbeads (sys e))%nat → (b' < beads_nbeads (sys e))%nat →
  (a < beads_natoms (sys e))%nat → (a' < beads_natoms (sys e))%nat → (k < 3)%nat →
  entry (p (sys (NVEEnsemble_pconstraints e))) b (3 * a + k) / at0 (m (sys e)) a
  - entry (p (sys (NVEEnsemble_pconstraints e))) b' (3 * a' + k) / at0 (m (sys e)) a'
  = entry (p (sys e)) b (3 * a + k) / at0 (m (sys e)) a
    - entry (p (sys e)) b' (3 * a' + k) / at0 (m (sys e)) a'.
Proof.
  intros Hfc Hfa Hwf Hnz Hnb HM Hb Hb' Ha Ha' Hk.
  destruct (pconstraints_com_only e Hfc Hfa) as [-> _]. cbn [p set_p].
  rewrite !entry_com_remove by done.
  assert (Hm : ∀ i, (i < beads_natoms (sys e))%nat → at0 (m (sys e)) i ≠ 0).
  { intros i Hi. destruct (lookup_lt_is_Some_2 (m (sys e)) i Hi) as [x Hx].
    rewrite (at0_lookup _ _ _ Hx).
    exact (proj1 (Forall_forall _ _) Hnz x (list_elem_of_lookup_2 _ _ _ Hx)). }
  pose proof (Hm a Ha). pose proof (Hm a' Ha').
  pose proof (N2Qc_pos_neq0 _ Hnb).
  field. repeat split; done.
Qed.

Lemma com_fixing_keeps_relative_velocities_witness :
  entry (p (sys (NVEEnsemble_pconstraints (ens_two_atoms true [])))) 0 (3 * 0 + 0)
    / at0 (m (sys (ens_two_atoms true []))) 0
  - entry (p (sys (NVEEnsemble_pconstraints (ens_two_atoms true [])))) 0 (3 * 1 + 0)
    / at0 (m (sys (ens_two_atoms true []))) 1
  = entry (p (sys (ens_two_atoms true []))) 0 (3 * 0 + 0)
      / at0 (m (sys (ens_two_atoms true []))) 0
    - entry (p (sys (ens_two_atoms true []))) 0 (3 * 1 + 0)
      / at0 (m (sys (ens_two_atoms true []))) 1.
Proof.
  apply (com_fixing_keeps_relative_velocities (ens_two_atoms true []) 0 0 0 1 0).
  - reflexivity.
  - reflexivity.
  - repeat constructor.
  - repeat constructor; qc_neq.
  - unfold beads_nbeads. simpl. lia.
  - qc_neq.
  - unfold beads_nbeads. simpl. lia.
  - unfold beads_nbeads. simpl. lia.
  - unfold beads_natoms. simpl. lia.
  - unfold beads_natoms. simpl. lia.
  - lia.
Defined.
